(** * PPM image tool: codec and transform pipeline

    A shallow embedding of [ppmio.cpp] (the P6 codec, the six transforms
    and the driver) and of [print_ppm.cpp] (the inspection reader and its
    dump), with the properties of the design document stated over it.

    Conventions of the embedding:
    - [unsigned char] is [byte]; [chan] is the integral promotion to [int]
      and [uchar] the narrowing conversion back (modulo 256);
    - [int] is [Z]; a conversion from [size_t] goes through [to_int], which
      writes out the two's complement wrap-around;
    - [std::vector<std::vector<RGB>>] is a list of rows; [operator[]] is an
      unchecked access in C++, so an index outside the vector is undefined
      behaviour, recorded here as the outcome [Undefined];
    - an exception is the outcome [Throw]; the diagnostic text sent to
      [std::cout] is not kept, but the element reads made to print it are. *)

From Stdlib Require Import ZArith Lia DecimalPos DecimalZ.
From Stdlib.Strings Require Import Byte.
From stdpp Require Import base list gmap strings.

Open Scope Z_scope.

(** ** Machine integers and bytes *)

Definition INT_MAX : Z := 2147483647.
Definition INT_MIN : Z := -2147483648.

(** Conversion of an out-of-range value to [int]. *)
Definition to_int (z : Z) : Z := (z + 2147483648) mod 4294967296 - 2147483648.

Definition in_int (z : Z) : bool := (INT_MIN <=? z) && (z <=? INT_MAX).

(** [static_cast<int>(v.size())]. *)
Definition int_size {A} (v : list A) : Z := to_int (Z.of_nat (length v)).

(** Integral promotion of an [unsigned char]. *)
Definition chan (c : byte) : Z := Z.of_N (Byte.to_N c).

(** Conversion of an [int] to [unsigned char]. *)
Definition uchar (z : Z) : byte :=
  match Byte.of_N (Z.to_N (z mod 256)) with
  | Some c => c
  | None => x00
  end.

#[global] Instance byte_eq_decision : EqDecision byte :=
  λ x y,
    match Byte.eqb x y as e return Byte.eqb x y = e → Decision (x = y) with
    | true => λ H, left (Byte.byte_dec_bl x y H)
    | false => λ H, right (Byte.eqb_false H)
    end eq_refl.

(** ** Outcomes of a call *)

(** The exceptions of the two programs, one constructor per [throw] site
    (and [LengthError] for the [std::length_error] of a vector constructed
    with a negative size). *)
Inductive exn :=
  | CannotOpen (filename : string)
  | InvalidFormat (magic : list byte)
  | HeaderError
  | MaxValueError
  | UnsupportedMaxValue (max_val : Z)
  | PixelDataError (row : Z)
  | EmptyImage
  | WriteError (row : Z)
  | VerifyOpenError (filename : string)
  | SizeMismatch (expected size : Z)
  | LengthError.

(** The places where the C++ code can leave defined behaviour
    ([Indeterminate]: the value of an object that was never written is
    used).
    [LoopBound] is not one of them: it marks a [while (true)] loop of the
    embedding that used up the bound it was given, which the bounds chosen
    in [readPPM] exclude (see [readPPM_within_bound]). *)
Inductive fault :=
  | RowZero
  | RowIndex (i : Z)
  | PixelIndex (i j : Z)
  | RowOverread (i : Z)
  | IntOverflow
  | Indeterminate
  | LoopBound.

Inductive outcome (A : Type) :=
  | Ret (a : A)
  | Throw (e : exn)
  | Undefined (f : fault).
Arguments Ret {A} a.
Arguments Throw {A} e.
Arguments Undefined {A} f.

Definition outcome_bind {A B} (f : A → outcome B) (m : outcome A) : outcome B :=
  match m with
  | Ret a => f a
  | Throw e => Throw e
  | Undefined u => Undefined u
  end.

#[global] Instance outcome_mret : MRet outcome := @Ret.
#[global] Instance outcome_mbind : MBind outcome := @outcome_bind.

(** [for (int i = ...; ...; ++i) body], over the indices the loop visits. *)
Fixpoint for_each {S} (idx : list Z) (body : Z → S → outcome S) (s : S) : outcome S :=
  match idx with
  | [] => Ret s
  | i :: idx' => s' ← body i s; for_each idx' body s'
  end.

(** [for (int i = lo; i < hi; ++i) body]. *)
Definition for_range {S} (lo hi : Z) (body : Z → S → outcome S) (s : S) : outcome S :=
  for_each (seqZ lo (hi - lo)) body s.

(** ** Pixels and buffers *)

Record RGB := mkRGB { r : byte; g : byte; b : byte }.

Abbreviation Image := (list (list RGB)).

(** A value-initialised [RGB]. *)
Definition RGB0 : RGB := mkRGB x00 x00 x00.

(** [v[i]] for an [int] index: the index is converted to [size_t], so a
    negative one lands beyond any vector. *)
Definition at_ {A} (v : list A) (i : Z) : option A :=
  if i <? 0 then None else v !! Z.to_nat i.

(** [image[0].size()], as [blur], [mirror] and [compress] read it. *)
Definition row0_size (image : Image) : outcome Z :=
  match at_ image 0 with
  | Some row => Ret (int_size row)
  | None => Undefined RowZero
  end.

(** Reading [image[i][j]]. *)
Definition get_pixel {A} (image : list (list A)) (i j : Z) : outcome A :=
  match at_ image i with
  | None => Undefined (RowIndex i)
  | Some row =>
      match at_ row j with
      | None => Undefined (PixelIndex i j)
      | Some p => Ret p
      end
  end.

(** Assigning [image[i][j]]. *)
Definition set_pixel {A} (image : list (list A)) (i j : Z) (p : A)
    : outcome (list (list A)) :=
  _ ← get_pixel image i j;
  Ret (alter (λ row, <[Z.to_nat j := p]> row) (Z.to_nat i) image).

(** [std::vector<T>(n, x)] for an [int] n. *)
Definition make_vector {A} (n : Z) (x : A) : outcome (list A) :=
  if n <? 0 then Throw LengthError else Ret (replicate (Z.to_nat n) x).

(** ** The transforms of ppmio.cpp *)

(** [for (auto &row : image) for (auto &pixel : row) pixel = f(pixel)]. *)
Definition for_pixels (f : RGB → RGB) (image : Image) : Image :=
  (λ row : list RGB, f <$> row) <$> image.

Definition grayscale_pixel (pixel : RGB) : RGB :=
  let gray := uchar ((chan (r pixel) + chan (g pixel) + chan (b pixel)) `quot` 3) in
  mkRGB gray gray gray.

Definition grayscale (image : Image) : Image := for_pixels grayscale_pixel image.

Definition invert_pixel (pixel : RGB) : RGB :=
  mkRGB (uchar (255 - chan (r pixel)))
        (uchar (255 - chan (g pixel)))
        (uchar (255 - chan (b pixel))).

Definition invert (image : Image) : Image := for_pixels invert_pixel image.

Section Contrast.
(** [scaled factor v] stands for
    [static_cast<int>((v - 128) * factor + 128)], computed in binary32. *)
Context {float : Type} (scaled : float → Z → Z).

Definition contrast_channel (factor : float) (c : byte) : byte :=
  uchar (Z.min 255 (Z.max 0 (scaled factor (chan c)))).

Definition contrast_pixel (factor : float) (pixel : RGB) : RGB :=
  mkRGB (contrast_channel factor (r pixel))
        (contrast_channel factor (g pixel))
        (contrast_channel factor (b pixel)).

Definition contrast (image : Image) (factor : float) : Image :=
  for_pixels (contrast_pixel factor) image.
End Contrast.

(** [sum_r += temp[i + x][j + y].r] and the same for the two other sums. *)
Definition blur_accumulate (temp : Image) (i j x y : Z) (sums : Z * Z * Z)
    : outcome (Z * Z * Z) :=
  let '(sum_r, sum_g, sum_b) := sums in
  p ← get_pixel temp (i + x) (j + y);
  Ret (sum_r + chan (r p), sum_g + chan (g p), sum_b + chan (b p)).

(** The three running sums of the inner loops of [blur]. *)
Definition blur_sums (temp : Image) (i j : Z) : outcome (Z * Z * Z) :=
  for_range (-1) 2 (λ x, for_range (-1) 2 (blur_accumulate temp i j x)) (0, 0, 0).

Definition blur (image : Image) : outcome Image :=
  let temp := image in
  let height := int_size image in
  width ← row0_size image;
  for_range 1 (height - 1) (λ i,
    for_range 1 (width - 1) (λ j image,
      '(sum_r, sum_g, sum_b) ← blur_sums temp i j;
      set_pixel image i j
        (mkRGB (uchar (sum_r `quot` 9)) (uchar (sum_g `quot` 9)) (uchar (sum_b `quot` 9)))))
    image.

(** The reads of row 0 that [mirror] makes to print its first and last
    five pixels. *)
Definition mirror_print (image : Image) (width : Z) : outcome unit :=
  _ ← for_range 0 (Z.min 5 width) (λ j u, _ ← get_pixel image 0 j; Ret u) ();
  for_range (width - 5) width (λ j u, _ ← get_pixel image 0 j; Ret u) ().

(** [std::reverse(image[i].begin(), image[i].end())]. *)
Definition reverse_row (image : Image) (i : Z) : outcome Image :=
  match at_ image i with
  | None => Undefined (RowIndex i)
  | Some _ => Ret (alter reverse (Z.to_nat i) image)
  end.

Definition mirror (image : Image) : outcome Image :=
  let height := int_size image in
  width ← row0_size image;
  _ ← mirror_print image width;
  image ← for_range 0 height (λ i image, reverse_row image i) image;
  _ ← mirror_print image width;
  Ret image.

Definition compress (image : Image) : outcome Image :=
  let height := int_size image in
  width ← row0_size image;
  let new_height := height `quot` 2 in
  let new_width := width `quot` 2 in
  row ← make_vector new_width RGB0;
  compressed ← make_vector new_height row;
  for_range 0 new_height (λ i,
    for_range 0 new_width (λ j compressed,
      p ← get_pixel image (2 * i + 1) (2 * j + 1);
      set_pixel compressed i j p))
    compressed.

(** ** Shape of a buffer *)

Definition height (image : Image) : nat := length image.

(** The width is the length of row 0, as the code takes it. *)
Definition width (image : Image) : nat :=
  match image with
  | [] => 0%nat
  | row :: _ => length row
  end.

(** Every row has the length of row 0. *)
Definition rectangular (image : Image) : Prop :=
  Forall (λ row : list RGB, length row = width image) image.

(** Both dimensions are representable as [int]. *)
Definition fits_int (image : Image) : Prop :=
  Z.of_nat (height image) ≤ INT_MAX ∧ Z.of_nat (width image) ≤ INT_MAX.

(** The row lengths of a buffer, in order. *)
Definition shape {A} (image : list (list A)) : list nat := length <$> image.

(** Specification side of [blur]: the cells of the 3x3 box around (i, j)
    and the sum of one channel over a list of cells of a buffer. *)
Definition box (i j : Z) : list (Z * Z) :=
  x ← [-1; 0; 1]; y ← [-1; 0; 1]; [(i + x, j + y)].

Definition channel_at (sel : RGB → byte) (image : Image) (cell : Z * Z) : Z :=
  match get_pixel image cell.1 cell.2 with
  | Ret p => chan (sel p)
  | _ => 0
  end.

Definition channel_sum (sel : RGB → byte) (image : Image) (cells : list (Z * Z)) : Z :=
  foldr (λ cell acc, channel_at sel image cell + acc) 0 cells.

(** The pixel that [blur] stores at (i, j), in terms of the snapshot. *)
Definition blur_value (temp : Image) (i j : Z) : RGB :=
  mkRGB (uchar (channel_sum r temp (box i j) `quot` 9))
        (uchar (channel_sum g temp (box i j) `quot` 9))
        (uchar (channel_sum b temp (box i j) `quot` 9)).

(** ** Sample buffers *)

Definition px (n : Z) : RGB := mkRGB (uchar n) (uchar (n + 1)) (uchar (n + 2)).

(** A [rows] x [cols] buffer whose pixel (i, j) is [px (10 * (cols * i + j))]. *)
Definition sample (rows cols : nat) : Image :=
  (λ i : nat, (λ j : nat, px (10 * Z.of_nat (cols * i + j))) <$> seq 0 cols) <$> seq 0 rows.

(** [out] is rectangular and has the dimensions of [image]. *)
Definition same_dims (image out : Image) : Prop :=
  rectangular out ∧ height out = height image ∧ width out = width image.

(** Case analysis on which cells a loop has visited so far. *)
Ltac visited_cases :=
  repeat case_decide;
  rewrite ?elem_of_app, ?list_elem_of_singleton in *;
  try (exfalso; tauto);
  destruct_and?; subst; solve [done | tauto].

(** ** Input streams

    A [std::istream] over a byte sequence: what is left to read and the
    two state bits the code depends on. *)

Record istream := mkIstream { buf : list byte; eofbit : bool; failbit : bool }.

Definition good (s : istream) : bool := negb (eofbit s) && negb (failbit s).

Definition set_failbit (s : istream) : istream := mkIstream (buf s) (eofbit s) true.

(** [std::isspace] in the "C" locale. *)
Definition isspace (c : byte) : bool :=
  match c with
  | x09 | x0a | x0b | x0c | x0d | x20 => true
  | _ => false
  end.

Definition isdigit (c : byte) : bool :=
  match c with
  | x30 | x31 | x32 | x33 | x34 | x35 | x36 | x37 | x38 | x39 => true
  | _ => false
  end.

Definition is_newline (c : byte) : bool :=
  match c with x0a => true | _ => false end.

Definition is_nil {A} (l : list A) : bool :=
  match l with [] => true | _ => false end.

Fixpoint take_while {A} (f : A → bool) (l : list A) : list A :=
  match l with
  | [] => []
  | x :: l' => if f x then x :: take_while f l' else []
  end.

Fixpoint drop_while {A} (f : A → bool) (l : list A) : list A :=
  match l with
  | [] => []
  | x :: l' => if f x then drop_while f l' else l
  end.

(** [l] does not start with an element satisfying [f]. *)
Definition stops {A} (f : A → bool) (l : list A) : Prop :=
  match l with
  | [] => True
  | x :: _ => f x = false
  end.

(** [is >> str] for a [std::string]: skip whitespace, then take the
    characters up to the next whitespace. [str] keeps its value when the
    sentry fails. *)
Definition extract_word (s : istream) (str : list byte) : istream * list byte :=
  if negb (good s) then (set_failbit s, str)
  else
    match drop_while isspace (buf s) with
    | [] => (mkIstream [] true true, str)
    | rest =>
        let rest' := drop_while (λ c, negb (isspace c)) rest in
        (mkIstream rest' (is_nil rest') false, take_while (λ c, negb (isspace c)) rest)
    end.

(** [std::getline(is, line)]: the characters up to the next newline, which
    is extracted and dropped; at the end of the input [eofbit] is set, and
    [failbit] too when nothing was extracted. *)
Definition getline (s : istream) (line : list byte) : istream * list byte :=
  if negb (good s) then (set_failbit s, line)
  else
    let l := take_while (λ c, negb (is_newline c)) (buf s) in
    match drop_while (λ c, negb (is_newline c)) (buf s) with
    | [] => (mkIstream [] true (is_nil l), l)
    | _ :: rest => (mkIstream rest false false, l)
    end.

Definition digit_value (c : byte) : Z := chan c - 48.

Definition decimal_value (digits : list byte) : Z :=
  foldl (λ acc c, 10 * acc + digit_value c) 0 digits.

(** [is >> val] for an [int]: skip whitespace, an optional sign, then
    decimal digits. Without a digit the extraction fails and stores 0; a
    value outside [int] fails and stores the nearest bound; [val] keeps its
    value when the sentry fails. *)
Definition extract_int (s : istream) (val : Z) : istream * Z :=
  if negb (good s) then (set_failbit s, val)
  else
    match drop_while isspace (buf s) with
    | [] => (mkIstream [] true true, val)
    | c :: rest =>
        let negative := match c with "-"%byte => true | _ => false end in
        let body := match c with "-"%byte | "+"%byte => rest | _ => c :: rest end in
        let digits := take_while isdigit body in
        let rest' := drop_while isdigit body in
        match digits with
        | [] => (mkIstream rest' (is_nil rest') true, 0)
        | _ =>
            let v := if negative then - decimal_value digits else decimal_value digits in
            if v <? INT_MIN then (mkIstream rest' (is_nil rest') true, INT_MIN)
            else if INT_MAX <? v then (mkIstream rest' (is_nil rest') true, INT_MAX)
            else (mkIstream rest' (is_nil rest') false, v)
        end
    end.

(** [while (std::isspace(is.peek())) is.get();]. [peek] sets [eofbit] at
    the end of the input, and [failbit] on a stream that is not good. *)
Definition skip_space (s : istream) : istream :=
  if negb (good s) then set_failbit s
  else
    let rest := drop_while isspace (buf s) in
    mkIstream rest (is_nil rest) false.

(** [is.read(p, n)], with the bytes read ([is.gcount()] is their number). *)
Definition read (s : istream) (n : Z) : istream * list byte :=
  if negb (good s) then (set_failbit s, [])
  else
    let got := take (Z.to_nat n) (buf s) in
    let rest := drop (Z.to_nat n) (buf s) in
    if Z.of_nat (length got) <? n then (mkIstream rest true true, got)
    else (mkIstream rest false false, got).

(** [is.ignore()]: extract one character. *)
Definition ignore (s : istream) : istream :=
  if negb (good s) then set_failbit s
  else
    match buf s with
    | [] => mkIstream [] true false
    | _ :: rest => mkIstream rest false false
    end.

(** ** Output of integers *)

Fixpoint bytes_of_uint (u : Decimal.uint) : list byte :=
  match u with
  | Decimal.Nil => []
  | Decimal.D0 u => "0"%byte :: bytes_of_uint u
  | Decimal.D1 u => "1"%byte :: bytes_of_uint u
  | Decimal.D2 u => "2"%byte :: bytes_of_uint u
  | Decimal.D3 u => "3"%byte :: bytes_of_uint u
  | Decimal.D4 u => "4"%byte :: bytes_of_uint u
  | Decimal.D5 u => "5"%byte :: bytes_of_uint u
  | Decimal.D6 u => "6"%byte :: bytes_of_uint u
  | Decimal.D7 u => "7"%byte :: bytes_of_uint u
  | Decimal.D8 u => "8"%byte :: bytes_of_uint u
  | Decimal.D9 u => "9"%byte :: bytes_of_uint u
  end.

(** [os << n] for an [int]. *)
Definition print_int (n : Z) : list byte :=
  match Z.to_int n with
  | Decimal.Pos u => bytes_of_uint u
  | Decimal.Neg u => "-"%byte :: bytes_of_uint u
  end.

(** ** Files *)

(** The files that exist, with their contents, and the paths at which a
    file can be created or truncated. *)
Record filesystem := mkFs { files : gmap string (list byte); writable : string → bool }.

(** The effect of closing an output stream opened on [filename]. *)
Definition store (fs : filesystem) (filename : string) (content : list byte) : filesystem :=
  mkFs (<[filename := content]> (files fs)) (writable fs).

(** ** The codec of ppmio.cpp *)

(** The memory of a row, as [read] and [write] see it through
    [reinterpret_cast<char *>(row.data())]. *)
Definition bytes_of_row (row : list RGB) : list byte :=
  p ← row; [r p; g p; b p].

(** The pixel section of a file: the rows one after the other. *)
Definition bytes_of_image (image : Image) : list byte :=
  row ← image; bytes_of_row row.

Fixpoint pixels_of_bytes (bytes : list byte) : list RGB :=
  match bytes with
  | cr :: cg :: cb :: bytes' => mkRGB cr cg cb :: pixels_of_bytes bytes'
  | _ => []
  end.

(** [int] multiplication; an overflow is undefined. *)
Definition mul_int (x y : Z) : outcome Z :=
  if in_int (x * y) then Ret (x * y) else Undefined IntOverflow.

Definition add_int (x y : Z) : outcome Z :=
  if in_int (x + y) then Ret (x + y) else Undefined IntOverflow.

(** [line.empty() || line[0] == '#']. *)
Definition skipped (line : list byte) : bool :=
  is_nil line || match line with "#"%byte :: _ => true | _ => false end.

(** The first [while (true)] loop of [readPPM]: lines are read until one
    yields two integers. [bound] limits the number of iterations. *)
Fixpoint read_size (bound : nat) (file : istream) (line : list byte) (width height : Z)
    : outcome (istream * list byte * Z * Z) :=
  match bound with
  | O => Undefined LoopBound
  | S bound' =>
      let '(file, line) := getline file line in
      if failbit file then Throw HeaderError
      else if skipped line then read_size bound' file line width height
      else
        let iss := mkIstream line false false in
        let '(iss, width) := extract_int iss width in
        let '(iss, height) := extract_int iss height in
        if negb (failbit iss) then Ret (file, line, width, height)
        else read_size bound' file line width height
  end.

(** The second loop, for the maximum colour value. *)
Fixpoint read_max_val (bound : nat) (file : istream) (line : list byte) (max_val : Z)
    : outcome (istream * Z) :=
  match bound with
  | O => Undefined LoopBound
  | S bound' =>
      let '(file, line) := getline file line in
      if failbit file then Throw MaxValueError
      else if skipped line then read_max_val bound' file line max_val
      else
        let iss := mkIstream line false false in
        let '(iss, max_val) := extract_int iss max_val in
        if negb (failbit iss) then Ret (file, max_val)
        else read_max_val bound' file line max_val
  end.

(** The bytes read into row [i] overwrite the start of its memory. *)
Definition overwrite_row (row : list RGB) (got : list byte) : list RGB :=
  pixels_of_bytes (got ++ drop (length got) (bytes_of_row row)).

(** One iteration of the loop that reads the pixel data. *)
Definition read_row (width : Z) (i : Z) (st : istream * Image) : outcome (istream * Image) :=
  let '(file, image) := st in
  n ← mul_int width 3;
  match at_ image i with
  | None => Undefined (RowIndex i)
  | Some row =>
      let '(file, got) := read file n in
      let image := <[Z.to_nat i := overwrite_row row got]> image in
      if negb (Z.of_nat (length got) =? n) then Throw (PixelDataError i)
      else Ret (file, image)
  end.

(** The reads of [image[i][j]] made to print the first few pixels. *)
Definition print_first_pixels (image : Image) (height width : Z) : outcome unit :=
  for_range 0 (Z.min 5 height) (λ i,
    for_range 0 (Z.min 5 width) (λ j u, _ ← get_pixel image i j; Ret u)) ().

Definition P6 : list byte := ["P"%byte; "6"%byte].

(** The header part of [readPPM], from the magic number to the check of
    the maximum colour value: the stream positioned after the line of the
    maximum value, and the size read. [width], [height] and [max_val] are
    not initialised in the code; they are not read before being assigned. *)
Definition read_header (content : list byte) : outcome (istream * Z * Z) :=
  let file := mkIstream content false false in
  let '(file, magic) := extract_word file [] in
  if negb (bool_decide (magic = P6)) then Throw (InvalidFormat magic)
  else
    '(file, line, width, height) ← read_size (S (length (buf file))) file [] 0 0;
    '(file, max_val) ← read_max_val (S (length (buf file))) file line 0;
    if negb (max_val =? 255) then Throw (UnsupportedMaxValue max_val)
    else Ret (file, width, height).

(** The rest of [readPPM]: the whitespace before the binary data, then the
    rows. *)
Definition read_pixels (file : istream) (width height : Z) : outcome Image :=
  let file := skip_space file in
  row ← make_vector width RGB0;
  image ← make_vector height row;
  '(file, image) ← for_range 0 height (read_row width) (file, image);
  _ ← print_first_pixels image height width;
  Ret image.

Definition readPPM (fs : filesystem) (filename : string) : outcome Image :=
  match files fs !! filename with
  | None => Throw (CannotOpen filename)
  | Some content =>
      '(file, width, height) ← read_header content;
      read_pixels file width height
  end.

(** The header that [writePPM] writes. *)
Definition header (width height : Z) : list byte :=
  P6 ++ [x0a] ++ print_int width ++ [" "%byte] ++ print_int height
     ++ [x0a; "2"%byte; "5"%byte; "5"%byte; x0a].

(** [file.write(image[i].data(), width * 3)]: the bytes appended for row
    [i]. Reading past the end of the row's memory is undefined. *)
Definition write_row (image : Image) (width : Z) (i : Z) (out : list byte)
    : outcome (list byte) :=
  n ← mul_int width 3;
  match at_ image i with
  | None => Undefined (RowIndex i)
  | Some row =>
      if Z.of_nat (length (bytes_of_row row)) <? n then Undefined (RowOverread i)
      else Ret (out ++ take (Z.to_nat n) (bytes_of_row row))
  end.

(** The body of [writePPM] once the output stream is open: the bytes that
    the stream holds when it is closed. *)
Definition write_stream (image : Image) (height width : Z) : outcome (list byte) :=
  let out := header width height in
  _ ← print_first_pixels image height width;
  for_range 0 height (write_row image width) out.

(** The check of the size of the file written. *)
Definition verify_size (fs : filesystem) (filename : string) (height width : Z)
    : outcome unit :=
  match files fs !! filename with
  | None => Throw (VerifyOpenError filename)
  | Some content =>
      let size := Z.of_nat (length content) in
      wh ← mul_int width height;
      wh3 ← mul_int wh 3;
      expectedMinSize ← add_int wh3 10;
      if size <? expectedMinSize then Throw (SizeMismatch expectedMinSize size)
      else Ret ()
  end.

(** [writePPM] returns the file system it leaves behind together with its
    outcome. Opening the output stream creates the file, or truncates it;
    when the function is left by an exception the stream is closed with
    what was written so far. *)
Definition writePPM (fs : filesystem) (filename : string) (image : Image)
    : filesystem * outcome unit :=
  if negb (writable fs filename) then (fs, Throw (CannotOpen filename))
  else
    let fs := store fs filename [] in
    let height := int_size image in
    let width := if 0 <? height then default 0 (int_size <$> at_ image 0) else 0 in
    if (width =? 0) || (height =? 0) then (fs, Throw EmptyImage)
    else
      match write_stream image height width with
      | Ret out =>
          let fs := store fs filename out in
          (fs, verify_size fs filename height width)
      | Throw e => (fs, Throw e)
      | Undefined u => (fs, Undefined u)
      end.

(** A buffer that [writePPM] accepts and writes in full: rectangular, at
    least 1x1, and small enough for the [int] arithmetic of the size
    check. *)
Definition writable_image (image : Image) : Prop :=
  rectangular image ∧ (1 ≤ height image)%nat ∧ (1 ≤ width image)%nat ∧
  Z.of_nat (width image) * Z.of_nat (height image) * 3 + 10 ≤ INT_MAX.

(** ** The error kinds of the design document *)

Inductive error_kind := IOError | FormatError | InvalidInput.

(** The code throws [std::runtime_error] at every [throw] site; the design
    document sorts the failures into three kinds, by site. A
    [std::length_error] raised by the library belongs to none of them. *)
Definition kind_of (e : exn) : option error_kind :=
  match e with
  | CannotOpen _ | WriteError _ | VerifyOpenError _ | SizeMismatch _ _ => Some IOError
  | InvalidFormat _ | HeaderError | MaxValueError | UnsupportedMaxValue _
  | PixelDataError _ => Some FormatError
  | EmptyImage => Some InvalidInput
  | LengthError => None
  end.

(** ** The reader of print_ppm.cpp *)

(** The three channels of a pixel of ppmio.cpp, promoted to [int]. *)
Definition promoted (p : RGB) : Z * Z * Z := (chan (r p), chan (g p), chan (b p)).

(** A grid with [f] applied to each of its cells. *)
Definition map_grid {A B} (f : A → B) (grid : list (list A)) : list (list B) :=
  (λ row : list A, f <$> row) <$> grid.

Module PrintPPM.

(** The pixel of this program has [int] channels. *)
Record RGB := mkRGB { r : Z; g : Z; b : Z }.

Definition RGB0 : RGB := mkRGB 0 0 0.

Definition P3 : list byte := ["P"%byte; "3"%byte].

(** The four arguments that [loadPPM] takes by reference. *)
Record args := mkArgs {
  image : list (list RGB);
  width : Z;
  height : Z;
  format : list byte
}.

(** [v.resize(n, x)] for an [int] n. *)
Definition resize {A} (v : list A) (n : Z) (x : A) : outcome (list A) :=
  if n <? 0 then Throw LengthError
  else Ret (take (Z.to_nat n) v ++ replicate (Z.to_nat n - length v) x).

(** [file >> image[i][j].r >> image[i][j].g >> image[i][j].b]. *)
Definition read_text_pixel (file : istream) (p : RGB) : outcome (istream * RGB) :=
  let '(file, cr) := extract_int file (r p) in
  let '(file, cg) := extract_int file (g p) in
  let '(file, cb) := extract_int file (b p) in
  Ret (file, mkRGB cr cg cb).

(** [unsigned char rgb[3]; file.read(rgb, 3); image[i][j] = {rgb[0],
    rgb[1], rgb[2]}]: after a short read the bytes of [rgb] that were not
    written are used all the same. *)
Definition read_binary_pixel (file : istream) (p : RGB) : outcome (istream * RGB) :=
  let '(file, rgb) := read file 3 in
  match rgb with
  | [c0; c1; c2] => Ret (file, mkRGB (chan c0) (chan c1) (chan c2))
  | _ => Undefined Indeterminate
  end.

(** The two nested loops over the pixels, which the P3 and the P6 branch
    share but for the way one pixel is read. *)
Definition load_pixels (read_pixel : istream → RGB → outcome (istream * RGB))
    (file : istream) (image : list (list RGB)) (height width : Z)
    : outcome (istream * list (list RGB)) :=
  for_range 0 height (λ i,
    for_range 0 width (λ j '(file, image),
      p ← get_pixel image i j;
      '(file, p) ← read_pixel file p;
      image ← set_pixel image i j p;
      Ret (file, image)))
    (file, image).

(** [loadPPM] returns its [bool] together with the values it leaves in
    its reference arguments. [maxVal] is read and not used. *)
Definition loadPPM (fs : filesystem) (filename : string) (a : args)
    : outcome (bool * args) :=
  match files fs !! filename with
  | None => Ret (false, a)
  | Some content =>
      let file := mkIstream content false false in
      let '(file, format) := extract_word file (format a) in
      if negb (bool_decide (format = P3)) && negb (bool_decide (format = P6))
      then Ret (false, mkArgs (image a) (width a) (height a) format)
      else
        let '(file, width) := extract_int file (width a) in
        let '(file, height) := extract_int file (height a) in
        let '(file, maxVal) := extract_int file 0 in
        let file := ignore file in
        row ← make_vector width RGB0;
        image ← resize (image a) height row;
        '(file, image) ←
          (if bool_decide (format = P3)
           then load_pixels read_text_pixel file image height width
           else if bool_decide (format = P6)
           then load_pixels read_binary_pixel file image height width
           else Ret (file, image));
        Ret (true, mkArgs image width height format)
  end.

(** *** Well-formed files, for the statements about [loadPPM] *)

(** A non-empty run of whitespace. *)
Definition blank (sp : list byte) : Prop :=
  sp ≠ [] ∧ Forall (λ c, isspace c = true) sp.

(** A header without comments: the magic number, the width, the height
    and the maximum value separated by whitespace, then one more byte. *)
Definition ppm_header (magic sp1 sp2 sp3 : list byte) (w h maxval : Z) (sep : byte)
    : list byte :=
  magic ++ sp1 ++ print_int w ++ sp2 ++ print_int h ++ sp3 ++ print_int maxval ++ [sep].

(** The pixel of this program for a pixel of three bytes. *)
Definition widen p : RGB := let '(cr, cg, cb) := promoted p in mkRGB cr cg cb.

(** The text of a P3 pixel: each of the three numbers after its own run
    of whitespace. *)
Definition p3_pixel (sp : list byte * list byte * list byte) (p : RGB) : list byte :=
  let '(sp_r, sp_g, sp_b) := sp in
  sp_r ++ print_int (r p) ++ sp_g ++ print_int (g p) ++ sp_b ++ print_int (b p).

(** The text of a P3 pixel section, then whatever follows the last
    number. *)
Fixpoint p3_body (pixels : list (list byte * list byte * list byte * RGB))
    (rest : list byte) : list byte :=
  match pixels with
  | [] => rest
  | (sp, p) :: pixels' => p3_pixel sp p ++ p3_body pixels' rest
  end.

(** Each number is an [int] that is not negative; the green and the blue
    one are preceded by whitespace, the red one by whitespace or nothing;
    what follows a pixel does not start with a digit. *)
Fixpoint separated (pixels : list (list byte * list byte * list byte * RGB))
    (rest : list byte) : Prop :=
  match pixels with
  | [] => True
  | (sp_r, sp_g, sp_b, p) :: pixels' =>
      Forall (λ c, isspace c = true) sp_r ∧ blank sp_g ∧ blank sp_b ∧
      0 ≤ r p ≤ INT_MAX ∧ 0 ≤ g p ≤ INT_MAX ∧ 0 ≤ b p ≤ INT_MAX ∧
      stops isdigit (p3_body pixels' rest) ∧ separated pixels' rest
  end.

(** An input stream positioned at [l] after a formatted extraction that
    ended there. *)
Definition stream_at (l : list byte) : istream := mkIstream l (is_nil l) false.

(** The fields of a header are well formed: whitespace between them, one
    whitespace byte after the maximum value, and numbers that are [int]s
    and not negative. *)
Definition well_formed_header (sp1 sp2 sp3 : list byte) (w h maxval : Z) (sep : byte)
    : Prop :=
  blank sp1 ∧ blank sp2 ∧ blank sp3 ∧ isspace sep = true ∧
  0 ≤ w ≤ INT_MAX ∧ 0 ≤ h ≤ INT_MAX ∧ 0 ≤ maxval ≤ INT_MAX.

(** The first token of a file, as [file >> format] reads it. *)
Definition magic_of (content old : list byte) : list byte :=
  (extract_word (mkIstream content false false) old).2.

(** *** The dump of the pixels *)

(** The characters of a string literal sent to [std::cout]. *)
Definition text (s : string) : list byte := String.list_byte_of_string s.

(** ["(" << pixel.r << ", " << pixel.g << ", " << pixel.b << ") "]. *)
Definition print_pixel (pixel : RGB) : list byte :=
  text "(" ++ print_int (r pixel) ++ text ", " ++ print_int (g pixel) ++
  text ", " ++ print_int (b pixel) ++ text ") ".

(** One row: its pixels, then a newline. *)
Definition print_row (row : list RGB) : list byte :=
  (pixel ← row; print_pixel pixel) ++ [x0a].

(** What [printPPMPixels] sends to [std::cout]. *)
Definition printPPMPixels (image : list (list RGB)) : list byte :=
  text "PPM Image Pixels (R G B format):" ++ [x0a] ++
  (row ← image; print_row row) ++
  text "--------------------------" ++ [x0a].

End PrintPPM.

(** ** The driver of ppmio.cpp *)

(** The reads of [image[i][j]] that [main] makes after each transform to
    print the first few pixels; the bounds are taken from the vectors
    themselves. *)
Definition print_pixels (image : Image) : outcome unit :=
  for_range 0 (Z.min 5 (int_size image)) (λ i u,
    match at_ image i with
    | None => Undefined (RowIndex i)
    | Some row =>
        for_range 0 (Z.min 5 (int_size row)) (λ j u, _ ← get_pixel image i j; Ret u) u
    end) ().

(** How the body of a loop is left: by falling through to the next
    statement, or by a [return]. *)
Inductive flow (A : Type) :=
  | Next (a : A)
  | Return (code : Z).
Arguments Next {A} a.
Arguments Return {A} code.

Section Main.
(** [scaled] as for [contrast]; [factor] stands for the literal [1.2f]. *)
Context {float : Type} (scaled : float → Z → Z) (factor : float).

(** The chain of [if]s over one option; [None] is its last [else]. *)
Definition transform (opt : string) (image : Image) : option (outcome Image) :=
  if decide (opt = "-g"%string) then Some (Ret (grayscale image))
  else if decide (opt = "-i"%string) then Some (Ret (invert image))
  else if decide (opt = "-x"%string) then Some (Ret (contrast scaled image factor))
  else if decide (opt = "-b"%string) then Some (blur image)
  else if decide (opt = "-m"%string) then Some (mirror image)
  else if decide (opt = "-c"%string) then Some (compress image)
  else None.

(** [for (const auto &option : options) ...]. *)
Fixpoint run_options (options : list string) (image : Image) : outcome (flow Image) :=
  match options with
  | [] => Ret (Next image)
  | opt :: options' =>
      match transform opt image with
      | None => Ret (Return 1)
      | Some transformed =>
          image ← transformed;
          _ ← print_pixels image;
          run_options options' image
      end
  end.

(** [main], given [argv[1]], ..., [argv[argc - 1]]: the file system it
    leaves behind and its exit status. Every exception of the two
    functions derives from [std::exception] and is caught. *)
Definition main (fs : filesystem) (args : list string) : filesystem * outcome Z :=
  match args with
  | inputFile :: outputFile :: options =>
      match image ← readPPM fs inputFile; run_options options image with
      | Ret (Next image) =>
          match writePPM fs outputFile image with
          | (fs, Ret _) => (fs, Ret 0)
          | (fs, Throw _) => (fs, Ret 1)
          | (fs, Undefined u) => (fs, Undefined u)
          end
      | Ret (Return code) => (fs, Ret code)
      | Throw _ => (fs, Ret 1)
      | Undefined u => (fs, Undefined u)
      end
  | _ => (fs, Ret 1)
  end.

(** The pixel map of an option that works pixel by pixel: [-g], [-i] and
    [-x]. *)
Definition pixel_map (opt : string) : RGB → RGB :=
  if decide (opt = "-g"%string) then grayscale_pixel
  else if decide (opt = "-i"%string) then invert_pixel
  else contrast_pixel scaled factor.

(** The pixel maps of a list of such options, applied in order. *)
Fixpoint pixel_pipeline (options : list string) (pixel : RGB) : RGB :=
  match options with
  | [] => pixel
  | opt :: options' => pixel_pipeline options' (pixel_map opt pixel)
  end.
End Main.

(** The options that [main] knows. *)
Definition known_options : list string :=
  ["-g"; "-i"; "-x"; "-b"; "-m"; "-c"]%string.

(** ** Headers with comments *)

(** The text of some lines, each ended by a newline. *)
Definition lines_text (lines : list (list byte)) : list byte :=
  line ← lines; line ++ [x0a].

(** A line that the header loops of [readPPM] skip: empty, or starting
    with '#'. *)
Definition comment_line (line : list byte) : Prop :=
  skipped line = true ∧ Forall (λ c, is_newline c = false) line.

(** A P6 header with such lines before the line of the size and before
    the line of the maximum value. *)
Definition commented_header (before_size before_max : list (list byte))
    (width height max_val : Z) : list byte :=
  P6 ++ [x0a] ++ lines_text before_size ++
  (print_int width ++ " "%byte :: print_int height) ++ [x0a] ++
  lines_text before_max ++ print_int max_val ++ [x0a].

(** ** Ranges of channel values *)

(** Each channel of [pixel] lies between the same channel of [lo] and of
    [hi]. *)
Definition within (lo hi pixel : RGB) : Prop :=
  chan (r lo) ≤ chan (r pixel) ≤ chan (r hi) ∧
  chan (g lo) ≤ chan (g pixel) ≤ chan (g hi) ∧
  chan (b lo) ≤ chan (b pixel) ≤ chan (b hi).

(** * Properties *)

(** ** Integers, bytes and vector accesses *)

Lemma to_int_id z : INT_MIN ≤ z ≤ INT_MAX → to_int z = z.
Proof.
  unfold to_int, INT_MIN, INT_MAX. intros Hz.
  rewrite Z.mod_small; lia.
Qed.

Lemma int_size_id {A} (v : list A) :
  Z.of_nat (length v) ≤ INT_MAX → int_size v = Z.of_nat (length v).
Proof. intros Hv. apply to_int_id. unfold INT_MIN, INT_MAX in *. lia. Qed.

Lemma chan_range c : 0 ≤ chan c ≤ 255.
Proof.
  unfold chan. pose proof (Byte.to_N_bounded c). lia.
Qed.

Lemma chan_uchar z : 0 ≤ z ≤ 255 → chan (uchar z) = z.
Proof.
  intros Hz. unfold chan, uchar. rewrite Z.mod_small by lia.
  destruct (Byte.of_N (Z.to_N z)) as [c|] eqn:Hc.
  - apply Byte.to_of_N in Hc. lia.
  - pose proof (Byte.to_of_N_option_map (Z.to_N z)) as Hm.
    rewrite Hc in Hm. simpl in Hm.
    destruct (N.leb_spec (Z.to_N z) 255); [discriminate | lia].
Qed.

Lemma uchar_chan c : uchar (chan c) = c.
Proof.
  unfold uchar, chan. pose proof (Byte.to_N_bounded c).
  rewrite Z.mod_small by lia. rewrite N2Z.id, Byte.of_to_N. done.
Qed.

Lemma at_of_nat {A} (v : list A) (i : nat) : at_ v (Z.of_nat i) = v !! i.
Proof.
  unfold at_. destruct (Z.ltb_spec (Z.of_nat i) 0); [lia |].
  by rewrite Nat2Z.id.
Qed.

Lemma at_in_range {A} (v : list A) (i : Z) :
  0 ≤ i < Z.of_nat (length v) → ∃ x, at_ v i = Some x.
Proof.
  intros Hi. unfold at_. destruct (Z.ltb_spec i 0); [lia |].
  apply lookup_lt_is_Some. lia.
Qed.

(** ** The outcome monad and counted loops *)

Lemma bind_Ret {A B} (a : A) (f : A → outcome B) : (Ret a ≫= f) = f a.
Proof. done. Qed.

Lemma bind_Undefined {A B} (u : fault) (f : A → outcome B) :
  (Undefined u ≫= f) = Undefined u.
Proof. done. Qed.

Lemma bind_Throw {A B} (e : exn) (f : A → outcome B) :
  (Throw e ≫= f) = Throw e.
Proof. done. Qed.

(** Invariant rule: [Inv done s] holds of the state [s] reached after the
    iterations [done]; every iteration must complete and keep it. *)
Lemma for_each_invariant {S} (Inv : list Z → S → Prop)
    (idx : list Z) (body : Z → S → outcome S) (s0 : S) :
  Inv [] s0 →
  (∀ pre i post s, idx = pre ++ i :: post → Inv pre s →
     ∃ s', body i s = Ret s' ∧ Inv (pre ++ [i]) s') →
  ∃ s', for_each idx body s0 = Ret s' ∧ Inv idx s'.
Proof.
  intros H0 Hstep.
  assert (∀ post pre s, idx = pre ++ post → Inv pre s →
            ∃ s', for_each post body s = Ret s' ∧ Inv idx s') as Hgen.
  { induction post as [|i post IH]; intros pre s Hidx Hpre.
    - exists s. rewrite app_nil_r in Hidx. subst pre. done.
    - destruct (Hstep pre i post s Hidx Hpre) as (s' & Hbody & Hs').
      simpl. rewrite Hbody. simpl.
      apply (IH (pre ++ [i])); [by rewrite <- app_assoc | done]. }
  by apply (Hgen idx []).
Qed.

(** A loop whose first iteration leaves defined behaviour does so as a
    whole. *)
Lemma for_range_first_Undefined {S} (lo hi : Z) (body : Z → S → outcome S) (s : S) u :
  lo < hi → body lo s = Undefined u → for_range lo hi body s = Undefined u.
Proof.
  intros Hlt Hbody. unfold for_range.
  rewrite (seqZ_cons lo (hi - lo)) by lia. simpl. by rewrite Hbody.
Qed.

Lemma elem_of_range (lo hi i : Z) : i ∈ seqZ lo (hi - lo) ↔ lo ≤ i < hi.
Proof. rewrite elem_of_seqZ. lia. Qed.

(** ** Reading and writing pixels *)

Lemma shape_length {A} (image : list (list A)) : length (shape image) = length image.
Proof. apply length_fmap. Qed.

Lemma shape_lookup {A} (image : list (list A)) (i : nat) :
  shape image !! i = length <$> image !! i.
Proof. apply list_lookup_fmap. Qed.

Lemma rectangular_row (image : Image) (i : nat) (row : list RGB) :
  rectangular image → image !! i = Some row → length row = width image.
Proof. intros Hrect Hrow. by apply (Forall_lookup_1 _ _ _ _ Hrect Hrow). Qed.

Lemma rectangular_shape (image : Image) :
  rectangular image ↔ shape image = replicate (height image) (width image).
Proof.
  unfold rectangular, shape, height. generalize (width image) as w. intros w.
  induction image as [|row image IH]; simpl.
  - split; [done | constructor].
  - rewrite Forall_cons, IH. unfold fmap. split.
    + intros [-> ->]. done.
    + intros [= -> ->]. done.
Qed.

(** Whether a read is defined, and how it fails otherwise, depends on the
    shape alone. *)
Lemma get_pixel_defined {A} (image : list (list A)) (i j : Z) :
  (∃ p, get_pixel image i j = Ret p) ↔
  ∃ n, shape image !! Z.to_nat i = Some n ∧ 0 ≤ i ∧ 0 ≤ j < Z.of_nat n.
Proof.
  unfold get_pixel, at_. rewrite shape_lookup.
  destruct (Z.ltb_spec i 0) as [Hi|Hi].
  { split; [intros [p [=]] | intros (n & _ & ? & _); lia]. }
  destruct (image !! Z.to_nat i) as [row|] eqn:Hrow; simpl.
  2: { split; [intros [p [=]] | intros (n & [=] & _)]. }
  destruct (Z.ltb_spec j 0) as [Hj|Hj].
  { split; [intros [p [=]] | intros (n & _ & _ & ?); lia]. }
  destruct (row !! Z.to_nat j) as [p|] eqn:Hp.
  - apply lookup_lt_Some in Hp. split; [| by eauto].
    intros _. exists (length row). split; [done | lia].
  - apply lookup_ge_None in Hp. split; [intros [p [=]] |].
    intros (n & [= <-] & _ & ?). lia.
Qed.

Lemma get_pixel_in_range (image : Image) (i j : Z) :
  rectangular image →
  0 ≤ i < Z.of_nat (height image) → 0 ≤ j < Z.of_nat (width image) →
  ∃ p, get_pixel image i j = Ret p.
Proof.
  intros Hrect Hi Hj. apply get_pixel_defined.
  apply rectangular_shape in Hrect. rewrite Hrect.
  exists (width image). split; [| lia].
  apply lookup_replicate_2. lia.
Qed.

Lemma get_pixel_same_shape {A} (image image' : list (list A)) (i j : Z) (p : A) :
  shape image' = shape image → get_pixel image i j = Ret p →
  ∃ q, get_pixel image' i j = Ret q.
Proof.
  intros Hshape Hp. apply get_pixel_defined. rewrite Hshape.
  apply get_pixel_defined. by exists p.
Qed.

(** An assignment to a pixel inside the buffer changes that pixel and
    nothing else, the shape included. *)
Lemma set_pixel_spec {A} (image : list (list A)) (i j : Z) (p q : A) :
  get_pixel image i j = Ret q →
  ∃ image', set_pixel image i j p = Ret image' ∧
    shape image' = shape image ∧
    ∀ i' j', get_pixel image' i' j' =
             if decide (i' = i ∧ j' = j) then Ret p else get_pixel image i' j'.
Proof.
  intros Hq. unfold set_pixel. rewrite Hq. simpl.
  eexists. split; [done |].
  unfold get_pixel, at_ in Hq.
  destruct (Z.ltb_spec i 0) as [Hi|Hi]; [done |].
  destruct (image !! Z.to_nat i) as [row|] eqn:Hrow; [| done].
  destruct (Z.ltb_spec j 0) as [Hj|Hj]; [done |].
  destruct (row !! Z.to_nat j) as [q'|] eqn:Hq'; [| done].
  split.
  - unfold shape. rewrite (list_fmap_alter length _ id).
    + apply list_eq. intros k. rewrite list_lookup_alter.
      destruct (decide (Z.to_nat i = k)) as [<-|]; [| done].
      apply option_fmap_id.
    + apply Forall_forall. intros row' _. simpl. by rewrite length_insert.
  - intros i' j'. unfold get_pixel, at_.
    destruct (Z.ltb_spec i' 0) as [Hi'|Hi'].
    { rewrite decide_False by lia. done. }
    rewrite list_lookup_alter.
    destruct (decide (Z.to_nat i = Z.to_nat i')) as [Hii|Hii].
    + assert (i' = i) as -> by lia. rewrite Hrow. simpl.
      destruct (Z.ltb_spec j' 0) as [Hj'|Hj'].
      { rewrite decide_False by lia. done. }
      destruct (decide (j' = j)) as [->|Hjj].
      * rewrite decide_True by done.
        rewrite list_lookup_insert_eq; [done |].
        by apply lookup_lt_Some in Hq'.
      * rewrite decide_False by tauto.
        rewrite list_lookup_insert_ne by lia. done.
    + rewrite decide_False by (intros [-> _]; done). done.
Qed.

(** ** blur *)

Lemma row0_size_spec (image : Image) :
  (1 ≤ height image)%nat → Z.of_nat (width image) ≤ INT_MAX →
  row0_size image = Ret (Z.of_nat (width image)).
Proof.
  intros Hh Hw. unfold row0_size. destruct image as [|row image]; simpl in *; [lia |].
  by rewrite int_size_id.
Qed.

Lemma channel_at_range sel image cell : 0 ≤ channel_at sel image cell ≤ 255.
Proof.
  unfold channel_at. destruct (get_pixel _ _ _); try lia. apply chan_range.
Qed.

Lemma channel_sum_cons sel image cell cells :
  channel_sum sel image (cell :: cells) =
  channel_at sel image cell + channel_sum sel image cells.
Proof. done. Qed.

Lemma channel_sum_app sel image cells1 cells2 :
  channel_sum sel image (cells1 ++ cells2) =
  channel_sum sel image cells1 + channel_sum sel image cells2.
Proof.
  unfold channel_sum. induction cells1 as [|cell cells1 IH]; simpl; [done |].
  rewrite IH. lia.
Qed.

Lemma channel_sum_range sel image cells :
  0 ≤ channel_sum sel image cells ≤ 255 * Z.of_nat (length cells).
Proof.
  unfold channel_sum. induction cells as [|cell cells IH]; simpl length; simpl foldr.
  - lia.
  - pose proof (channel_at_range sel image cell). lia.
Qed.

(** One row of the box: the innermost loop adds the channels of the cells
    it visits to the running sums. *)
Lemma blur_accumulate_row (temp : Image) (i j x : Z) (ys : list Z) (sums : Z * Z * Z) :
  (∀ y, y ∈ ys → ∃ p, get_pixel temp (i + x) (j + y) = Ret p) →
  for_each ys (blur_accumulate temp i j x) sums =
    Ret (sums.1.1 + channel_sum r temp ((λ y, (i + x, j + y)) <$> ys),
         sums.1.2 + channel_sum g temp ((λ y, (i + x, j + y)) <$> ys),
         sums.2 + channel_sum b temp ((λ y, (i + x, j + y)) <$> ys)).
Proof.
  revert sums. induction ys as [|y ys IH]; intros [[sr sg] sb] Hin.
  - unfold channel_sum. simpl. rewrite !Z.add_0_r. done.
  - destruct (Hin y) as [p Hp]; [apply elem_of_cons; auto |].
    simpl for_each. unfold blur_accumulate at 1. rewrite Hp, !bind_Ret.
    rewrite IH by (intros y' Hy'; apply Hin, elem_of_cons; auto).
    rewrite fmap_cons, !channel_sum_cons. unfold channel_at. cbn [fst snd].
    rewrite Hp. f_equal. f_equal; [f_equal |]; lia.
Qed.

Lemma elem_of_middle {A} (pre post : list A) (x : A) : x ∈ pre ++ x :: post.
Proof. rewrite elem_of_app, elem_of_cons. auto. Qed.

Lemma bind_singleton_fmap {A B} (f : A → B) (l : list A) :
  (y ← l; [f y]) = f <$> l.
Proof. induction l as [|a l IH]; [done |]. by rewrite bind_cons, IH. Qed.

(** The two loops together visit the cells of the box row by row. *)
Lemma blur_accumulate_box (temp : Image) (i j : Z) (xs ys : list Z) (sums : Z * Z * Z) :
  (∀ x y, x ∈ xs → y ∈ ys → ∃ p, get_pixel temp (i + x) (j + y) = Ret p) →
  for_each xs (λ x, for_each ys (blur_accumulate temp i j x)) sums =
    Ret (sums.1.1 + channel_sum r temp (x ← xs; y ← ys; [(i + x, j + y)]),
         sums.1.2 + channel_sum g temp (x ← xs; y ← ys; [(i + x, j + y)]),
         sums.2 + channel_sum b temp (x ← xs; y ← ys; [(i + x, j + y)])).
Proof.
  revert sums. induction xs as [|x xs IH]; intros [[sr sg] sb] Hin.
  - unfold channel_sum. simpl. rewrite !Z.add_0_r. done.
  - simpl for_each.
    rewrite blur_accumulate_row by (intros y Hy; apply Hin; [apply elem_of_cons; auto | done]).
    rewrite bind_Ret, IH by (intros x' y Hx' Hy; apply Hin; [apply elem_of_cons; auto | done]).
    rewrite bind_cons, bind_singleton_fmap, !channel_sum_app. cbn [fst snd].
    f_equal. f_equal; [f_equal |]; lia.
Qed.

Lemma blur_sums_spec (temp : Image) (i j : Z) :
  rectangular temp →
  1 ≤ i < Z.of_nat (height temp) - 1 → 1 ≤ j < Z.of_nat (width temp) - 1 →
  blur_sums temp i j =
    Ret (channel_sum r temp (box i j), channel_sum g temp (box i j),
         channel_sum b temp (box i j)).
Proof.
  intros Hrect Hi Hj. unfold blur_sums, for_range.
  change (seqZ (-1) (2 - -1)) with [-1; 0; 1].
  rewrite blur_accumulate_box; [done |].
  intros x y Hx Hy. apply get_pixel_in_range; [done | |].
  - assert (-1 ≤ x ≤ 1) by (set_unfold; lia). lia.
  - assert (-1 ≤ y ≤ 1) by (set_unfold; lia). lia.
Qed.

(** The loop over the columns of row [i]: started in a state [s] of the
    snapshot's shape, it rewrites the interior cells of that row. *)
Lemma blur_row_spec (temp s : Image) (i : Z) :
  rectangular temp → shape s = shape temp →
  1 ≤ i < Z.of_nat (height temp) - 1 →
  ∃ s', for_range 1 (Z.of_nat (width temp) - 1) (λ j image,
          '(sum_r, sum_g, sum_b) ← blur_sums temp i j;
          set_pixel image i j
            (mkRGB (uchar (sum_r `quot` 9)) (uchar (sum_g `quot` 9))
                   (uchar (sum_b `quot` 9)))) s = Ret s' ∧
    shape s' = shape temp ∧
    ∀ i' j', get_pixel s' i' j' =
      if decide (i' = i ∧ 1 ≤ j' < Z.of_nat (width temp) - 1)
      then Ret (blur_value temp i' j') else get_pixel s i' j'.
Proof.
  intros Hrect Hshape Hi. unfold for_range.
  match goal with |- ∃ x, for_each ?idx ?body s = _ ∧ _ =>
    destruct (for_each_invariant
      (λ pre s', shape s' = shape temp ∧
         ∀ i' j', get_pixel s' i' j' =
           if decide (i' = i ∧ j' ∈ pre)
           then Ret (blur_value temp i' j') else get_pixel s i' j')
      idx body s) as (out & Hrun & Hout & Hpix)
  end.
  - split; [done |]. intros i' j'. rewrite decide_False; [done |].
    intros [_ ?%elem_of_nil]. done.
  - intros pre j post s1 Hidx [Hs1 Hpix].
    assert (j ∈ seqZ 1 (Z.of_nat (width temp) - 1 - 1)) as Hj%elem_of_range.
    { rewrite Hidx. apply elem_of_middle. }
    rewrite blur_sums_spec by done. rewrite bind_Ret.
    destruct (get_pixel_in_range temp i j) as [q0 Hq0]; [done | lia | lia |].
    destruct (get_pixel_same_shape temp s1 i j q0) as [q Hq]; [done | done |].
    destruct (set_pixel_spec s1 i j (blur_value temp i j) q Hq)
      as (s2 & Hset & Hs2 & Hpix2).
    exists s2. split; [done |]. split; [congruence |].
    intros i' j'. rewrite Hpix2, Hpix.
    visited_cases.
  - exists out. split; [done |]. split; [done |].
    intros i' j'. rewrite Hpix.
    repeat case_decide; try done; rewrite elem_of_range in *; tauto.
Qed.

(** What [blur] computes on a rectangular buffer with at least one row. *)
Lemma blur_spec (image : Image) :
  rectangular image → fits_int image → (1 ≤ height image)%nat →
  ∃ image', blur image = Ret image' ∧
    shape image' = shape image ∧
    ∀ i j, get_pixel image' i j =
      if decide (1 ≤ i < Z.of_nat (height image) - 1 ∧
                 1 ≤ j < Z.of_nat (width image) - 1)
      then Ret (blur_value image i j) else get_pixel image i j.
Proof.
  intros Hrect [Hfh Hfw] Hh. unfold blur.
  rewrite row0_size_spec, bind_Ret by done.
  rewrite int_size_id by done. fold (height image). unfold for_range at 1.
  match goal with |- ∃ x, for_each ?idx ?body image = _ ∧ _ =>
    destruct (for_each_invariant
      (λ pre s', shape s' = shape image ∧
         ∀ i j, get_pixel s' i j =
           if decide (i ∈ pre ∧ 1 ≤ j < Z.of_nat (width image) - 1)
           then Ret (blur_value image i j) else get_pixel image i j)
      idx body image) as (out & Hrun & Hout & Hpix)
  end.
  - split; [done |]. intros i j. rewrite decide_False; [done |].
    intros [?%elem_of_nil _]. done.
  - intros pre i post s Hidx [Hs Hpix].
    assert (i ∈ seqZ 1 (Z.of_nat (height image) - 1 - 1)) as Hi%elem_of_range.
    { rewrite Hidx. apply elem_of_middle. }
    destruct (blur_row_spec image s i Hrect Hs Hi) as (s' & Hrun & Hs' & Hpix').
    exists s'. split; [done |]. split; [done |].
    intros i' j'. rewrite Hpix', Hpix.
    visited_cases.
  - exists out. split; [done |]. split; [done |].
    intros i j. rewrite Hpix.
    repeat case_decide; try done; rewrite elem_of_range in *; tauto.
Qed.

(** ** compress *)

Lemma half_of_nat (n : nat) : Z.of_nat n `quot` 2 = Z.of_nat (n / 2)%nat.
Proof. rewrite Z.quot_div_nonneg by lia. by rewrite Nat2Z.inj_div. Qed.

Lemma shape_replicate {A} (rows cols : nat) (p : A) :
  shape (replicate rows (replicate cols p)) = replicate rows cols.
Proof. unfold shape. by rewrite fmap_replicate, length_replicate. Qed.

Lemma get_pixel_shape_replicate {A} (s : list (list A)) (rows cols : nat) (i j : Z) :
  shape s = replicate rows cols →
  0 ≤ i < Z.of_nat rows → 0 ≤ j < Z.of_nat cols →
  ∃ q, get_pixel s i j = Ret q.
Proof.
  intros Hshape Hi Hj. apply get_pixel_defined. rewrite Hshape.
  exists cols. split; [| lia]. apply lookup_replicate_2. lia.
Qed.

(** The loop over the columns of output row [i]. *)
Lemma compress_row_spec (image s : Image) (i : Z) :
  rectangular image →
  shape s = replicate (height image / 2)%nat (width image / 2)%nat →
  0 ≤ i < Z.of_nat (height image / 2)%nat →
  ∃ s', for_range 0 (Z.of_nat (width image / 2)%nat) (λ j compressed,
          p ← get_pixel image (2 * i + 1) (2 * j + 1);
          set_pixel compressed i j p) s = Ret s' ∧
    shape s' = shape s ∧
    ∀ i' j', get_pixel s' i' j' =
      if decide (i' = i ∧ 0 ≤ j' < Z.of_nat (width image / 2)%nat)
      then get_pixel image (2 * i' + 1) (2 * j' + 1) else get_pixel s i' j'.
Proof.
  intros Hrect Hshape Hi. unfold for_range.
  pose proof (Nat.Div0.mul_div_le (height image) 2) as Hh2.
  pose proof (Nat.Div0.mul_div_le (width image) 2) as Hw2.
  match goal with |- ∃ x, for_each ?idx ?body s = _ ∧ _ =>
    destruct (for_each_invariant
      (λ pre s', shape s' = shape s ∧
         ∀ i' j', get_pixel s' i' j' =
           if decide (i' = i ∧ j' ∈ pre)
           then get_pixel image (2 * i' + 1) (2 * j' + 1) else get_pixel s i' j')
      idx body s) as (out & Hrun & Hout & Hpix)
  end.
  - split; [done |]. intros i' j'. rewrite decide_False; [done |].
    intros [_ ?%elem_of_nil]. done.
  - intros pre j post s1 Hidx [Hs1 Hpix].
    assert (j ∈ seqZ 0 (Z.of_nat (width image / 2)%nat - 0)) as Hj%elem_of_range.
    { rewrite Hidx. apply elem_of_middle. }
    destruct (get_pixel_in_range image (2 * i + 1) (2 * j + 1)) as [p Hp];
      [done | lia | lia |].
    rewrite Hp, bind_Ret.
    destruct (get_pixel_shape_replicate s1 (height image / 2)%nat (width image / 2)%nat i j)
      as [q Hq]; [congruence | lia | lia |].
    destruct (set_pixel_spec s1 i j p q Hq) as (s2 & Hset & Hs2 & Hpix2).
    exists s2. split; [done |]. split; [congruence |].
    intros i' j'. rewrite Hpix2, Hpix. rewrite <- Hp.
    visited_cases.
  - exists out. split; [done |]. split; [done |].
    intros i' j'. rewrite Hpix.
    repeat case_decide; try done; rewrite elem_of_range in *; exfalso; lia.
Qed.

(** What [compress] computes on a rectangular buffer with at least one
    row. *)
Lemma compress_spec (image : Image) :
  rectangular image → fits_int image → (1 ≤ height image)%nat →
  ∃ out, compress image = Ret out ∧
    shape out = replicate (height image / 2)%nat (width image / 2)%nat ∧
    ∀ i j, 0 ≤ i < Z.of_nat (height image / 2)%nat →
           0 ≤ j < Z.of_nat (width image / 2)%nat →
      get_pixel out i j = get_pixel image (2 * i + 1) (2 * j + 1).
Proof.
  intros Hrect [Hfh Hfw] Hh. unfold compress.
  rewrite row0_size_spec, bind_Ret by done.
  rewrite int_size_id by done. fold (height image).
  rewrite !half_of_nat. unfold make_vector.
  destruct (Z.ltb_spec (Z.of_nat (width image / 2)%nat) 0); [lia |].
  destruct (Z.ltb_spec (Z.of_nat (height image / 2)%nat) 0); [lia |].
  rewrite !bind_Ret, !Nat2Z.id. unfold for_range at 1.
  match goal with |- ∃ x, for_each ?idx ?body ?s0 = _ ∧ _ =>
    destruct (for_each_invariant
      (λ pre s', shape s' = replicate (height image / 2)%nat (width image / 2)%nat ∧
         ∀ i j, get_pixel s' i j =
           if decide (i ∈ pre ∧ 0 ≤ j < Z.of_nat (width image / 2)%nat)
           then get_pixel image (2 * i + 1) (2 * j + 1) else get_pixel s0 i j)
      idx body s0) as (out & Hrun & Hout & Hpix)
  end.
  - split; [apply shape_replicate |]. intros i j. rewrite decide_False; [done |].
    intros [?%elem_of_nil _]. done.
  - intros pre i post s Hidx [Hs Hpix].
    assert (i ∈ seqZ 0 (Z.of_nat (height image / 2)%nat - 0)) as Hi%elem_of_range.
    { rewrite Hidx. apply elem_of_middle. }
    destruct (compress_row_spec image s i Hrect Hs Hi) as (s' & Hrun & Hs' & Hpix').
    exists s'. split; [done |]. split; [congruence |].
    intros i' j'. rewrite Hpix', Hpix.
    visited_cases.
  - exists out. split; [done |]. split; [done |].
    intros i j Hi Hj. rewrite Hpix, decide_True; [done |].
    rewrite elem_of_range. lia.
Qed.

(** ** mirror *)

(** The printing loops complete when every pixel they read exists. *)
Lemma print_loop_ok (image : Image) (idx : list Z) :
  (∀ j, j ∈ idx → ∃ p, get_pixel image 0 j = Ret p) →
  for_each idx (λ j u, _ ← get_pixel image 0 j; Ret u) () = Ret ().
Proof.
  induction idx as [|j idx IH]; intros Hin; [done |].
  destruct (Hin j) as [p Hp]; [apply elem_of_cons; auto |].
  simpl. rewrite Hp, bind_Ret. apply IH.
  intros j' Hj'. apply Hin, elem_of_cons. auto.
Qed.

Lemma get_pixel_row0 (image : Image) (j : Z) :
  (1 ≤ height image)%nat → 0 ≤ j < Z.of_nat (width image) →
  ∃ p, get_pixel image 0 j = Ret p.
Proof.
  intros Hh Hj. apply get_pixel_defined.
  destruct image as [|row image]; simpl in *; [lia |].
  exists (length row). split; [done | lia].
Qed.

Lemma mirror_print_wide (image : Image) :
  (1 ≤ height image)%nat → 5 ≤ Z.of_nat (width image) →
  mirror_print image (Z.of_nat (width image)) = Ret ().
Proof.
  intros Hh Hw. unfold mirror_print, for_range.
  rewrite (print_loop_ok image (seqZ 0 _)), bind_Ret.
  - apply print_loop_ok. intros j Hj%elem_of_range.
    apply get_pixel_row0; [done | lia].
  - intros j Hj%elem_of_range. apply get_pixel_row0; [done | lia].
Qed.

(** With fewer than five columns the second printing loop starts at the
    negative column [width - 5]. *)
Lemma mirror_print_narrow (image : Image) :
  (1 ≤ height image)%nat → Z.of_nat (width image) < 5 →
  mirror_print image (Z.of_nat (width image)) =
    Undefined (PixelIndex 0 (Z.of_nat (width image) - 5)).
Proof.
  intros Hh Hw. unfold mirror_print. unfold for_range at 2.
  rewrite (print_loop_ok image (seqZ 0 _)), bind_Ret.
  - apply for_range_first_Undefined; [lia |].
    destruct image as [|row image]; simpl in *; [lia |].
    unfold get_pixel, at_. simpl.
    destruct (Z.ltb_spec (Z.of_nat (length row) - 5) 0); [done | lia].
  - intros j Hj%elem_of_range. apply get_pixel_row0; [done | lia].
Qed.

(** The loop over the rows reverses each of them. *)
Lemma mirror_rows_spec (image : Image) :
  for_range 0 (Z.of_nat (height image)) (λ i image, reverse_row image i) image =
    Ret (reverse <$> image).
Proof.
  unfold for_range.
  match goal with |- for_each ?idx ?body image = _ =>
    destruct (for_each_invariant
      (λ pre s, ∀ k : nat, s !! k =
         if decide (Z.of_nat k ∈ pre) then reverse <$> image !! k else image !! k)
      idx body image) as (out & Hrun & Hout)
  end.
  - intros k. rewrite decide_False; [done |]. apply not_elem_of_nil.
  - intros pre i post s Hidx Hs.
    assert (i ∈ seqZ 0 (Z.of_nat (height image) - 0)) as Hi%elem_of_range.
    { rewrite Hidx. apply elem_of_middle. }
    assert (i ∉ pre) as Hfresh.
    { pose proof (NoDup_seqZ 0 (Z.of_nat (height image) - 0)) as Hnd.
      rewrite Hidx in Hnd. apply NoDup_app in Hnd as (_ & Hnd & _).
      intros Hin. apply (Hnd i Hin), elem_of_cons. auto. }
    unfold reverse_row.
    destruct (at_in_range s i) as [row Hrow].
    { assert (is_Some (s !! Z.to_nat i)) as Hsome%lookup_lt_is_Some; [| lia].
      rewrite Hs, decide_False by (by rewrite Z2Nat.id by lia).
      apply lookup_lt_is_Some. unfold height in Hi. lia. }
    rewrite Hrow. eexists. split; [done |].
    intros k. rewrite list_lookup_alter.
    destruct (decide (Z.to_nat i = k)) as [<-|Hne].
    + rewrite Z2Nat.id by lia.
      rewrite decide_True by (apply elem_of_app; right; apply list_elem_of_singleton; done).
      rewrite Hs, decide_False by (by rewrite Z2Nat.id by lia). done.
    + rewrite Hs. repeat case_decide; try done;
        rewrite ?elem_of_app, ?list_elem_of_singleton in *; exfalso.
      * tauto.
      * destruct_or?; [tauto | lia].
  - rewrite Hrun. f_equal. apply list_eq. intros k.
    rewrite Hout, list_lookup_fmap.
    case_decide as Hk; [done |].
    rewrite elem_of_range in Hk.
    rewrite (lookup_ge_None_2 image k); [done |]. unfold height in Hk. lia.
Qed.

Lemma height_fmap (f : list RGB → list RGB) (image : Image) :
  height (f <$> image) = height image.
Proof. apply length_fmap. Qed.

Lemma width_reverse (image : Image) : width (reverse <$> image) = width image.
Proof. destruct image as [|row image]; [done |]. simpl. apply length_reverse. Qed.

Lemma shape_reverse (image : Image) : shape (reverse <$> image) = shape image.
Proof.
  unfold shape. rewrite <- list_fmap_compose. apply list_fmap_ext.
  intros _ row _. simpl. apply length_reverse.
Qed.

(** What [mirror] computes on a buffer with at least one row and at least
    five columns. *)
Lemma mirror_wide_spec (image : Image) :
  fits_int image → (1 ≤ height image)%nat → (5 ≤ width image)%nat →
  mirror image = Ret (reverse <$> image).
Proof.
  intros [Hfh Hfw] Hh Hw. unfold mirror.
  rewrite row0_size_spec, bind_Ret by done.
  rewrite mirror_print_wide, bind_Ret by (done || lia).
  rewrite int_size_id by done. fold (height image).
  rewrite mirror_rows_spec, bind_Ret.
  rewrite <- (width_reverse image).
  rewrite mirror_print_wide; [done | by rewrite height_fmap |].
  rewrite width_reverse. lia.
Qed.

Lemma mirror_narrow_spec (image : Image) :
  fits_int image → (1 ≤ height image)%nat → (width image < 5)%nat →
  mirror image = Undefined (PixelIndex 0 (Z.of_nat (width image) - 5)).
Proof.
  intros [Hfh Hfw] Hh Hw. unfold mirror.
  rewrite row0_size_spec, bind_Ret by done.
  rewrite mirror_print_narrow by (done || lia). done.
Qed.

(** Pixel (i, j) of a row-reversed buffer is the former pixel
    (i, width - 1 - j). *)
Lemma get_pixel_reverse (image : Image) (i j : Z) :
  rectangular image →
  0 ≤ i < Z.of_nat (height image) → 0 ≤ j < Z.of_nat (width image) →
  get_pixel (reverse <$> image) i j =
  get_pixel image i (Z.of_nat (width image) - 1 - j).
Proof.
  intros Hrect Hi Hj. unfold get_pixel, at_.
  destruct (Z.ltb_spec i 0); [lia |].
  rewrite list_lookup_fmap.
  destruct (image !! Z.to_nat i) as [row|] eqn:Hrow; [| done]. simpl.
  pose proof (rectangular_row image _ row Hrect Hrow) as Hlen.
  destruct (Z.ltb_spec j 0); [lia |].
  destruct (Z.ltb_spec (Z.of_nat (width image) - 1 - j) 0); [lia |].
  rewrite reverse_lookup by lia.
  replace (length row - S (Z.to_nat j))%nat
    with (Z.to_nat (Z.of_nat (width image) - 1 - j)) by lia.
  destruct (lookup_lt_is_Some_2 row (Z.to_nat (Z.of_nat (width image) - 1 - j)))
    as [p ->]; [lia | done].
Qed.

(** ** Shape preservation *)

Lemma height_shape (image : Image) : height image = length (shape image).
Proof. unfold height. by rewrite shape_length. Qed.

Lemma width_shape (image : Image) : width image = default 0%nat (head (shape image)).
Proof. by destruct image. Qed.

Lemma rectangular_Forall_shape (image : Image) :
  rectangular image ↔ Forall (λ n, n = width image) (shape image).
Proof. unfold rectangular, shape. by rewrite Forall_fmap. Qed.

(** Two buffers of the same shape have the same dimensions, and one is
    rectangular when the other is. *)
Lemma same_shape (image out : Image) :
  shape out = shape image →
  (rectangular image → rectangular out) ∧
  height out = height image ∧ width out = width image.
Proof.
  intros Hshape. rewrite !rectangular_Forall_shape, !height_shape, !width_shape.
  by rewrite Hshape.
Qed.

Lemma shape_for_pixels (f : RGB → RGB) (image : Image) :
  shape (for_pixels f image) = shape image.
Proof.
  unfold shape, for_pixels. rewrite <- list_fmap_compose. apply list_fmap_ext.
  intros _ row _. simpl. apply length_fmap.
Qed.

Lemma rectangular_replicate (rows cols : nat) (out : Image) :
  shape out = replicate rows cols → rectangular out.
Proof.
  intros Hshape. apply rectangular_Forall_shape. rewrite width_shape, Hshape.
  destruct rows as [|rows]; simpl; [constructor |].
  constructor; [done |]. apply Forall_forall.
  intros n Hn%elem_of_replicate. tauto.
Qed.

(** A property kept by every completed iteration is kept by the loop. *)
Lemma for_each_preserves {S} (P : S → Prop) (idx : list Z)
    (body : Z → S → outcome S) (s out : S) :
  (∀ i s s', P s → body i s = Ret s' → P s') →
  P s → for_each idx body s = Ret out → P out.
Proof.
  intros Hbody. revert s. induction idx as [|i idx IH]; intros s Hs Hrun.
  - simpl in Hrun. by injection Hrun as <-.
  - simpl in Hrun. destruct (body i s) as [s'| |] eqn:Hi; [| done | done].
    apply (IH s'); [by eapply Hbody | done].
Qed.

Lemma set_pixel_shape {A} (image out : list (list A)) (i j : Z) (p : A) :
  set_pixel image i j p = Ret out → shape out = shape image.
Proof.
  intros Hset. destruct (get_pixel image i j) as [q| |] eqn:Hq.
  - destruct (set_pixel_spec image i j p q Hq) as (out' & Hset' & Hshape & _).
    congruence.
  - unfold set_pixel in Hset. by rewrite Hq in Hset.
  - unfold set_pixel in Hset. by rewrite Hq in Hset.
Qed.

Lemma blur_shape (image out : Image) : blur image = Ret out → shape out = shape image.
Proof.
  unfold blur. destruct (row0_size image) as [w| |]; [| done | done].
  rewrite bind_Ret. unfold for_range at 1.
  apply (for_each_preserves (λ s, shape s = shape image)); [| done].
  intros i s s' Hs. unfold for_range.
  apply (for_each_preserves (λ s, shape s = shape image)); [| done].
  intros j s1 s2 Hs1.
  destruct (blur_sums image i j) as [[[sr sg] sb]| |]; [| done | done].
  rewrite bind_Ret. intros Hset%set_pixel_shape. congruence.
Qed.

Lemma reverse_row_shape (image out : Image) (i : Z) :
  reverse_row image i = Ret out → shape out = shape image.
Proof.
  unfold reverse_row. destruct (at_ image i); [| done]. intros [= <-].
  unfold shape. rewrite (list_fmap_alter length _ id).
  - apply list_eq. intros k. rewrite list_lookup_alter.
    destruct (decide (Z.to_nat i = k)) as [<-|]; [| done].
    apply option_fmap_id.
  - apply Forall_forall. intros row _. apply length_reverse.
Qed.

Lemma mirror_shape (image out : Image) : mirror image = Ret out → shape out = shape image.
Proof.
  unfold mirror. destruct (row0_size image) as [w| |]; [| done | done].
  rewrite bind_Ret.
  destruct (mirror_print image w) as [[]| |]; [| done | done].
  rewrite bind_Ret.
  destruct (for_range 0 (int_size image) _ image) as [s| |] eqn:Hrows; [| done | done].
  rewrite bind_Ret.
  destruct (mirror_print s w) as [[]| |]; [| done | done].
  rewrite bind_Ret. intros [= <-]. revert Hrows. unfold for_range.
  apply (for_each_preserves (λ s, shape s = shape image)); [| done].
  intros i s1 s2 Hs1 Hrev%reverse_row_shape. congruence.
Qed.

Lemma compress_shape (image out : Image) :
  compress image = Ret out → ∃ rows cols, shape out = replicate rows cols.
Proof.
  unfold compress. destruct (row0_size image) as [w| |]; [| done | done].
  rewrite bind_Ret. unfold make_vector.
  destruct (w `quot` 2 <? 0); [done |].
  destruct (int_size image `quot` 2 <? 0); [done |].
  rewrite !bind_Ret. unfold for_range at 1.
  set (rows := Z.to_nat (int_size image `quot` 2)).
  set (cols := Z.to_nat (w `quot` 2)).
  intros Hrun. exists rows, cols. revert Hrun.
  apply (for_each_preserves (λ s, shape s = replicate rows cols));
    [| apply shape_replicate].
  intros i s s' Hs. unfold for_range.
  apply (for_each_preserves (λ s, shape s = replicate rows cols)); [| done].
  intros j s1 s2 Hs1.
  destruct (get_pixel image (2 * i + 1) (2 * j + 1)) as [p| |]; [| done | done].
  rewrite bind_Ret. intros Hset%set_pixel_shape. congruence.
Qed.

(** ** Where a call can fail at the read of row 0 *)

Lemma bind_avoids {A B} (u : fault) (m : outcome A) (f : A → outcome B) :
  m ≠ Undefined u → (∀ a, f a ≠ Undefined u) → m ≫= f ≠ Undefined u.
Proof.
  intros Hm Hf. destruct m as [a| |]; [apply Hf | done |].
  rewrite bind_Undefined. intros [= ->]. by apply Hm.
Qed.

Lemma for_each_avoids {S} (u : fault) (idx : list Z) (body : Z → S → outcome S) (s : S) :
  (∀ i s, body i s ≠ Undefined u) → for_each idx body s ≠ Undefined u.
Proof.
  intros Hbody. revert s. induction idx as [|i idx IH]; intros s; [done |].
  simpl. apply bind_avoids; [apply Hbody | apply IH].
Qed.

Lemma get_pixel_not_RowZero (image : Image) (i j : Z) :
  get_pixel image i j ≠ Undefined RowZero.
Proof.
  unfold get_pixel. destruct (at_ image i) as [row|]; [| done].
  by destruct (at_ row j).
Qed.

Lemma set_pixel_not_RowZero (image : Image) (i j : Z) (p : RGB) :
  set_pixel image i j p ≠ Undefined RowZero.
Proof.
  unfold set_pixel. apply bind_avoids; [apply get_pixel_not_RowZero | done].
Qed.

Lemma row0_size_RowZero (image : Image) :
  row0_size image = Undefined RowZero ↔ height image = 0%nat.
Proof. destruct image as [|row image]; simpl; split; done. Qed.

Lemma bind_fault_inv {A B} (u : fault) (m : outcome A) (f : A → outcome B) :
  (∀ a, f a ≠ Undefined u) → m ≫= f = Undefined u → m = Undefined u.
Proof.
  intros Hf. destruct m as [a| |]; [| done |].
  - intros Hrun. by destruct (Hf a).
  - rewrite bind_Undefined. by intros [= ->].
Qed.

Lemma blur_RowZero (image : Image) :
  blur image = Undefined RowZero ↔ height image = 0%nat.
Proof.
  split; [| by destruct image].
  intros Hrun. apply row0_size_RowZero. revert Hrun. unfold blur.
  apply bind_fault_inv. intros w.
  apply for_each_avoids. intros i s.
  apply for_each_avoids. intros j s1.
  apply bind_avoids.
  - apply for_each_avoids. intros x s2.
    apply for_each_avoids. intros y [[sr sg] sb].
    apply bind_avoids; [apply get_pixel_not_RowZero | done].
  - intros [[sr sg] sb]. apply set_pixel_not_RowZero.
Qed.

Lemma mirror_print_not_RowZero (image : Image) (w : Z) :
  mirror_print image w ≠ Undefined RowZero.
Proof.
  unfold mirror_print. apply bind_avoids.
  - apply for_each_avoids. intros j u.
    apply bind_avoids; [apply get_pixel_not_RowZero | done].
  - intros _. apply for_each_avoids. intros j u.
    apply bind_avoids; [apply get_pixel_not_RowZero | done].
Qed.

Lemma mirror_RowZero (image : Image) :
  mirror image = Undefined RowZero ↔ height image = 0%nat.
Proof.
  split; [| by destruct image].
  intros Hrun. apply row0_size_RowZero. revert Hrun. unfold mirror.
  apply bind_fault_inv. intros w.
  apply bind_avoids; [apply mirror_print_not_RowZero |]. intros _.
  apply bind_avoids.
  - apply for_each_avoids. intros i s. unfold reverse_row.
    by destruct (at_ s i).
  - intros s. apply bind_avoids; [apply mirror_print_not_RowZero | done].
Qed.

Lemma compress_RowZero (image : Image) :
  compress image = Undefined RowZero ↔ height image = 0%nat.
Proof.
  split; [| by destruct image].
  intros Hrun. apply row0_size_RowZero. revert Hrun. unfold compress.
  apply bind_fault_inv. intros w. unfold make_vector.
  destruct (w `quot` 2 <? 0); [done |].
  destruct (int_size image `quot` 2 <? 0); [done |].
  rewrite !bind_Ret.
  apply for_each_avoids. intros i s.
  apply for_each_avoids. intros j s1.
  apply bind_avoids; [apply get_pixel_not_RowZero |].
  intros p. apply set_pixel_not_RowZero.
Qed.

(** ** Algebraic properties of the pixel maps *)

Lemma for_pixels_compose (f1 f2 : RGB → RGB) (image : Image) :
  for_pixels f1 (for_pixels f2 image) = for_pixels (f1 ∘ f2) image.
Proof.
  unfold for_pixels. rewrite <- list_fmap_compose. apply list_fmap_ext.
  intros _ row _. simpl. by rewrite <- list_fmap_compose.
Qed.

Lemma for_pixels_id (f : RGB → RGB) (image : Image) :
  (∀ p, f p = p) → for_pixels f image = image.
Proof.
  intros Hf. unfold for_pixels. rewrite <- (list_fmap_id image) at 2.
  apply list_fmap_ext. intros _ row _. simpl.
  rewrite <- (list_fmap_id row) at 2. apply list_fmap_ext. intros _ p _. apply Hf.
Qed.

Lemma invert_channel_involutive (c : byte) :
  uchar (255 - chan (uchar (255 - chan c))) = c.
Proof.
  pose proof (chan_range c). rewrite chan_uchar by lia.
  replace (255 - (255 - chan c)) with (chan c) by lia. apply uchar_chan.
Qed.

(** ** Scanning and number conversion *)

Lemma take_while_app {A} (f : A → bool) (l1 l2 : list A) :
  Forall (λ x, f x = true) l1 → stops f l2 → take_while f (l1 ++ l2) = l1.
Proof.
  intros Hl1 Hl2. induction Hl1 as [|x l1 Hx _ IH]; simpl.
  - destruct l2 as [|y l2]; [done |]. simpl in *. by rewrite Hl2.
  - by rewrite Hx, IH.
Qed.

Lemma drop_while_app {A} (f : A → bool) (l1 l2 : list A) :
  Forall (λ x, f x = true) l1 → stops f l2 → drop_while f (l1 ++ l2) = l2.
Proof.
  intros Hl1 Hl2. induction Hl1 as [|x l1 Hx _ IH]; simpl.
  - destruct l2 as [|y l2]; [done |]. simpl in *. by rewrite Hl2.
  - by rewrite Hx, IH.
Qed.

Lemma drop_while_stops {A} (f : A → bool) (l : list A) :
  stops f l → drop_while f l = l.
Proof. apply (drop_while_app f []). constructor. Qed.

Lemma drop_while_length {A} (f : A → bool) (l : list A) :
  (length (drop_while f l) ≤ length l)%nat.
Proof.
  induction l as [|x l IH]; simpl; [done |].
  destruct (f x); simpl; lia.
Qed.

Lemma bytes_of_uint_digits (u : Decimal.uint) :
  Forall (λ c, isdigit c = true) (bytes_of_uint u).
Proof. induction u; simpl; by constructor. Qed.

Lemma decimal_value_acc (u : Decimal.uint) (acc : positive) :
  foldl (λ acc c, 10 * acc + digit_value c) (Z.pos acc) (bytes_of_uint u) =
  Z.pos (Pos.of_uint_acc u acc).
Proof.
  revert acc. induction u as [|u IH|u IH|u IH|u IH|u IH|u IH|u IH|u IH|u IH|u IH];
    intros acc; simpl; [done | ..];
    rewrite <- IH; f_equal; unfold digit_value;
    match goal with |- context [chan ?c] =>
      let v := eval vm_compute in (chan c) in change (chan c) with v
    end; lia.
Qed.

Lemma decimal_value_uint (u : Decimal.uint) :
  decimal_value (bytes_of_uint u) = Z.of_N (Pos.of_uint u).
Proof.
  unfold decimal_value.
  induction u as [|u IH|u IH|u IH|u IH|u IH|u IH|u IH|u IH|u IH|u IH]; simpl;
    [done | exact IH | ..]; apply decimal_value_acc.
Qed.

(** What [os << n] writes for a non-negative [n]: digits, at least one,
    whose value is [n]. *)
Lemma print_int_nonneg (n : Z) :
  0 ≤ n →
  Forall (λ c, isdigit c = true) (print_int n) ∧
  print_int n ≠ [] ∧
  decimal_value (print_int n) = n.
Proof.
  intros Hn. unfold print_int. destruct n as [|p|p]; [| | lia]; simpl.
  - split; [by repeat constructor |]. done.
  - split; [apply bytes_of_uint_digits |]. split.
    + pose proof (Unsigned.to_uint_nonnil p) as Hnil.
      destruct (Pos.to_uint p); [done | ..]; done.
    + by rewrite decimal_value_uint, DecimalPos.Unsigned.of_to.
Qed.

Lemma print_int_length (n : Z) : 0 ≤ n → (1 ≤ length (print_int n))%nat.
Proof.
  intros Hn. destruct (print_int_nonneg n Hn) as (_ & Hnil & _).
  destruct (print_int n); [done | simpl; lia].
Qed.

Lemma isdigit_not_space (c : byte) : isdigit c = true → isspace c = false.
Proof. by destruct c. Qed.

Lemma isdigit_not_sign (c : byte) :
  isdigit c = true → c ≠ "-"%byte ∧ c ≠ "+"%byte ∧ c ≠ "#"%byte ∧ is_newline c = false.
Proof. by destruct c. Qed.

(** Extraction of a number that [print_int] wrote, after any whitespace
    and before something that is not a digit. *)
Lemma extract_int_print (space rest : list byte) (n val : Z) :
  Forall (λ c, isspace c = true) space →
  0 ≤ n ≤ INT_MAX → stops isdigit rest →
  extract_int (mkIstream (space ++ print_int n ++ rest) false false) val =
    (mkIstream rest (is_nil rest) false, n).
Proof.
  intros Hspace Hn Hrest.
  destruct (print_int_nonneg n) as (Hdigits & Hnil & Hval); [lia |].
  unfold extract_int, good. cbn [eofbit failbit buf negb andb].
  destruct (print_int n) as [|c digits] eqn:Hprint; [done |]. clear Hnil.
  pose proof Hdigits as [Hc Hdigits']%Forall_cons.
  rewrite drop_while_app; [| done | simpl; by apply isdigit_not_space].
  change ((c :: digits) ++ rest) with (c :: digits ++ rest).
  assert (take_while isdigit (c :: digits ++ rest) = c :: digits) as Htake
    by (by apply (take_while_app _ (c :: digits))).
  assert (drop_while isdigit (c :: digits ++ rest) = rest) as Hdrop
    by (by apply (drop_while_app _ (c :: digits))).
  unfold INT_MIN, INT_MAX in *.
  destruct c; try discriminate Hc; cbv iota; rewrite Htake, Hdrop, Hval;
    (destruct (Z.ltb_spec n (-2147483648)); [lia |]);
    (destruct (Z.ltb_spec 2147483647 n); [lia |]);
    done.
Qed.

(** ** Reading the header that [writePPM] writes *)

Lemma getline_line (line rest old : list byte) :
  Forall (λ c, is_newline c = false) line →
  getline (mkIstream (line ++ x0a :: rest) false false) old =
    (mkIstream rest false false, line).
Proof.
  intros Hline. unfold getline, good. cbn [eofbit failbit buf negb andb].
  assert (Forall (λ c, negb (is_newline c) = true) line) as Hline'.
  { eapply Forall_impl; [exact Hline |]. by intros c ->. }
  rewrite take_while_app, drop_while_app by done. done.
Qed.

Lemma getline_newline (rest old : list byte) :
  getline (mkIstream (x0a :: rest) false false) old = (mkIstream rest false false, []).
Proof. done. Qed.

Lemma print_int_no_newline (n : Z) :
  0 ≤ n → Forall (λ c, is_newline c = false) (print_int n).
Proof.
  intros Hn. destruct (print_int_nonneg n Hn) as (Hdigits & _).
  eapply Forall_impl; [exact Hdigits |]. intros c Hc.
  by apply isdigit_not_sign in Hc as (_ & _ & _ & ?).
Qed.

Lemma skipped_digit (c : byte) (line : list byte) :
  isdigit c = true → skipped (c :: line) = false.
Proof. intros Hc. by destruct c. Qed.

(** The loop for the size, on an empty line followed by the line
    "width height". *)
Lemma read_size_written (bound : nat) (w h w0 h0 : Z) (old rest : list byte) :
  0 ≤ w ≤ INT_MAX → 0 ≤ h ≤ INT_MAX →
  read_size (S (S bound))
    (mkIstream (x0a :: (print_int w ++ " "%byte :: print_int h) ++ x0a :: rest)
       false false) old w0 h0 =
    Ret (mkIstream rest false false, print_int w ++ " "%byte :: print_int h, w, h).
Proof.
  intros Hw Hh.
  destruct (print_int_nonneg w) as (Hwd & Hwnil & _); [lia |].
  destruct (print_int_nonneg h) as (Hhd & _ & _); [lia |].
  cbn [read_size].
  rewrite getline_newline. cbn [failbit skipped is_nil orb].
  rewrite getline_line.
  2: { apply Forall_app. split; [by apply print_int_no_newline; lia |].
       constructor; [done |]. apply print_int_no_newline. lia. }
  cbn [failbit].
  assert (skipped (print_int w ++ " "%byte :: print_int h) = false) as ->.
  { destruct (print_int w) as [|c ds]; [done |].
    apply Forall_cons in Hwd as [Hc _]. by apply skipped_digit. }
  rewrite (extract_int_print [] (" "%byte :: print_int h) w) by (done || constructor).
  rewrite <- (app_nil_r (print_int h)).
  rewrite (extract_int_print [" "%byte] [] h) by (done || by repeat constructor).
  done.
Qed.

(** The loop for the maximum value, on the line "255". *)
Lemma read_max_val_written (bound : nat) (m0 : Z) (old rest : list byte) :
  read_max_val (S bound)
    (mkIstream ("2"%byte :: "5"%byte :: "5"%byte :: x0a :: rest) false false) old m0 =
    Ret (mkIstream rest false false, 255).
Proof. done. Qed.

Lemma read_header_written (w h : Z) (data : list byte) :
  0 ≤ w ≤ INT_MAX → 0 ≤ h ≤ INT_MAX →
  read_header (header w h ++ data) = Ret (mkIstream data false false, w, h).
Proof.
  intros Hw Hh. unfold read_header, header, P6.
  rewrite <- !app_assoc. cbn [app].
  change (extract_word _ []) with
    (mkIstream (x0a :: print_int w ++ " "%byte :: print_int h ++
                x0a :: "2"%byte :: "5"%byte :: "5"%byte :: x0a :: data)
       false false, ["P"%byte; "6"%byte]).
  cbn [buf length].
  rewrite bool_decide_eq_true_2 by done. cbn [negb].
  replace (print_int w ++ " "%byte :: print_int h ++ x0a ::
             "2"%byte :: "5"%byte :: "5"%byte :: x0a :: data)
    with ((print_int w ++ " "%byte :: print_int h) ++ x0a ::
             "2"%byte :: "5"%byte :: "5"%byte :: x0a :: data)
    by (by rewrite <- app_assoc).
  rewrite read_size_written, bind_Ret by done.
  cbn [buf length]. rewrite read_max_val_written, bind_Ret. done.
Qed.

(** ** Reading the pixel data *)

Lemma bytes_of_row_length (row : list RGB) :
  length (bytes_of_row row) = (3 * length row)%nat.
Proof.
  unfold bytes_of_row. induction row as [|p row IH]; [done |].
  rewrite bind_cons, length_app, IH. simpl. lia.
Qed.

Lemma pixels_of_bytes_of_row (row : list RGB) :
  pixels_of_bytes (bytes_of_row row) = row.
Proof.
  unfold bytes_of_row. induction row as [|[cr cg cb] row IH]; [done |].
  rewrite bind_cons. simpl. by rewrite IH.
Qed.

Lemma bytes_of_image_cons (row : list RGB) (image : Image) :
  bytes_of_image (row :: image) = bytes_of_row row ++ bytes_of_image image.
Proof. done. Qed.

Lemma bytes_of_image_length (image : Image) (w : nat) :
  Forall (λ row : list RGB, length row = w) image →
  length (bytes_of_image image) = (3 * w * length image)%nat.
Proof.
  induction 1 as [|row image Hrow _ IH]; [simpl; lia |].
  rewrite bytes_of_image_cons, length_app, bytes_of_row_length, IH, Hrow.
  simpl. lia.
Qed.

Lemma mul_int_ok (x y : Z) :
  INT_MIN ≤ x * y ≤ INT_MAX → mul_int x y = Ret (x * y).
Proof.
  intros Hxy. unfold mul_int, in_int.
  destruct (Z.leb_spec INT_MIN (x * y)); [| lia].
  destruct (Z.leb_spec (x * y) INT_MAX); [done | lia].
Qed.

Lemma add_int_ok (x y : Z) :
  INT_MIN ≤ x + y ≤ INT_MAX → add_int x y = Ret (x + y).
Proof.
  intros Hxy. unfold add_int, in_int.
  destruct (Z.leb_spec INT_MIN (x + y)); [| lia].
  destruct (Z.leb_spec (x + y) INT_MAX); [done | lia].
Qed.

(** A [read] of exactly the bytes at the front of a good stream. *)
Lemma read_front (got rest : list byte) (n : Z) :
  Z.of_nat (length got) = n →
  read (mkIstream (got ++ rest) false false) n = (mkIstream rest false false, got).
Proof.
  intros Hn. unfold read, good. cbn [eofbit failbit buf negb andb].
  replace (Z.to_nat n) with (length got) by lia.
  rewrite take_app_length, drop_app_length.
  destruct (Z.ltb_spec (Z.of_nat (length got)) n); [lia | done].
Qed.

(** One full row read into row [i] of the buffer. *)
Lemma read_row_full (w : nat) (done pad : Image) (row old : list RGB) (rest : list byte) :
  length row = w → length old = w → 3 * Z.of_nat w ≤ INT_MAX →
  read_row (Z.of_nat w) (Z.of_nat (length done))
    (mkIstream (bytes_of_row row ++ rest) false false, done ++ old :: pad) =
    Ret (mkIstream rest false false, done ++ row :: pad).
Proof.
  intros Hrow Hold Hw. unfold read_row.
  rewrite mul_int_ok, bind_Ret by (unfold INT_MIN, INT_MAX in *; lia).
  rewrite at_of_nat, list_lookup_middle by done.
  rewrite read_front by (rewrite bytes_of_row_length; lia).
  rewrite bytes_of_row_length, Hrow.
  destruct (Z.eqb_spec (Z.of_nat (3 * w)) (Z.of_nat w * 3)); [| lia].
  cbn [negb]. rewrite Nat2Z.id.
  rewrite insert_app_r_alt, Nat.sub_diag by done. cbn [insert list_insert].
  unfold overwrite_row.
  rewrite drop_ge by (rewrite !bytes_of_row_length; lia).
  by rewrite app_nil_r, pixels_of_bytes_of_row.
Qed.

(** The loop over the rows, when the stream holds the rows [todo] of the
    right width: they replace the rows [pad] allocated for them. *)
Lemma read_rows_full (w : nat) (todo : Image) :
  3 * Z.of_nat w ≤ INT_MAX →
  Forall (λ row : list RGB, length row = w) todo →
  ∀ (done pad : Image) (rest : list byte),
    length pad = length todo →
    Forall (λ row : list RGB, length row = w) pad →
    for_each (seqZ (Z.of_nat (length done)) (Z.of_nat (length todo)))
      (read_row (Z.of_nat w))
      (mkIstream (bytes_of_image todo ++ rest) false false, done ++ pad) =
      Ret (mkIstream rest false false, done ++ todo).
Proof.
  intros Hw. induction 1 as [|row todo Hrow _ IH]; intros done pad rest Hlen Hpad.
  - destruct pad; [done | discriminate].
  - destruct pad as [|old pad]; [discriminate |].
    apply Forall_cons in Hpad as [Hold Hpad]. injection Hlen as Hlen.
    rewrite seqZ_cons by (simpl; lia). cbn [for_each].
    rewrite bytes_of_image_cons, <- app_assoc.
    rewrite read_row_full, bind_Ret by done.
    replace (done ++ row :: pad) with ((done ++ [row]) ++ pad)
      by (by rewrite <- app_assoc).
    replace (done ++ row :: todo) with ((done ++ [row]) ++ todo)
      by (by rewrite <- app_assoc).
    replace (Z.succ (Z.of_nat (length done)))
      with (Z.of_nat (length (done ++ [row])))
      by (rewrite length_app; simpl; lia).
    replace (Z.pred (Z.of_nat (length (row :: todo))))
      with (Z.of_nat (length todo)) by (simpl; lia).
    by apply IH.
Qed.

(** One iteration on any stream: it throws when the stream is not good or
    holds fewer than [3 * width] bytes, and otherwise consumes that many. *)
Lemma read_row_step (w : Z) (i : nat) (file : istream) (image : Image) :
  0 < w → w * 3 ≤ INT_MAX → (i < length image)%nat →
  (read_row w (Z.of_nat i) (file, image) = Throw (PixelDataError (Z.of_nat i)) ∧
     (good file = false ∨ Z.of_nat (length (buf file)) < w * 3)) ∨
  (∃ image', length image' = length image ∧
     read_row w (Z.of_nat i) (file, image) =
       Ret (mkIstream (drop (Z.to_nat (w * 3)) (buf file)) false false, image') ∧
     good file = true ∧ w * 3 ≤ Z.of_nat (length (buf file))).
Proof.
  intros Hw Hw3 Hi. unfold read_row.
  rewrite mul_int_ok, bind_Ret by (unfold INT_MIN, INT_MAX in *; lia).
  rewrite at_of_nat.
  destruct (lookup_lt_is_Some_2 image i) as [old Hold]; [lia |]. rewrite Hold.
  unfold read. destruct (good file) eqn:Hgood; cbn [negb].
  2: { left. split; [| by left].
       destruct (Z.eqb_spec (Z.of_nat (length (@nil byte))) (w * 3)) as [He|He];
         [simpl in He; lia | done]. }
  destruct (Z.ltb_spec (Z.of_nat (length (take (Z.to_nat (w * 3)) (buf file)))) (w * 3))
    as [Hlt|Hge].
  - left.
    destruct (Z.eqb_spec (Z.of_nat (length (take (Z.to_nat (w * 3)) (buf file)))) (w * 3));
      [lia |].
    split; [done |]. right. rewrite length_take in Hlt. lia.
  - right. rewrite length_take in Hge.
    destruct (Z.eqb_spec (Z.of_nat (length (take (Z.to_nat (w * 3)) (buf file)))) (w * 3))
      as [_|Hne]; [| rewrite length_take in Hne; lia].
    cbn [negb]. eexists. split; [| split; [done |]].
    + by rewrite length_insert.
    + split; [done | lia].
Qed.

(** The loop over the rows, when the stream is not good or holds fewer
    bytes than the rows still to be read need: it throws at one of them. *)
Lemma read_rows_short (w : Z) (n : nat) :
  0 < w → w * 3 ≤ INT_MAX →
  ∀ (i0 : nat) (file : istream) (image : Image),
    length image = (i0 + n)%nat →
    (good file = false ∧ (0 < n)%nat) ∨
      Z.of_nat (length (buf file)) < w * 3 * Z.of_nat n →
    ∃ row, Z.of_nat i0 ≤ row < Z.of_nat (i0 + n) ∧
      for_each (seqZ (Z.of_nat i0) (Z.of_nat n)) (read_row w) (file, image) =
        Throw (PixelDataError row).
Proof.
  intros Hw Hw3. induction n as [|n IH]; intros i0 file image Hlen Hshort.
  { destruct Hshort as [[_ ?] | ?]; lia. }
  rewrite seqZ_cons by lia. cbn [for_each].
  destruct (read_row_step w i0 file image) as [[-> _] | (image' & Hlen' & -> & Hgood & Hge)];
    [done | done | lia | |].
  - exists (Z.of_nat i0). split; [lia | done].
  - rewrite bind_Ret.
    replace (Z.succ (Z.of_nat i0)) with (Z.of_nat (S i0)) by lia.
    replace (Z.pred (Z.of_nat (S n))) with (Z.of_nat n) by lia.
    destruct (IH (S i0) (mkIstream (drop (Z.to_nat (w * 3)) (buf file)) false false) image')
      as (row & Hrow & Hrun).
    + lia.
    + right. cbn [buf]. rewrite length_drop.
      destruct Hshort as [[? _] | Hshort]; [congruence | lia].
    + exists row. split; [lia | done].
Qed.

(** A loop that only reads completes when each of its iterations does. *)
Lemma for_each_unit (idx : list Z) (body : Z → unit → outcome unit) :
  (∀ i, i ∈ idx → body i () = Ret ()) → for_each idx body () = Ret ().
Proof.
  induction idx as [|i idx IH]; intros Hbody; [done |].
  simpl. rewrite Hbody, bind_Ret by (apply elem_of_cons; auto).
  apply IH. intros i' Hi'. apply Hbody, elem_of_cons. auto.
Qed.

Lemma print_first_pixels_ok (image : Image) :
  rectangular image →
  print_first_pixels image (Z.of_nat (height image)) (Z.of_nat (width image)) = Ret ().
Proof.
  intros Hrect. unfold print_first_pixels, for_range.
  apply for_each_unit. intros i Hi%elem_of_range.
  apply for_each_unit. intros j Hj%elem_of_range.
  destruct (get_pixel_in_range image i j) as [p ->]; [done | lia | lia |]. done.
Qed.

Lemma skip_space_stops (data : list byte) :
  data ≠ [] → stops isspace data →
  skip_space (mkIstream data false false) = mkIstream data false false.
Proof.
  intros Hne Hstops. unfold skip_space, good. cbn [eofbit failbit buf negb andb].
  rewrite drop_while_stops by done. by destruct data.
Qed.

(** The second part of [readPPM] on the pixel section of a rectangular
    buffer that does not start with a whitespace byte. *)
Lemma read_pixels_full (image : Image) (rest : list byte) :
  rectangular image → (1 ≤ height image)%nat → (1 ≤ width image)%nat →
  3 * Z.of_nat (width image) ≤ INT_MAX →
  stops isspace (bytes_of_image image) →
  read_pixels (mkIstream (bytes_of_image image ++ rest) false false)
    (Z.of_nat (width image)) (Z.of_nat (height image)) = Ret image.
Proof.
  intros Hrect Hh Hw Hw3 Hstops. unfold read_pixels.
  assert (bytes_of_image image ≠ []) as Hne.
  { intros Hnil. pose proof (bytes_of_image_length image _ Hrect) as Hlen.
    rewrite Hnil in Hlen. unfold height in Hh. simpl in Hlen. nia. }
  rewrite skip_space_stops.
  2: { by destruct (bytes_of_image image). }
  2: { by destruct (bytes_of_image image). }
  unfold make_vector.
  destruct (Z.ltb_spec (Z.of_nat (width image)) 0); [lia |].
  destruct (Z.ltb_spec (Z.of_nat (height image)) 0); [lia |].
  rewrite !bind_Ret, !Nat2Z.id. unfold for_range. rewrite Z.sub_0_r.
  pose proof (read_rows_full (width image) image Hw3 Hrect []
                (replicate (height image) (replicate (width image) RGB0)) rest)
    as Hrows.
  cbn [app length] in Hrows. change (Z.of_nat 0) with 0 in Hrows.
  unfold height in *. rewrite Hrows.
  - rewrite bind_Ret. fold (height image).
    by rewrite print_first_pixels_ok, bind_Ret.
  - by rewrite length_replicate.
  - apply Forall_forall. intros row [-> _]%elem_of_replicate.
    by rewrite length_replicate.
Qed.

(** The second part of [readPPM] on a stream that is not good, or holds
    fewer than [width * height * 3] bytes once the leading whitespace is
    dropped: it throws at one of the rows. *)
Lemma read_pixels_short (file : istream) (w h : Z) :
  0 < w → 0 < h → w * 3 ≤ INT_MAX →
  good file = false ∨
    Z.of_nat (length (drop_while isspace (buf file))) < w * h * 3 →
  ∃ row, 0 ≤ row < h ∧ read_pixels file w h = Throw (PixelDataError row).
Proof.
  intros Hw Hh Hw3 Hshort. unfold read_pixels, make_vector.
  destruct (Z.ltb_spec w 0); [lia |]. destruct (Z.ltb_spec h 0); [lia |].
  rewrite !bind_Ret. unfold for_range. rewrite Z.sub_0_r.
  destruct (read_rows_short w (Z.to_nat h) Hw Hw3 0%nat (skip_space file)
              (replicate (Z.to_nat h) (replicate (Z.to_nat w) RGB0)))
    as (row & Hrow & Hrun).
  - by rewrite length_replicate.
  - unfold skip_space. destruct (good file) eqn:Hgood; cbn [negb].
    + destruct Hshort as [? | Hshort]; [done |].
      destruct (drop_while isspace (buf file)) as [|c rest] eqn:Hdrop.
      * left. split; [done | lia].
      * right. cbn [buf]. lia.
    + left. split; [| lia]. unfold good in *. cbn [set_failbit failbit].
      by rewrite andb_false_r.
  - exists row. split; [lia |].
    change (Z.of_nat 0) with 0 in Hrun. rewrite Z2Nat.id in Hrun by lia.
    by rewrite Hrun.
Qed.

(** ** Writing *)

Lemma seqZ_prefix_length (n i : Z) (pre post : list Z) :
  seqZ 0 n = pre ++ i :: post → i = Z.of_nat (length pre).
Proof.
  intros Hidx.
  assert (seqZ 0 n !! length pre = Some i) as Hi.
  { rewrite Hidx. by apply list_lookup_middle. }
  apply lookup_seqZ in Hi. lia.
Qed.

Lemma bytes_of_image_app (image1 image2 : Image) :
  bytes_of_image (image1 ++ image2) = bytes_of_image image1 ++ bytes_of_image image2.
Proof. apply bind_app. Qed.

Lemma write_row_full (image : Image) (i : nat) (row : list RGB) (out : list byte) :
  image !! i = Some row → 3 * Z.of_nat (length row) ≤ INT_MAX →
  write_row image (Z.of_nat (length row)) (Z.of_nat i) out =
    Ret (out ++ bytes_of_row row).
Proof.
  intros Hrow Hw. unfold write_row.
  rewrite mul_int_ok, bind_Ret by (unfold INT_MIN, INT_MAX in *; lia).
  rewrite at_of_nat, Hrow, bytes_of_row_length.
  destruct (Z.ltb_spec (Z.of_nat (3 * length row)) (Z.of_nat (length row) * 3)); [lia |].
  rewrite firstn_all2 by (rewrite bytes_of_row_length; lia). done.
Qed.

(** The stream that [writePPM] has built when it closes it: the header
    followed by the rows. *)
Lemma write_stream_ok (image : Image) :
  rectangular image → 3 * Z.of_nat (width image) ≤ INT_MAX →
  write_stream image (Z.of_nat (height image)) (Z.of_nat (width image)) =
    Ret (header (Z.of_nat (width image)) (Z.of_nat (height image)) ++
         bytes_of_image image).
Proof.
  intros Hrect Hw. unfold write_stream.
  rewrite print_first_pixels_ok, bind_Ret by done. unfold for_range.
  match goal with |- for_each ?idx ?body ?s0 = _ =>
    destruct (for_each_invariant
      (λ pre out, out = s0 ++ bytes_of_image (take (length pre) image))
      idx body s0) as (out & Hrun & Hout)
  end.
  - by rewrite app_nil_r.
  - intros pre i post out Hidx ->.
    assert (i ∈ seqZ 0 (Z.of_nat (height image) - 0)) as Hi%elem_of_range.
    { rewrite Hidx. apply elem_of_middle. }
    apply seqZ_prefix_length in Hidx as ->.
    destruct (lookup_lt_is_Some_2 image (length pre)) as [row Hrow];
      [unfold height in Hi; lia |].
    pose proof (rectangular_row image _ row Hrect Hrow) as Hlen.
    rewrite <- Hlen, write_row_full by (done || lia).
    eexists. split; [done |].
    rewrite length_app. simpl. rewrite Nat.add_1_r.
    rewrite (take_S_r image (length pre) row Hrow), bytes_of_image_app.
    rewrite <- app_assoc. do 2 f_equal. unfold bytes_of_image. simpl.
    by rewrite app_nil_r.
  - rewrite Hrun, Hout, length_seqZ. do 3 f_equal.
    apply firstn_all2. unfold height. lia.
Qed.

Lemma header_length (w h : Z) :
  0 ≤ w → 0 ≤ h → (11 ≤ length (header w h))%nat.
Proof.
  intros Hw Hh. unfold header, P6. rewrite !length_app.
  pose proof (print_int_length w Hw). pose proof (print_int_length h Hh).
  simpl. lia.
Qed.

Lemma verify_size_ok (fs : filesystem) (filename : string) (content : list byte)
    (h w : Z) :
  files fs !! filename = Some content →
  0 ≤ w → 0 ≤ h → w * h * 3 + 10 ≤ INT_MAX →
  w * h * 3 + 10 ≤ Z.of_nat (length content) →
  verify_size fs filename h w = Ret ().
Proof.
  intros Hfile Hw Hh Hfit Hsize. unfold verify_size. rewrite Hfile.
  unfold INT_MAX in *.
  rewrite mul_int_ok, bind_Ret by (unfold INT_MIN, INT_MAX; nia).
  rewrite mul_int_ok, bind_Ret by (unfold INT_MIN, INT_MAX; nia).
  rewrite add_int_ok, bind_Ret by (unfold INT_MIN, INT_MAX; nia).
  destruct (Z.ltb_spec (Z.of_nat (length content)) (w * h * 3 + 10)); [lia | done].
Qed.

Lemma writable_image_fits (image : Image) :
  writable_image image →
  Z.of_nat (height image) ≤ INT_MAX ∧ Z.of_nat (width image) ≤ INT_MAX ∧
  3 * Z.of_nat (width image) ≤ INT_MAX.
Proof. intros (_ & Hh & Hw & Hfit). unfold INT_MAX in *. nia. Qed.

(** What [writePPM] leaves at [filename] for such a buffer. *)
Lemma writePPM_ok (fs : filesystem) (filename : string) (image : Image) :
  writable fs filename = true → writable_image image →
  writePPM fs filename image =
    (store fs filename
       (header (Z.of_nat (width image)) (Z.of_nat (height image)) ++
        bytes_of_image image),
     Ret ()).
Proof.
  intros Hopen Himage.
  destruct (writable_image_fits image Himage) as (Hfh & Hfw & Hw3).
  destruct Himage as (Hrect & Hh & Hw & Hfit).
  unfold writePPM. rewrite Hopen. cbn [negb].
  rewrite int_size_id by done. fold (height image).
  destruct (Z.ltb_spec 0 (Z.of_nat (height image))); [| lia].
  assert (default 0 (int_size <$> at_ image 0) = Z.of_nat (width image)) as ->.
  { destruct image as [|row image]; [simpl in Hh; lia |].
    simpl in *. by rewrite int_size_id. }
  destruct (Z.eqb_spec (Z.of_nat (width image)) 0); [lia |].
  destruct (Z.eqb_spec (Z.of_nat (height image)) 0); [lia |].
  cbn [orb]. rewrite write_stream_ok by done.
  f_equal.
  - unfold store. cbn [files writable]. by rewrite insert_insert_eq.
  - apply (verify_size_ok _ _ (header (Z.of_nat (width image)) (Z.of_nat (height image))
                               ++ bytes_of_image image)).
    + unfold store. cbn [files]. apply lookup_insert_eq.
    + lia.
    + lia.
    + done.
    + rewrite length_app, (bytes_of_image_length image (width image)) by done.
      pose proof (header_length (Z.of_nat (width image)) (Z.of_nat (height image))).
      unfold height in *. lia.
Qed.


(** ** A written file read back *)

Lemma first_byte (image : Image) (p : RGB) :
  get_pixel image 0 0 = Ret p →
  ∃ bytes, bytes_of_image image = r p :: bytes.
Proof.
  destruct image as [|[|q row] image]; try done.
  intros [= ->]. eexists. done.
Qed.

(** [readPPM] on a file made of the header that [writePPM] writes and of
    the pixel section of a rectangular buffer: the buffer is returned when
    its first byte is not a whitespace character, and the read of one of
    the rows fails when it is. *)
Lemma readPPM_written (fs : filesystem) (filename : string) (image : Image) (p : RGB) :
  rectangular image → (1 ≤ height image)%nat → (1 ≤ width image)%nat →
  Z.of_nat (height image) ≤ INT_MAX → 3 * Z.of_nat (width image) ≤ INT_MAX →
  files fs !! filename =
    Some (header (Z.of_nat (width image)) (Z.of_nat (height image)) ++
          bytes_of_image image) →
  get_pixel image 0 0 = Ret p →
  (isspace (r p) = false → readPPM fs filename = Ret image) ∧
  (isspace (r p) = true →
     ∃ row, 0 ≤ row < Z.of_nat (height image) ∧
       readPPM fs filename = Throw (PixelDataError row)).
Proof.
  intros Hrect Hh Hw Hfh Hw3 Hfile Hp.
  destruct (first_byte image p Hp) as [bytes Hbytes].
  unfold readPPM. rewrite Hfile.
  rewrite read_header_written, bind_Ret by lia.
  split; intros Hspace.
  - rewrite <- (app_nil_r (bytes_of_image image)).
    apply read_pixels_full; try done. by rewrite Hbytes.
  - apply read_pixels_short; [lia | lia | lia |].
    right. cbn [buf]. rewrite Hbytes. cbn [drop_while]. rewrite Hspace.
    pose proof (drop_while_length isspace bytes) as Hdrop.
    pose proof (bytes_of_image_length image _ Hrect) as Hlen.
    rewrite Hbytes in Hlen. simpl in Hlen. unfold height in *. lia.
Qed.

(** ** The bounds given to the header loops *)

(** A [getline] that does not fail leaves a shorter input. *)
Lemma getline_shorter (file : istream) (line : list byte) :
  failbit (getline file line).1 = false →
  (length (buf (getline file line).1) < length (buf file))%nat.
Proof.
  unfold getline. destruct (good file); cbn [negb]; [| done].
  destruct (drop_while _ (buf file)) as [|c rest] eqn:Hdrop; cbn [fst failbit buf].
  - destruct (buf file) as [|x l]; [done |]. simpl. lia.
  - intros _. pose proof (drop_while_length (λ c, negb (is_newline c)) (buf file)) as Hlen.
    rewrite Hdrop in Hlen. simpl in Hlen. lia.
Qed.

Lemma read_size_within_bound (bound : nat) (file : istream) (line : list byte) (w h : Z) :
  (length (buf file) < bound)%nat →
  read_size bound file line w h ≠ Undefined LoopBound.
Proof.
  revert file line w h. induction bound as [|bound IH]; intros file line w h Hlen; [lia |].
  cbn [read_size]. pose proof (getline_shorter file line) as Hshort.
  destruct (getline file line) as [file' line']. cbn [fst] in Hshort.
  destruct (failbit file'); [done |]. specialize (Hshort eq_refl).
  destruct (skipped line'); [apply IH; lia |].
  destruct (extract_int _ w) as [iss w']. destruct (extract_int iss h) as [iss' h'].
  destruct (failbit iss'); cbn [negb]; [apply IH; lia | done].
Qed.

Lemma read_max_val_within_bound (bound : nat) (file : istream) (line : list byte) (m : Z) :
  (length (buf file) < bound)%nat →
  read_max_val bound file line m ≠ Undefined LoopBound.
Proof.
  revert file line m. induction bound as [|bound IH]; intros file line m Hlen; [lia |].
  cbn [read_max_val]. pose proof (getline_shorter file line) as Hshort.
  destruct (getline file line) as [file' line']. cbn [fst] in Hshort.
  destruct (failbit file'); [done |]. specialize (Hshort eq_refl).
  destruct (skipped line'); [apply IH; lia |].
  destruct (extract_int _ m) as [iss m'].
  destruct (failbit iss); cbn [negb]; [apply IH; lia | done].
Qed.

(** The bounds that [readPPM] gives to its two header loops are never
    reached. *)
Lemma readPPM_within_bound (fs : filesystem) (filename : string) :
  readPPM fs filename ≠ Undefined LoopBound.
Proof.
  unfold readPPM. destruct (files fs !! filename) as [content|]; [| done].
  apply bind_avoids.
  - unfold read_header. destruct (extract_word _ _) as [file magic].
    destruct (negb _); [done |].
    apply bind_avoids; [apply read_size_within_bound; lia |].
    intros [[[file1 line] w] h].
    apply bind_avoids; [apply read_max_val_within_bound; lia |].
    intros [file2 m]. by destruct (negb _).
  - intros [[file w] h]. unfold read_pixels, make_vector.
    destruct (w <? 0); [done |]. destruct (h <? 0); [done |]. rewrite !bind_Ret.
    apply bind_avoids.
    + apply for_each_avoids. intros i [file1 image]. unfold read_row, mul_int.
      destruct (in_int _); [| done]. rewrite bind_Ret.
      destruct (at_ image i); [| done]. destruct (read file1 _) as [file2 got].
      by destruct (negb _).
    + intros [file1 image]. apply bind_avoids; [| done].
      apply for_each_avoids. intros i u. apply for_each_avoids. intros j u'.
      apply bind_avoids; [| done].
      unfold get_pixel. destruct (at_ image i) as [row|]; [| done].
      by destruct (at_ row j).
Qed.

(** ** loadPPM *)

(** Two grids of the same shape with the same pixels are equal. *)
Lemma grid_ext {A} (image1 image2 : list (list A)) :
  shape image1 = shape image2 →
  (∀ i j p, get_pixel image2 i j = Ret p → get_pixel image1 i j = Ret p) →
  image1 = image2.
Proof.
  intros Hshape Hpix. apply list_eq. intros i.
  pose proof (f_equal (λ s, s !! i) Hshape) as Hi. simpl in Hi.
  rewrite !shape_lookup in Hi.
  destruct (image1 !! i) as [row1|] eqn:Hrow1, (image2 !! i) as [row2|] eqn:Hrow2;
    try done.
  injection Hi as Hlen. f_equal. apply list_eq. intros j.
  destruct (row2 !! j) as [p|] eqn:Hp.
  - specialize (Hpix (Z.of_nat i) (Z.of_nat j) p).
    unfold get_pixel in Hpix. rewrite !at_of_nat, Hrow1, Hrow2, !at_of_nat, Hp in Hpix.
    destruct (row1 !! j); [| by specialize (Hpix eq_refl)].
    by injection (Hpix eq_refl) as ->.
  - apply lookup_ge_None. apply lookup_ge_None in Hp. lia.
Qed.

Section LoadPixels.
Import PrintPPM.

(** The way one pixel is read, the stream before the k-th pixel and the
    value of that pixel. *)
Context (read_pixel : istream → RGB → outcome (istream * RGB)).
Context (next : nat → istream) (px : nat → RGB) (h w : nat).
Hypothesis Hread : ∀ k old, (k < h * w)%nat →
  read_pixel (next k) old = Ret (next (S k), px k).

Lemma load_pixels_row (s : list (list RGB)) (i : nat) :
  shape s = replicate h w → (i < h)%nat →
  ∃ s', for_range 0 (Z.of_nat w) (λ j '(file, image),
          p ← get_pixel image (Z.of_nat i) j;
          '(file, p) ← read_pixel file p;
          image ← set_pixel image (Z.of_nat i) j p;
          Ret (file, image)) (next (i * w), s) = Ret (next (S i * w), s') ∧
    shape s' = replicate h w ∧
    ∀ i' j', get_pixel s' i' j' =
      if decide (i' = Z.of_nat i ∧ 0 ≤ j' < Z.of_nat w)
      then Ret (px (i * w + Z.to_nat j')) else get_pixel s i' j'.
Proof.
  intros Hshape Hi. unfold for_range.
  match goal with |- ∃ x, for_each ?idx ?body ?s0 = _ ∧ _ =>
    destruct (for_each_invariant
      (λ pre st, st.1 = next (i * w + length pre) ∧
         shape st.2 = replicate h w ∧
         ∀ i' j', get_pixel st.2 i' j' =
           if decide (i' = Z.of_nat i ∧ j' ∈ pre)
           then Ret (px (i * w + Z.to_nat j')) else get_pixel s i' j')
      idx body s0) as ([file out] & Hrun & Hfile & Hout & Hpix)
  end.
  - cbn [fst snd length]. rewrite Nat.add_0_r. split; [done |]. split; [done |].
    intros i' j'. rewrite decide_False; [done |]. intros [_ ?%elem_of_nil]. done.
  - intros pre j post [file s1] Hidx (Hfile & Hs1 & Hpix). cbn [fst snd] in *.
    assert (j ∈ seqZ 0 (Z.of_nat w - 0)) as Hj%elem_of_range.
    { rewrite Hidx. apply elem_of_middle. }
    pose proof (seqZ_prefix_length _ _ _ _ Hidx) as Hjpre.
    destruct (get_pixel_shape_replicate s1 h w (Z.of_nat i) j) as [q Hq];
      [done | lia | lia |].
    rewrite Hq, bind_Ret, Hfile, Hread, bind_Ret by nia.
    destruct (set_pixel_spec s1 (Z.of_nat i) j (px (i * w + length pre)) q Hq)
      as (s2 & Hset & Hs2 & Hpix2).
    rewrite Hset, bind_Ret. eexists. split; [done |]. cbn [fst snd].
    rewrite length_app. cbn [length].
    replace (i * w + (length pre + 1))%nat with (S (i * w + length pre)) by lia.
    split; [done |]. split; [congruence |].
    intros i' j'. rewrite Hpix2, Hpix.
    replace (length pre) with (Z.to_nat j) by lia.
    visited_cases.
  - cbn [fst snd] in *. exists out. rewrite Hrun, Hfile, length_seqZ.
    replace (i * w + Z.to_nat (Z.of_nat w - 0))%nat with (S i * w)%nat by lia.
    split; [done |]. split; [done |].
    intros i' j'. rewrite Hpix.
    repeat case_decide; try done; rewrite elem_of_range in *; exfalso; lia.
Qed.

Lemma load_pixels_spec (image : list (list RGB)) :
  shape image = replicate h w →
  ∃ image', load_pixels read_pixel (next 0) image (Z.of_nat h) (Z.of_nat w) =
              Ret (next (h * w), image') ∧
    shape image' = replicate h w ∧
    ∀ i j, (i < h)%nat → (j < w)%nat →
      get_pixel image' (Z.of_nat i) (Z.of_nat j) = Ret (px (i * w + j)).
Proof.
  intros Hshape. unfold load_pixels. unfold for_range at 1.
  match goal with |- ∃ x, for_each ?idx ?body ?s0 = _ ∧ _ =>
    destruct (for_each_invariant
      (λ pre st, st.1 = next (length pre * w) ∧
         shape st.2 = replicate h w ∧
         ∀ i j, Z.of_nat i ∈ pre → (j < w)%nat →
           get_pixel st.2 (Z.of_nat i) (Z.of_nat j) = Ret (px (i * w + j)))
      idx body s0) as ([file out] & Hrun & Hfile & Hout & Hpix)
  end.
  - cbn [fst snd length]. split; [done |]. split; [done |].
    intros i j ?%elem_of_nil. done.
  - intros pre i post [file s1] Hidx (Hfile & Hs1 & Hpix). cbn [fst snd] in *.
    assert (i ∈ seqZ 0 (Z.of_nat h - 0)) as Hi%elem_of_range.
    { rewrite Hidx. apply elem_of_middle. }
    pose proof (seqZ_prefix_length _ _ _ _ Hidx) as Hipre.
    destruct (load_pixels_row s1 (length pre)) as (s2 & Hrow & Hs2 & Hpix2);
      [done | lia |].
    rewrite Hipre, Hfile, Hrow. eexists. split; [done |]. cbn [fst snd].
    rewrite length_app. cbn [length].
    replace ((length pre + 1) * w)%nat with (S (length pre) * w)%nat by lia.
    split; [done |]. split; [done |].
    intros i' j' Hi' Hj'. rewrite Hpix2.
    apply elem_of_app in Hi' as [Hi' | Hi'%list_elem_of_singleton].
    + rewrite decide_False; [by apply Hpix |].
      intros [Heq _].
      pose proof (NoDup_seqZ 0 (Z.of_nat h - 0)) as Hnd.
      rewrite Hidx in Hnd. apply NoDup_app in Hnd as (_ & Hnd & _).
      apply (Hnd (Z.of_nat i') Hi'). rewrite Heq, <- Hipre. apply elem_of_cons. auto.
    + rewrite decide_True by lia. do 3 f_equal; lia.
  - cbn [fst snd] in *. exists out. rewrite Hrun, Hfile, length_seqZ.
    replace (Z.to_nat (Z.of_nat h - 0)) with h by lia.
    split; [done |]. split; [done |].
    intros i j Hi Hj. apply Hpix; [| done]. rewrite elem_of_range. lia.
Qed.
End LoadPixels.

Lemma isspace_not_digit (c : byte) : isspace c = true → isdigit c = false.
Proof. by destruct c. Qed.

Lemma blank_cons (sp : list byte) :
  PrintPPM.blank sp →
  ∃ c sp', sp = c :: sp' ∧ isspace c = true ∧ Forall (λ c, isspace c = true) sp.
Proof.
  intros [Hne Hsp]. destruct sp as [|c sp']; [done |].
  exists c, sp'. split; [done |]. split; [| done].
  by apply Forall_cons in Hsp as [? _].
Qed.

(** [is >> str] on a word followed by whitespace. *)
Lemma extract_word_token (word sp rest old : list byte) :
  word ≠ [] → Forall (λ c, isspace c = false) word → PrintPPM.blank sp →
  extract_word (mkIstream (word ++ sp ++ rest) false false) old =
    (mkIstream (sp ++ rest) false false, word).
Proof.
  intros Hne Hword (c & sp' & -> & Hc & _)%blank_cons.
  unfold extract_word, good. cbn [eofbit failbit buf negb andb].
  assert (Forall (λ c, negb (isspace c) = true) word) as Hword'.
  { eapply Forall_impl; [exact Hword |]. by intros x ->. }
  rewrite drop_while_stops.
  2: { destruct word as [|x word]; [done |].
       by apply Forall_cons in Hword as [? _]. }
  pose proof (take_while_app (λ c, negb (isspace c)) word ((c :: sp') ++ rest) Hword')
    as Htake.
  pose proof (drop_while_app (λ c, negb (isspace c)) word ((c :: sp') ++ rest) Hword')
    as Hdrop.
  destruct word as [|x word]; [done |]. cbn [app] in *.
  rewrite Htake, Hdrop by (cbn [stops]; by rewrite Hc). done.
Qed.

(** [is >> n] on a number written in decimal, followed by whitespace. *)
Lemma extract_int_blank (sp sp' rest : list byte) (n val : Z) :
  Forall (λ c, isspace c = true) sp → 0 ≤ n ≤ INT_MAX → PrintPPM.blank sp' →
  extract_int (mkIstream (sp ++ print_int n ++ sp' ++ rest) false false) val =
    (mkIstream (sp' ++ rest) false false, n).
Proof.
  intros Hsp Hn (c & sp'' & -> & Hc & _)%blank_cons.
  rewrite extract_int_print; [done | done | done |].
  simpl. by apply isspace_not_digit.
Qed.

(** [loadPPM] past a header without comments: the size is the one
    written, and the stream is at the pixel section. *)
Lemma loadPPM_header (fs : filesystem) (filename : string) (a : PrintPPM.args)
    (magic sp1 sp2 sp3 body : list byte) (w h maxval : Z) (sep : byte) :
  files fs !! filename =
    Some (PrintPPM.ppm_header magic sp1 sp2 sp3 w h maxval sep ++ body) →
  magic = PrintPPM.P3 ∨ magic = P6 →
  PrintPPM.blank sp1 → PrintPPM.blank sp2 → PrintPPM.blank sp3 →
  0 ≤ w ≤ INT_MAX → 0 ≤ h ≤ INT_MAX → 0 ≤ maxval ≤ INT_MAX →
  isdigit sep = false →
  PrintPPM.loadPPM fs filename a =
    (row ← make_vector w PrintPPM.RGB0;
     image ← PrintPPM.resize (PrintPPM.image a) h row;
     '(file, image) ←
       (if bool_decide (magic = PrintPPM.P3)
        then PrintPPM.load_pixels PrintPPM.read_text_pixel
               (mkIstream body false false) image h w
        else PrintPPM.load_pixels PrintPPM.read_binary_pixel
               (mkIstream body false false) image h w);
     Ret (true, PrintPPM.mkArgs image w h magic)).
Proof.
  intros Hfile Hmagic Hsp1 Hsp2 Hsp3 Hw Hh Hmax Hsep.
  unfold PrintPPM.loadPPM. rewrite Hfile. unfold PrintPPM.ppm_header.
  rewrite <- !app_assoc.
  rewrite extract_word_token; [| by destruct Hmagic as [-> | ->] | | done].
  2: { destruct Hmagic as [-> | ->]; by repeat constructor. }
  assert (negb (bool_decide (magic = PrintPPM.P3)) && negb (bool_decide (magic = P6))
          = false) as ->.
  { destruct Hmagic as [-> | ->]; done. }
  destruct Hsp1 as [_ Hsp1].
  rewrite extract_int_blank by done.
  rewrite extract_int_blank by (done || by destruct Hsp2).
  rewrite (extract_int_print sp3 ([sep] ++ body) maxval) by (done || by destruct Hsp3).
  cbn [app is_nil ignore good eofbit failbit buf negb andb].
  destruct Hmagic as [-> | ->]; done.
Qed.

Lemma join_length_same {A} (rows : list (list A)) (w : nat) :
  Forall (λ row, length row = w) rows →
  length (mjoin rows) = (length rows * w)%nat.
Proof.
  induction 1 as [|row rows Hrow _ IH]; [done |].
  simpl. rewrite length_app, IH, Hrow. lia.
Qed.

Lemma bytes_of_row_app (row1 row2 : list RGB) :
  bytes_of_row (row1 ++ row2) = bytes_of_row row1 ++ bytes_of_row row2.
Proof. apply bind_app. Qed.

Lemma bytes_of_image_join (rows : list (list RGB)) :
  bytes_of_image rows = bytes_of_row (mjoin rows).
Proof.
  induction rows as [|row rows IH]; [done |].
  rewrite bytes_of_image_cons, IH. simpl. by rewrite bytes_of_row_app.
Qed.

Lemma get_pixel_fmap {A B} (f : A → B) (grid : list (list A)) (i j : Z) (q : B) :
  get_pixel (map_grid f grid) i j = Ret q →
  ∃ row p, grid !! Z.to_nat i = Some row ∧ row !! Z.to_nat j = Some p ∧
    q = f p ∧ 0 ≤ i ∧ 0 ≤ j.
Proof.
  unfold get_pixel, at_, map_grid. destruct (Z.ltb_spec i 0); [done |].
  rewrite list_lookup_fmap.
  destruct (grid !! Z.to_nat i) as [row|] eqn:Hrow; [| done]. simpl.
  destruct (Z.ltb_spec j 0); [done |]. rewrite list_lookup_fmap.
  destruct (row !! Z.to_nat j) as [p|] eqn:Hp; [| done]. simpl.
  intros [= <-]. by exists row, p.
Qed.

(** The result of the two loops is the grid [f <$> rows] when the k-th
    pixel read is [f] of the k-th pixel of [rows]. *)
Lemma loaded_grid {A} (f : A → PrintPPM.RGB) (rows : list (list A))
    (image : list (list PrintPPM.RGB)) (w : nat) :
  Forall (λ row, length row = w) rows →
  shape image = replicate (length rows) w →
  (∀ i j, (i < length rows)%nat → (j < w)%nat →
     get_pixel image (Z.of_nat i) (Z.of_nat j) =
       Ret (default PrintPPM.RGB0 (f <$> mjoin rows !! (i * w + j)%nat))) →
  image = map_grid f rows.
Proof.
  intros Hrows Hshape Hpix. apply grid_ext.
  - rewrite Hshape. unfold shape, map_grid. rewrite <- list_fmap_compose.
    apply list_eq. intros i. rewrite list_lookup_fmap.
    destruct (rows !! i) as [row|] eqn:Hrow; simpl.
    + rewrite length_fmap, (Forall_lookup_1 _ _ _ _ Hrows Hrow).
      apply lookup_replicate_2. by apply lookup_lt_Some in Hrow.
    + apply lookup_replicate_None. apply lookup_ge_None in Hrow. lia.
  - intros i j q (row & p & Hrow & Hp & -> & Hi & Hj)%get_pixel_fmap.
    pose proof (Forall_lookup_1 _ _ _ _ Hrows Hrow) as Hlen. simpl in Hlen.
    pose proof (lookup_lt_Some _ _ _ Hrow). pose proof (lookup_lt_Some _ _ _ Hp).
    rewrite <- (Z2Nat.id i), <- (Z2Nat.id j) by lia.
    rewrite Hpix by lia.
    assert (mjoin rows !! (Z.to_nat i * w + Z.to_nat j)%nat = Some p) as ->; [| done].
    apply join_lookup_Some_same_length'; [done | lia |]. by exists row.
Qed.

(** The P6 branch on the bytes of a grid of [h] rows of [w] pixels. *)
Lemma load_binary_pixels (rows : list (list RGB)) (rest : list byte) (w : nat)
    (image0 : list (list PrintPPM.RGB)) :
  Forall (λ row, length row = w) rows →
  shape image0 = replicate (length rows) w →
  PrintPPM.load_pixels PrintPPM.read_binary_pixel
    (mkIstream (bytes_of_image rows ++ rest) false false) image0
    (Z.of_nat (length rows)) (Z.of_nat w) =
    Ret (mkIstream rest false false, map_grid PrintPPM.widen rows).
Proof.
  intros Hrows Hshape.
  destruct (load_pixels_spec PrintPPM.read_binary_pixel
              (λ k, mkIstream (bytes_of_row (drop k (mjoin rows)) ++ rest) false false)
              (λ k, default PrintPPM.RGB0 (PrintPPM.widen <$> mjoin rows !! k))
              (length rows) w) with (image := image0)
    as (image' & Hrun & Hshape' & Hpix); [| done |].
  - intros k old Hk.
    destruct (lookup_lt_is_Some_2 (mjoin rows) k) as [[cr cg cb] Hp].
    { by rewrite (join_length_same rows w). }
    rewrite (drop_S _ _ _ Hp), Hp. unfold PrintPPM.read_binary_pixel.
    change (bytes_of_row (mkRGB cr cg cb :: drop (S k) (mjoin rows)) ++ rest)
      with ([cr; cg; cb] ++ bytes_of_row (drop (S k) (mjoin rows)) ++ rest).
    by rewrite read_front.
  - cbv beta in Hrun. rewrite drop_0, <- bytes_of_image_join in Hrun. rewrite Hrun.
    rewrite drop_ge by (by rewrite (join_length_same rows w)).
    do 2 f_equal. by apply (loaded_grid PrintPPM.widen rows image' w).
Qed.

Lemma stream_at_pixel sp p pixels rest tail :
  0 ≤ PrintPPM.r p →
  PrintPPM.stream_at (PrintPPM.p3_body ((sp, p) :: pixels) rest ++ tail) =
    mkIstream (PrintPPM.p3_body ((sp, p) :: pixels) rest ++ tail) false false.
Proof.
  intros Hr. unfold PrintPPM.stream_at. f_equal.
  destruct sp as [[sp_r sp_g] sp_b]. cbn [PrintPPM.p3_body PrintPPM.p3_pixel].
  destruct sp_r; [| done]. cbn [app].
  pose proof (print_int_length (PrintPPM.r p) Hr).
  destruct (print_int (PrintPPM.r p)); [simpl in *; lia | done].
Qed.

Lemma separated_drop pixels rest (k : nat) :
  PrintPPM.separated pixels rest → PrintPPM.separated (drop k pixels) rest.
Proof.
  revert pixels. induction k as [|k IH]; intros pixels Hsep; [done |].
  destruct pixels as [|[[[sp_r sp_g] sp_b] p] pixels]; [done |].
  simpl. apply IH. simpl in Hsep. tauto.
Qed.

(** One pixel of three numbers read from its text. *)
Lemma read_text_pixel_spec sp p pixels rest old :
  PrintPPM.separated ((sp, p) :: pixels) rest →
  PrintPPM.read_text_pixel
    (mkIstream (PrintPPM.p3_body ((sp, p) :: pixels) rest) false false) old =
    Ret (PrintPPM.stream_at (PrintPPM.p3_body pixels rest), p).
Proof.
  destruct sp as [[sp_r sp_g] sp_b].
  intros (Hsp_r & Hsp_g & Hsp_b & Hr & Hg & Hb & Hstops & _).
  unfold PrintPPM.read_text_pixel. cbn [PrintPPM.p3_body PrintPPM.p3_pixel].
  rewrite <- !app_assoc.
  rewrite extract_int_blank by done.
  rewrite extract_int_blank by (done || by destruct Hsp_g).
  rewrite extract_int_print by (done || by destruct Hsp_b).
  by destruct p.
Qed.

(** The P3 branch on the text of [h] rows of [w] pixels. *)
Lemma load_text_pixels (grid : list (list PrintPPM.RGB))
    (pixels : list (list byte * list byte * list byte * PrintPPM.RGB))
    (rest : list byte) (w : nat) (image0 : list (list PrintPPM.RGB)) :
  Forall (λ row, length row = w) grid →
  pixels.*2 = mjoin grid →
  PrintPPM.separated pixels rest →
  shape image0 = replicate (length grid) w →
  ∃ file, PrintPPM.load_pixels PrintPPM.read_text_pixel
    (mkIstream (PrintPPM.p3_body pixels rest) false false) image0
    (Z.of_nat (length grid)) (Z.of_nat w) = Ret (file, grid).
Proof.
  intros Hgrid Hpixels Hsep Hshape.
  assert (length pixels = (length grid * w)%nat) as Hlen.
  { by rewrite <- (join_length_same grid w), <- Hpixels, length_fmap. }
  destruct (load_pixels_spec PrintPPM.read_text_pixel
              (λ k, match k with
                    | O => mkIstream (PrintPPM.p3_body pixels rest) false false
                    | _ => PrintPPM.stream_at (PrintPPM.p3_body (drop k pixels) rest)
                    end)
              (λ k, default PrintPPM.RGB0 (id <$> mjoin grid !! k))
              (length grid) w) with (image := image0)
    as (image' & Hrun & Hshape' & Hpix); [| done |].
  - intros k old Hk.
    destruct (lookup_lt_is_Some_2 pixels k) as [[sp p] Hp]; [lia |].
    assert (mjoin grid !! k = Some p) as ->.
    { by rewrite <- Hpixels, list_lookup_fmap, Hp. }
    pose proof (separated_drop pixels rest k Hsep) as Hsep'.
    rewrite (drop_S _ _ _ Hp) in Hsep'.
    assert (match k with
            | O => mkIstream (PrintPPM.p3_body pixels rest) false false
            | _ => PrintPPM.stream_at (PrintPPM.p3_body (drop k pixels) rest)
            end = mkIstream (PrintPPM.p3_body ((sp, p) :: drop (S k) pixels) rest)
                    false false) as ->.
    { rewrite <- (drop_S _ _ _ Hp). destruct k as [|k]; [done |].
      rewrite (drop_S _ _ _ Hp).
      rewrite <- (app_nil_r (PrintPPM.p3_body _ rest)).
      apply stream_at_pixel.
      destruct sp as [[sp_r sp_g] sp_b]. simpl in Hsep'. tauto. }
    by rewrite read_text_pixel_spec.
  - eexists. rewrite Hrun. do 2 f_equal.
    rewrite (loaded_grid id grid image' w) by done.
    unfold map_grid. rewrite <- (list_fmap_id grid) at 2. apply list_fmap_ext.
    intros _ row _. apply list_fmap_id.
Qed.

(** ** Claims about the transforms *)

(** C4. For a rectangular buffer of height >= 3 and width >= 3 (both
    representable as [int]), [blur] completes; each channel of each interior
    pixel of the result is the floor of the sum, over the nine cells of the
    3x3 box around it, of that channel in the buffer as it was before the
    call, divided by 9 (the nine cells all lie inside the buffer); every
    pixel of row 0, of the last row, of column 0 and of the last column is
    as it was. *)
Theorem blur_box_average (image : Image) :
  rectangular image → fits_int image →
  (3 ≤ height image)%nat → (3 ≤ width image)%nat →
  ∃ image', blur image = Ret image' ∧
    (∀ i j, 1 ≤ i < Z.of_nat (height image) - 1 →
            1 ≤ j < Z.of_nat (width image) - 1 →
       Forall (λ cell, ∃ q, get_pixel image cell.1 cell.2 = Ret q) (box i j) ∧
       ∃ p, get_pixel image' i j = Ret p ∧
         chan (r p) = channel_sum r image (box i j) `div` 9 ∧
         chan (g p) = channel_sum g image (box i j) `div` 9 ∧
         chan (b p) = channel_sum b image (box i j) `div` 9) ∧
    (∀ i j, i = 0 ∨ i = Z.of_nat (height image) - 1 ∨
            j = 0 ∨ j = Z.of_nat (width image) - 1 →
       get_pixel image' i j = get_pixel image i j).
Proof.
  intros Hrect Hfits Hh Hw.
  destruct (blur_spec image Hrect Hfits) as (image' & Hrun & _ & Hpix); [lia |].
  exists image'. split; [done |]. split.
  - intros i j Hi Hj. split.
    + apply Forall_forall. intros [x y] Hcell. simpl.
      unfold box in Hcell.
      apply list_elem_of_bind in Hcell as (dx & Hcell & Hdx).
      apply list_elem_of_bind in Hcell as (dy & Hcell & Hdy).
      apply list_elem_of_singleton in Hcell as [= -> ->].
      assert (-1 ≤ dx ≤ 1) by (set_unfold; lia).
      assert (-1 ≤ dy ≤ 1) by (set_unfold; lia).
      apply get_pixel_in_range; [done | lia | lia].
    + exists (blur_value image i j). rewrite Hpix, decide_True by done.
      split; [done |].
      assert (∀ sel, chan (uchar (channel_sum sel image (box i j) `quot` 9)) =
                     channel_sum sel image (box i j) `div` 9) as Havg.
      { intros sel. pose proof (channel_sum_range sel image (box i j)) as Hsum.
        change (Z.of_nat (length (box i j))) with 9 in Hsum.
        rewrite Z.quot_div_nonneg by lia.
        apply chan_uchar. split.
        - apply Z.div_pos; lia.
        - apply Z.div_le_upper_bound; lia. }
      unfold blur_value. cbn [r g b]. rewrite !Havg. done.
  - intros i j Hborder. rewrite Hpix, decide_False; [done | lia].
Qed.

(** The 3x3 sample buffer is such a buffer. *)
Lemma blur_box_average_witness :
  ∃ image', blur (sample 3 3) = Ret image' ∧
    (∀ i j, 1 ≤ i < Z.of_nat (height (sample 3 3)) - 1 →
            1 ≤ j < Z.of_nat (width (sample 3 3)) - 1 →
       Forall (λ cell, ∃ q, get_pixel (sample 3 3) cell.1 cell.2 = Ret q) (box i j) ∧
       ∃ p, get_pixel image' i j = Ret p ∧
         chan (r p) = channel_sum r (sample 3 3) (box i j) `div` 9 ∧
         chan (g p) = channel_sum g (sample 3 3) (box i j) `div` 9 ∧
         chan (b p) = channel_sum b (sample 3 3) (box i j) `div` 9) ∧
    (∀ i j, i = 0 ∨ i = Z.of_nat (height (sample 3 3)) - 1 ∨
            j = 0 ∨ j = Z.of_nat (width (sample 3 3)) - 1 →
       get_pixel image' i j = get_pixel (sample 3 3) i j).
Proof.
  apply (blur_box_average (sample 3 3)).
  - repeat constructor.
  - split; vm_compute; discriminate.
  - vm_compute. lia.
  - vm_compute. lia.
Defined.

(** C5. For a rectangular buffer of height h >= 1 and width w >= 1 (both
    representable as [int]), [compress] completes with a buffer of exactly
    floor(h/2) rows, each of floor(w/2) pixels, whose pixel (i, j) is the
    pixel (2i+1, 2j+1) of the input; for a 4x4 input the output is 2x2,
    its pixel (0,0) is the input's (1,1) and its pixel (1,1) the input's
    (3,3). *)
Theorem compress_keeps_odd_cells (image : Image) :
  rectangular image → fits_int image →
  (1 ≤ height image)%nat → (1 ≤ width image)%nat →
  ∃ out, compress image = Ret out ∧
    height out = (height image / 2)%nat ∧
    Forall (λ row : list RGB, length row = (width image / 2)%nat) out ∧
    (∀ i j, 0 ≤ i < Z.of_nat (height image / 2) →
            0 ≤ j < Z.of_nat (width image / 2) →
       ∃ p, get_pixel out i j = Ret p ∧
            get_pixel image (2 * i + 1) (2 * j + 1) = Ret p) ∧
    (height image = 4%nat → width image = 4%nat →
       height out = 2%nat ∧ width out = 2%nat ∧
       get_pixel out 0 0 = get_pixel image 1 1 ∧
       get_pixel out 1 1 = get_pixel image 3 3).
Proof.
  intros Hrect Hfits Hh Hw.
  destruct (compress_spec image Hrect Hfits Hh) as (out & Hrun & Hshape & Hpix).
  assert (height out = (height image / 2)%nat) as Hheight.
  { by rewrite height_shape, Hshape, length_replicate. }
  assert (Forall (λ row : list RGB, length row = (width image / 2)%nat) out) as Hrows.
  { apply (Forall_fmap length (λ n, n = (width image / 2)%nat)).
    fold (shape out). rewrite Hshape. apply Forall_forall.
    intros n Hn%elem_of_replicate. tauto. }
  exists out. split; [done |]. split; [done |]. split; [done |]. split.
  - intros i j Hi Hj.
    pose proof (Nat.Div0.mul_div_le (height image) 2).
    pose proof (Nat.Div0.mul_div_le (width image) 2).
    destruct (get_pixel_in_range image (2 * i + 1) (2 * j + 1)) as [p Hp];
      [done | lia | lia |].
    exists p. by rewrite Hpix, Hp.
  - intros H4 W4. rewrite Hheight, width_shape, Hshape, H4, W4.
    split; [done |]. split; [done |].
    split; [apply (Hpix 0 0) | apply (Hpix 1 1)]; rewrite ?H4, ?W4; simpl; lia.
Qed.

(** The 4x4 sample buffer is such a buffer. *)
Lemma compress_keeps_odd_cells_witness :
  ∃ out, compress (sample 4 4) = Ret out ∧
    height out = (height (sample 4 4) / 2)%nat ∧
    Forall (λ row : list RGB, length row = (width (sample 4 4) / 2)%nat) out ∧
    (∀ i j, 0 ≤ i < Z.of_nat (height (sample 4 4) / 2) →
            0 ≤ j < Z.of_nat (width (sample 4 4) / 2) →
       ∃ p, get_pixel out i j = Ret p ∧
            get_pixel (sample 4 4) (2 * i + 1) (2 * j + 1) = Ret p) ∧
    (height (sample 4 4) = 4%nat → width (sample 4 4) = 4%nat →
       height out = 2%nat ∧ width out = 2%nat ∧
       get_pixel out 0 0 = get_pixel (sample 4 4) 1 1 ∧
       get_pixel out 1 1 = get_pixel (sample 4 4) 3 3).
Proof.
  apply (compress_keeps_odd_cells (sample 4 4)).
  - repeat constructor.
  - split; vm_compute; discriminate.
  - vm_compute. lia.
  - vm_compute. lia.
Defined.

(** C6, as the code behaves. On a rectangular buffer with at least one
    row and fewer than five columns, [mirror] does not complete: the loop
    that prints the last five pixels of row 0 starts at column
    [width - 5], which is negative, and reads [image[0][width - 5]] outside
    the row. With five columns or more it completes, the result has the
    same height and width, and its pixel (i, j) is the former pixel
    (i, width - 1 - j). *)
Theorem mirror_narrow_reads_outside_row (image : Image) :
  rectangular image → fits_int image → (1 ≤ height image)%nat →
  ((width image < 5)%nat →
     mirror image = Undefined (PixelIndex 0 (Z.of_nat (width image) - 5))) ∧
  ((5 ≤ width image)%nat →
     ∃ out, mirror image = Ret out ∧ same_dims image out ∧
       ∀ i j, 0 ≤ i < Z.of_nat (height image) → 0 ≤ j < Z.of_nat (width image) →
         get_pixel out i j = get_pixel image i (Z.of_nat (width image) - 1 - j)).
Proof.
  intros Hrect Hfits Hh. split; intros Hw.
  - by apply mirror_narrow_spec.
  - exists (reverse <$> image). split; [by apply mirror_wide_spec |]. split.
    + destruct (same_shape image (reverse <$> image) (shape_reverse image))
        as (? & ? & ?).
      split; [auto | done].
    + intros i j Hi Hj. by apply get_pixel_reverse.
Qed.

(** A buffer of one pixel: the read is at column -4. *)
Lemma mirror_narrow_reads_outside_row_witness :
  mirror (sample 1 1) = Undefined (PixelIndex 0 (-4)).
Proof.
  destruct (mirror_narrow_reads_outside_row (sample 1 1)) as [Hnarrow _].
  - repeat constructor.
  - split; vm_compute; discriminate.
  - vm_compute. lia.
  - apply Hnarrow. vm_compute. lia.
Defined.

(** C9. On a rectangular buffer, [grayscale], [invert] and [contrast]
    return a rectangular buffer of the same height and width; whenever
    [blur] or [mirror] completes, its result is rectangular with the same
    height and width; whenever [compress] completes, its result is
    rectangular. [blur] and [compress] do complete when the buffer has at
    least one row and its dimensions are representable as [int], and
    [mirror] when it has moreover at least five columns. *)
Theorem transforms_keep_buffer_rectangular {float : Type}
    (scaled : float → Z → Z) (factor : float) (image : Image) :
  rectangular image →
  same_dims image (grayscale image) ∧
  same_dims image (invert image) ∧
  same_dims image (contrast scaled image factor) ∧
  (∀ out, blur image = Ret out → same_dims image out) ∧
  (∀ out, mirror image = Ret out → same_dims image out) ∧
  (∀ out, compress image = Ret out → rectangular out) ∧
  (fits_int image → (1 ≤ height image)%nat →
     (∃ out, blur image = Ret out) ∧
     (∃ out, compress image = Ret out) ∧
     ((5 ≤ width image)%nat → ∃ out, mirror image = Ret out)).
Proof.
  intros Hrect.
  assert (∀ out, shape out = shape image → same_dims image out) as Hsame.
  { intros out Hshape. destruct (same_shape image out Hshape) as (? & ? & ?).
    split; [auto | done]. }
  split; [apply Hsame, shape_for_pixels |].
  split; [apply Hsame, shape_for_pixels |].
  split; [apply Hsame, shape_for_pixels |].
  split; [intros out Hrun; by apply Hsame, blur_shape |].
  split; [intros out Hrun; by apply Hsame, mirror_shape |].
  split.
  - intros out Hrun.
    destruct (compress_shape image out Hrun) as (rows & cols & Hshape).
    by apply (rectangular_replicate rows cols).
  - intros Hfits Hh. split; [| split].
    + destruct (blur_spec image) as (out & Hrun & _); by eauto.
    + destruct (compress_spec image) as (out & Hrun & _); by eauto.
    + intros Hw. exists (reverse <$> image). by apply mirror_wide_spec.
Qed.

(** The 2x5 sample buffer is rectangular, and the six transforms complete
    on it. *)
Lemma transforms_keep_buffer_rectangular_witness :
  same_dims (sample 2 5) (grayscale (sample 2 5)) ∧
  same_dims (sample 2 5) (invert (sample 2 5)) ∧
  same_dims (sample 2 5) (contrast (λ (_ : unit) v, v) (sample 2 5) ()) ∧
  (∃ out, blur (sample 2 5) = Ret out ∧ same_dims (sample 2 5) out) ∧
  (∃ out, mirror (sample 2 5) = Ret out ∧ same_dims (sample 2 5) out) ∧
  (∃ out, compress (sample 2 5) = Ret out ∧ rectangular out).
Proof.
  destruct (transforms_keep_buffer_rectangular (λ (_ : unit) v, v) () (sample 2 5))
    as (Hgray & Hinv & Hcon & Hblur & Hmirror & Hcompress & Hdone).
  { repeat constructor. }
  destruct Hdone as ((out1 & Hout1) & (out2 & Hout2) & Hout3).
  { split; vm_compute; discriminate. }
  { vm_compute. lia. }
  destruct Hout3 as (out3 & Hout3).
  { vm_compute. lia. }
  split; [exact Hgray |]. split; [exact Hinv |]. split; [exact Hcon |].
  split; [exists out1; split; [exact Hout1 | exact (Hblur out1 Hout1)] |].
  split; [exists out3; split; [exact Hout3 | exact (Hmirror out3 Hout3)] |].
  exists out2. split; [exact Hout2 | exact (Hcompress out2 Hout2)].
Defined.

(** C10. [blur], [mirror] and [compress] each fail at the read of
    [image[0].size()] exactly when the buffer has no row; that read returns
    a width whenever the buffer has at least one row. A buffer with no row
    is what [compress] returns for a one-row buffer. *)
Theorem row0_read_needs_a_row (image : Image) :
  (blur image = Undefined RowZero ↔ height image = 0%nat) ∧
  (mirror image = Undefined RowZero ↔ height image = 0%nat) ∧
  (compress image = Undefined RowZero ↔ height image = 0%nat) ∧
  ((1 ≤ height image)%nat → ∃ w, row0_size image = Ret w) ∧
  (height image = 1%nat → fits_int image →
     compress image = Ret [] ∧
     blur [] = Undefined RowZero ∧ mirror [] = Undefined RowZero ∧
     compress [] = Undefined RowZero).
Proof.
  split; [apply blur_RowZero |].
  split; [apply mirror_RowZero |].
  split; [apply compress_RowZero |].
  split.
  - intros Hh. destruct image as [|row image]; simpl in Hh; [lia |].
    by eexists.
  - intros Hh Hfits.
    destruct (compress_spec image) as (out & Hrun & Hshape & _); [| done | lia |].
    + destruct image as [|row [|row' image]]; try done.
      by repeat constructor.
    + rewrite Hh in Hshape. destruct out; [done | discriminate].
Qed.

(** On a sample buffer of one row the read of row 0 succeeds, and
    [compress] returns the buffer with no row, on which the three calls
    fail. *)
Lemma row0_read_needs_a_row_witness :
  (∃ w, row0_size (sample 1 3) = Ret w) ∧
  compress (sample 1 3) = Ret [] ∧
  blur [] = Undefined RowZero ∧ mirror [] = Undefined RowZero ∧
  compress [] = Undefined RowZero.
Proof.
  destruct (row0_read_needs_a_row (sample 1 3)) as (_ & _ & _ & Hrow0 & Hone).
  split.
  - apply Hrow0. vm_compute. lia.
  - apply Hone; [done |]. split; vm_compute; discriminate.
Defined.

(** ** Claims about the codec *)

(** C1, as the code behaves. [writePPM] writes every rectangular buffer of
    at least 1x1 pixels (small enough for the [int] arithmetic of its size
    check); [readPPM] returns the same buffer from the file written when the
    red channel of pixel (0,0) is not a whitespace byte, and fails at the
    read of one of the rows when it is: the loop that skips whitespace
    before the binary data takes the leading whitespace-valued bytes of the
    pixel data with it. *)
Theorem roundtrip_depends_on_first_byte
    (fs : filesystem) (filename : string) (image : Image) (p : RGB) :
  writable fs filename = true → writable_image image →
  get_pixel image 0 0 = Ret p →
  ∃ fs', writePPM fs filename image = (fs', Ret ()) ∧
    (isspace (r p) = false → readPPM fs' filename = Ret image) ∧
    (isspace (r p) = true →
       ∃ row, 0 ≤ row < Z.of_nat (height image) ∧
         readPPM fs' filename = Throw (PixelDataError row)).
Proof.
  intros Hopen Himage Hp. eexists. split; [by apply writePPM_ok |].
  destruct (writable_image_fits image Himage) as (Hfh & Hfw & Hw3).
  destruct Himage as (Hrect & Hh & Hw & _).
  apply readPPM_written; try done.
  unfold store. cbn [files]. apply lookup_insert_eq.
Qed.

(** The buffer of one pixel whose red channel is the space character,
    written to a fresh file, is not read back. *)
Lemma roundtrip_depends_on_first_byte_witness :
  ∃ fs', writePPM (mkFs ∅ (λ _, true)) "out.ppm" [[mkRGB " " x00 x00]] = (fs', Ret ()) ∧
    ∃ row, readPPM fs' "out.ppm" = Throw (PixelDataError row).
Proof.
  destruct (roundtrip_depends_on_first_byte (mkFs ∅ (λ _, true)) "out.ppm"
              [[mkRGB " " x00 x00]] (mkRGB " " x00 x00))
    as (fs' & Hwrite & _ & Hread).
  - reflexivity.
  - split; [repeat constructor |]. split; [simpl; lia |]. split; [simpl; lia |].
    vm_compute. discriminate.
  - reflexivity.
  - exists fs'. split; [exact Hwrite |].
    destruct Hread as (row & _ & Hread); [reflexivity |].
    exists row. exact Hread.
Defined.

(** C2, as the code behaves. On a file made of the header "P6", "width
    height", "255" (one newline after each) and of the [width * height * 3]
    bytes of a pixel grid, [readPPM] returns the grid when its first byte
    is not a whitespace character; when it is, the loop
    [while (std::isspace(file.peek())) file.get();] consumes it as well and
    the read of one of the rows fails for want of bytes. *)
Theorem decode_consumes_whitespace_pixels
    (fs : filesystem) (filename : string) (image : Image) (p : RGB) :
  rectangular image → (1 ≤ height image)%nat → (1 ≤ width image)%nat →
  Z.of_nat (height image) ≤ INT_MAX → 3 * Z.of_nat (width image) ≤ INT_MAX →
  files fs !! filename =
    Some (header (Z.of_nat (width image)) (Z.of_nat (height image)) ++
          bytes_of_image image) →
  get_pixel image 0 0 = Ret p →
  (isspace (r p) = false → readPPM fs filename = Ret image) ∧
  (isspace (r p) = true →
     buf (skip_space (mkIstream (bytes_of_image image) false false)) =
       drop_while isspace (bytes_of_image image) ∧
     (length (drop_while isspace (bytes_of_image image)) <
        length (bytes_of_image image))%nat ∧
     ∃ row, 0 ≤ row < Z.of_nat (height image) ∧
       readPPM fs filename = Throw (PixelDataError row)).
Proof.
  intros Hrect Hh Hw Hfh Hw3 Hfile Hp.
  destruct (readPPM_written fs filename image p) as [Hok Hbad]; try done.
  split; [done |]. intros Hspace. split; [done |]. split; [| by apply Hbad].
  destruct (first_byte image p Hp) as [bytes ->]. cbn [drop_while].
  rewrite Hspace. pose proof (drop_while_length isspace bytes). simpl. lia.
Qed.

(** The file "P6", "1 1", "255" followed by the bytes 0x20 0x00 0x00. *)
Lemma decode_consumes_whitespace_pixels_witness :
  ∃ row,
    readPPM (mkFs {["in.ppm" := header 1 1 ++ [" "%byte; x00; x00]]} (λ _, true))
      "in.ppm" = Throw (PixelDataError row).
Proof.
  destruct (decode_consumes_whitespace_pixels
              (mkFs {["in.ppm" := header 1 1 ++ [" "%byte; x00; x00]]} (λ _, true))
              "in.ppm" [[mkRGB " " x00 x00]] (mkRGB " " x00 x00))
    as (_ & Hbad).
  - repeat constructor.
  - simpl. lia.
  - simpl. lia.
  - vm_compute. discriminate.
  - vm_compute. discriminate.
  - reflexivity.
  - reflexivity.
  - destruct Hbad as (_ & _ & row & _ & Hread); [reflexivity |].
    exists row. exact Hread.
Defined.

(** C3, as the code is written. [writePPM] opens the output stream before
    it looks at the buffer: for a buffer with no row or with an empty row 0,
    at a path that can be opened for writing, it throws the empty-image
    error (kind [InvalidInput]) after the file has been created or
    truncated, and leaves an empty file at the path. *)
Theorem writePPM_empty_image_leaves_empty_file
    (fs : filesystem) (filename : string) (image : Image) :
  height image = 0%nat ∨ width image = 0%nat →
  writable fs filename = true →
  writePPM fs filename image = (store fs filename [], Throw EmptyImage) ∧
  files (store fs filename []) !! filename = Some [] ∧
  kind_of EmptyImage = Some InvalidInput.
Proof.
  intros Hempty Hopen. split; [| split; [apply lookup_insert_eq | done]].
  unfold writePPM. rewrite Hopen. cbn [negb].
  assert ((if 0 <? int_size image
           then default 0 (int_size <$> at_ image 0) else 0) = 0) as ->.
  { destruct image as [|[|q row] image]; try done.
    - by destruct (0 <? _).
    - simpl in Hempty. destruct Hempty; discriminate. }
  done.
Qed.

(** A buffer with no row, written over an existing file. *)
Lemma writePPM_empty_image_leaves_empty_file_witness :
  writePPM (mkFs {["out.ppm" := [x01]]} (λ _, true)) "out.ppm" [] =
    (store (mkFs {["out.ppm" := [x01]]} (λ _, true)) "out.ppm" [], Throw EmptyImage) ∧
  files (store (mkFs {["out.ppm" := [x01]]} (λ _, true)) "out.ppm" []) !! "out.ppm" =
    Some [] ∧
  kind_of EmptyImage = Some InvalidInput.
Proof.
  apply (writePPM_empty_image_leaves_empty_file
           (mkFs {["out.ppm" := [x01]]} (λ _, true)) "out.ppm" []).
  - left. reflexivity.
  - reflexivity.
Defined.

(** C3 as stated fails: encoding the buffer with no row over an existing
    one-byte file throws the empty-image error, and the file at the output
    path is not what it was (it has been truncated). *)
Lemma writePPM_empty_image_truncates :
  let fs := mkFs {["out.ppm" := [x01]]} (λ _, true) in
  (writePPM fs "out.ppm" []).2 = Throw EmptyImage ∧
  files fs !! "out.ppm" = Some [x01] ∧
  files (writePPM fs "out.ppm" []).1 !! "out.ppm" = Some [] ∧
  files (writePPM fs "out.ppm" []).1 !! "out.ppm" ≠ files fs !! "out.ppm".
Proof. vm_compute. repeat split; discriminate. Qed.

(** C7. If the header of a file is read with a positive size
    [width] x [height] and what is left of the file after the line of the
    maximum value is shorter than [width * height * 3] bytes, [readPPM]
    throws the pixel-data error (kind [FormatError]) at one of the rows: it
    does not return a buffer. *)
Theorem truncated_pixel_data_rejected
    (fs : filesystem) (filename : string) (content : list byte)
    (file : istream) (width height : Z) :
  files fs !! filename = Some content →
  read_header content = Ret (file, width, height) →
  0 < width → 0 < height → width * 3 ≤ INT_MAX →
  Z.of_nat (length (buf file)) < width * height * 3 →
  ∃ row, 0 ≤ row < height ∧
    readPPM fs filename = Throw (PixelDataError row) ∧
    kind_of (PixelDataError row) = Some FormatError ∧
    ∀ image, readPPM fs filename ≠ Ret image.
Proof.
  intros Hfile Hheader Hw Hh Hw3 Hshort.
  destruct (read_pixels_short file width height Hw Hh Hw3) as (row & Hrow & Hrun).
  { right. pose proof (drop_while_length isspace (buf file)). lia. }
  exists row. unfold readPPM. rewrite Hfile, Hheader, bind_Ret, Hrun. done.
Qed.

(** A 2x2 file whose pixel section lacks its last byte. *)
Lemma truncated_pixel_data_rejected_witness :
  ∃ row, 0 ≤ row < 2 ∧
    readPPM (mkFs {["in.ppm" := header 2 2 ++ replicate 11 x00]} (λ _, true)) "in.ppm" =
      Throw (PixelDataError row) ∧
    kind_of (PixelDataError row) = Some FormatError ∧
    ∀ image,
      readPPM (mkFs {["in.ppm" := header 2 2 ++ replicate 11 x00]} (λ _, true)) "in.ppm"
        ≠ Ret image.
Proof.
  apply (truncated_pixel_data_rejected
           (mkFs {["in.ppm" := header 2 2 ++ replicate 11 x00]} (λ _, true)) "in.ppm"
           (header 2 2 ++ replicate 11 x00)
           (mkIstream (replicate 11 x00) false false) 2 2).
  - reflexivity.
  - reflexivity.
  - lia.
  - lia.
  - vm_compute. discriminate.
  - vm_compute. reflexivity.
Defined.

(** ** Claim about the reader of print_ppm.cpp *)

(** C8, as the code behaves. [loadPPM] reports failure exactly when the
    file cannot be opened or its first token is neither "P3" nor "P6".
    Called with an empty grid on a P6 or a P3 file whose header has no
    comment (magic number, width, height and maximum value separated by
    whitespace, one whitespace byte after the maximum value) and whose
    pixel section is complete, it returns success with the width, the
    height, the format tag and the full pixel grid of the file. *)
Theorem loadPPM_contract (fs : filesystem) (filename : string) (a : PrintPPM.args) :
  ((∃ a', PrintPPM.loadPPM fs filename a = Ret (false, a')) ↔
     files fs !! filename = None ∨
     ∃ content, files fs !! filename = Some content ∧
       PrintPPM.magic_of content (PrintPPM.format a) ≠ PrintPPM.P3 ∧
       PrintPPM.magic_of content (PrintPPM.format a) ≠ P6) ∧
  (∀ sp1 sp2 sp3 maxval sep (rows : list (list RGB)) (w : nat) rest,
     PrintPPM.image a = [] →
     PrintPPM.well_formed_header sp1 sp2 sp3
       (Z.of_nat w) (Z.of_nat (length rows)) maxval sep →
     Forall (λ row : list RGB, length row = w) rows →
     files fs !! filename =
       Some (PrintPPM.ppm_header P6 sp1 sp2 sp3
               (Z.of_nat w) (Z.of_nat (length rows)) maxval sep ++
             bytes_of_image rows ++ rest) →
     PrintPPM.loadPPM fs filename a =
       Ret (true, PrintPPM.mkArgs (map_grid PrintPPM.widen rows)
                    (Z.of_nat w) (Z.of_nat (length rows)) P6)) ∧
  (∀ sp1 sp2 sp3 maxval sep (grid : list (list PrintPPM.RGB)) (w : nat) pixels rest,
     PrintPPM.image a = [] →
     PrintPPM.well_formed_header sp1 sp2 sp3
       (Z.of_nat w) (Z.of_nat (length grid)) maxval sep →
     Forall (λ row : list PrintPPM.RGB, length row = w) grid →
     pixels.*2 = mjoin grid → PrintPPM.separated pixels rest →
     files fs !! filename =
       Some (PrintPPM.ppm_header PrintPPM.P3 sp1 sp2 sp3
               (Z.of_nat w) (Z.of_nat (length grid)) maxval sep ++
             PrintPPM.p3_body pixels rest) →
     PrintPPM.loadPPM fs filename a =
       Ret (true, PrintPPM.mkArgs grid
                    (Z.of_nat w) (Z.of_nat (length grid)) PrintPPM.P3)).
Proof.
  split; [| split].
  - unfold PrintPPM.loadPPM, PrintPPM.magic_of.
    destruct (files fs !! filename) as [content|].
    2: { split; [by left | intros _; by eexists]. }
    destruct (extract_word _ _) as [file magic] eqn:Hword.
    destruct (bool_decide (magic = PrintPPM.P3)) eqn:H3;
      destruct (bool_decide (magic = P6)) eqn:H6; cbn [negb andb].
    4: { apply bool_decide_eq_false in H3, H6. split.
         - intros _. right. exists content. by rewrite Hword.
         - intros _. by eexists. }
    all: split;
      [ intros [a' Hrun]; exfalso; revert Hrun;
        destruct (extract_int file _) as [file1 w];
        destruct (extract_int file1 _) as [file2 h];
        destruct (extract_int file2 _) as [file3 m];
        destruct (make_vector w _) as [row| |]; [| done | done];
        rewrite bind_Ret;
        destruct (PrintPPM.resize _ h row) as [image| |]; [| done | done];
        rewrite bind_Ret;
        destruct (PrintPPM.load_pixels _ _ _ _ _) as [[file4 image']| |]; done
      | intros [[=] | (content' & [= <-] & Hne3 & Hne6)];
        rewrite Hword in Hne3, Hne6;
        apply bool_decide_eq_true in H3 || apply bool_decide_eq_true in H6;
        done ].
  - intros sp1 sp2 sp3 maxval sep rows w rest Hempty
      (Hsp1 & Hsp2 & Hsp3 & Hsep & Hw & Hh & Hmax) Hrows Hfile.
    rewrite (loadPPM_header _ _ _ _ _ _ _ _ _ _ _ _ Hfile);
      [| by right | done .. | by apply isspace_not_digit].
    unfold make_vector, PrintPPM.resize.
    destruct (Z.ltb_spec (Z.of_nat w) 0); [lia |].
    destruct (Z.ltb_spec (Z.of_nat (length rows)) 0); [lia |].
    rewrite !bind_Ret, Hempty, !Nat2Z.id. cbn [take app length].
    rewrite take_nil, Nat.sub_0_r. cbn [app].
    rewrite bool_decide_eq_false_2 by done.
    rewrite load_binary_pixels; [done | done |]. apply shape_replicate.
  - intros sp1 sp2 sp3 maxval sep grid w pixels rest Hempty
      (Hsp1 & Hsp2 & Hsp3 & Hsep & Hw & Hh & Hmax) Hgrid Hpixels Hsepd Hfile.
    rewrite (loadPPM_header _ _ _ _ _ _ _ _ _ _ _ _ Hfile);
      [| by left | done .. | by apply isspace_not_digit].
    unfold make_vector, PrintPPM.resize.
    destruct (Z.ltb_spec (Z.of_nat w) 0); [lia |].
    destruct (Z.ltb_spec (Z.of_nat (length grid)) 0); [lia |].
    rewrite !bind_Ret, Hempty, !Nat2Z.id. cbn [take app length].
    rewrite take_nil, Nat.sub_0_r. cbn [app].
    rewrite bool_decide_eq_true_2 by done.
    destruct (load_text_pixels grid pixels rest w
                (replicate (length grid) (replicate w PrintPPM.RGB0)))
      as [file ->]; [done | done | done | apply shape_replicate |]. done.
Qed.

(** A P6 file of two pixels and a P3 file of one pixel, both with a
    well-formed header, are loaded in full. *)
Lemma loadPPM_contract_witness :
  PrintPPM.loadPPM
    (mkFs {["a.ppm" := PrintPPM.ppm_header P6 [x0a] [" "%byte] [x0a] 2 1 255 x0a ++
                       [x01; x02; x03; x04; x05; x06]]} (λ _, true))
    "a.ppm" (PrintPPM.mkArgs [] 0 0 []) =
    Ret (true, PrintPPM.mkArgs
                 [[PrintPPM.mkRGB 1 2 3; PrintPPM.mkRGB 4 5 6]] 2 1 P6) ∧
  PrintPPM.loadPPM
    (mkFs {["b.ppm" := PrintPPM.ppm_header PrintPPM.P3 [x0a] [" "%byte] [x0a] 1 1 255 x0a ++
                       PrintPPM.p3_body
                         [([], [" "%byte], [" "%byte], PrintPPM.mkRGB 7 8 9)] [x0a]]}
       (λ _, true))
    "b.ppm" (PrintPPM.mkArgs [] 0 0 []) =
    Ret (true, PrintPPM.mkArgs [[PrintPPM.mkRGB 7 8 9]] 1 1 PrintPPM.P3).
Proof.
  assert (PrintPPM.blank [x0a] ∧ PrintPPM.blank [" "%byte]) as [Hnl Hsp].
  { split; (split; [discriminate | repeat constructor]). }
  split.
  - pose proof (loadPPM_contract
                  (mkFs {["a.ppm" := PrintPPM.ppm_header P6 [x0a] [" "%byte] [x0a] 2 1 255 x0a ++
                                     [x01; x02; x03; x04; x05; x06]]} (λ _, true))
                  "a.ppm" (PrintPPM.mkArgs [] 0 0 [])) as (_ & Hbinary & _).
    apply (Hbinary [x0a] [" "%byte] [x0a] 255 x0a
             [[mkRGB x01 x02 x03; mkRGB x04 x05 x06]] 2%nat []).
    + reflexivity.
    + split; [exact Hnl |]. split; [exact Hsp |]. split; [exact Hnl |].
      split; [reflexivity |]. unfold INT_MAX. simpl. lia.
    + repeat constructor.
    + reflexivity.
  - pose proof (loadPPM_contract
                  (mkFs {["b.ppm" := PrintPPM.ppm_header PrintPPM.P3 [x0a] [" "%byte] [x0a]
                                       1 1 255 x0a ++
                                     PrintPPM.p3_body
                                       [([], [" "%byte], [" "%byte], PrintPPM.mkRGB 7 8 9)]
                                       [x0a]]} (λ _, true))
                  "b.ppm" (PrintPPM.mkArgs [] 0 0 [])) as (_ & _ & Htext).
    apply (Htext [x0a] [" "%byte] [x0a] 255 x0a [[PrintPPM.mkRGB 7 8 9]] 1%nat
             [([], [" "%byte], [" "%byte], PrintPPM.mkRGB 7 8 9)] [x0a]).
    + reflexivity.
    + split; [exact Hnl |]. split; [exact Hsp |]. split; [exact Hnl |].
      split; [reflexivity |]. unfold INT_MAX. simpl. lia.
    + repeat constructor.
    + reflexivity.
    + cbn [PrintPPM.separated PrintPPM.p3_body PrintPPM.r PrintPPM.g PrintPPM.b].
      split; [constructor |]. split; [exact Hsp |]. split; [exact Hsp |].
      unfold INT_MAX. simpl. lia.
    + reflexivity.
Defined.

(** C8 as stated fails. A P3 file that ends after the header of a 1x1
    image is truncated, and [loadPPM] returns success with a pixel of
    zeros; a P6 file of one pixel whose header has a comment line is valid,
    and [loadPPM] returns success with the size 0x0 it was called with and
    no pixel. *)
Lemma loadPPM_accepts_truncated_and_misreads_comments :
  PrintPPM.loadPPM
    (mkFs {["t.ppm" := ["P"%byte; "3"%byte; x0a; "1"%byte; " "%byte; "1"%byte; x0a;
                        "2"%byte; "5"%byte; "5"%byte; x0a]]} (λ _, true))
    "t.ppm" (PrintPPM.mkArgs [] 0 0 []) =
    Ret (true, PrintPPM.mkArgs [[PrintPPM.mkRGB 0 0 0]] 1 1 PrintPPM.P3) ∧
  PrintPPM.loadPPM
    (mkFs {["c.ppm" := ["P"%byte; "6"%byte; x0a; "#"%byte; "c"%byte; x0a;
                        "1"%byte; " "%byte; "1"%byte; x0a;
                        "2"%byte; "5"%byte; "5"%byte; x0a; x01; x02; x03]]} (λ _, true))
    "c.ppm" (PrintPPM.mkArgs [] 0 0 []) =
    Ret (true, PrintPPM.mkArgs [] 0 0 P6).
Proof. split; reflexivity. Qed.

(** * Further properties *)

(** ** The transforms *)

Lemma for_each_skip {S} (idx : list Z) (body : Z → S → outcome S) (s : S) :
  (∀ i, i ∈ idx → body i s = Ret s) → for_each idx body s = Ret s.
Proof.
  induction idx as [|i idx IH]; intros Hbody; [done |].
  simpl. rewrite Hbody, bind_Ret by (apply elem_of_cons; auto).
  apply IH. intros i' Hi'. apply Hbody, elem_of_cons. auto.
Qed.

Lemma channel_sum_uniform (sel : RGB → byte) (image : Image) (p : RGB)
    (cells : list (Z * Z)) :
  (∀ cell, cell ∈ cells → get_pixel image cell.1 cell.2 = Ret p) →
  channel_sum sel image cells = chan (sel p) * Z.of_nat (length cells).
Proof.
  induction cells as [|cell cells IH]; intros Hcells; [simpl; lia |].
  rewrite channel_sum_cons, IH.
  - unfold channel_at. rewrite Hcells by (apply elem_of_cons; auto).
    cbn [length]. lia.
  - intros cell' Hcell'. apply Hcells, elem_of_cons. auto.
Qed.

Lemma box_in_range (image : Image) (i j : Z) (cell : Z * Z) :
  rectangular image →
  1 ≤ i < Z.of_nat (height image) - 1 → 1 ≤ j < Z.of_nat (width image) - 1 →
  cell ∈ box i j → ∃ q, get_pixel image cell.1 cell.2 = Ret q.
Proof.
  intros Hrect Hi Hj Hcell. destruct cell as [x y]. unfold box in Hcell.
  apply list_elem_of_bind in Hcell as (dx & Hcell & Hdx).
  apply list_elem_of_bind in Hcell as (dy & Hcell & Hdy).
  apply list_elem_of_singleton in Hcell as [= -> ->].
  assert (-1 ≤ dx ≤ 1) by (set_unfold; lia).
  assert (-1 ≤ dy ≤ 1) by (set_unfold; lia).
  apply get_pixel_in_range; [done | simpl; lia | simpl; lia].
Qed.

Lemma get_pixel_for_pixels (f : RGB → RGB) (image : Image) (i j : Z) :
  get_pixel (for_pixels f image) i j =
    match get_pixel image i j with
    | Ret p => Ret (f p)
    | other => other
    end.
Proof.
  unfold get_pixel, at_, for_pixels. destruct (i <? 0); [done |].
  rewrite list_lookup_fmap. destruct (image !! Z.to_nat i) as [row|]; [| done].
  simpl. destruct (j <? 0); [done |].
  rewrite list_lookup_fmap. by destruct (row !! Z.to_nat j).
Qed.

Lemma fits_int_same_shape (image out : Image) :
  shape out = shape image → fits_int image → fits_int out.
Proof.
  intros Hshape [Hh Hw]. destruct (same_shape image out Hshape) as (_ & Hh' & Hw').
  unfold fits_int. by rewrite Hh', Hw'.
Qed.

(** X1. [invert] is its own inverse: inverting a buffer twice gives the
    buffer back, whatever its shape. *)
Theorem invert_involutive (image : Image) : invert (invert image) = image.
Proof.
  unfold invert. rewrite for_pixels_compose. apply for_pixels_id.
  intros [cr cg cb]. unfold invert_pixel. simpl.
  by rewrite !invert_channel_involutive.
Qed.

(** X2. [grayscale] is idempotent: a second application changes nothing,
    since the mean of three equal channels is that channel. *)
Theorem grayscale_idempotent (image : Image) :
  grayscale (grayscale image) = grayscale image.
Proof.
  unfold grayscale. rewrite for_pixels_compose. unfold for_pixels.
  apply list_fmap_ext. intros _ row _. apply list_fmap_ext. intros _ [cr cg cb] _.
  unfold grayscale_pixel. simpl.
  pose proof (chan_range cr). pose proof (chan_range cg). pose proof (chan_range cb).
  set (v := (chan cr + chan cg + chan cb) `quot` 3).
  assert (0 ≤ v ≤ 255) as Hv.
  { unfold v. rewrite Z.quot_div_nonneg by lia. split.
    - apply Z.div_pos; lia.
    - apply Z.div_le_upper_bound; lia. }
  rewrite chan_uchar by done.
  replace ((v + v + v) `quot` 3) with v; [done |].
  rewrite Z.quot_div_nonneg by lia.
  replace (v + v + v) with (v * 3) by lia. by rewrite Z.div_mul.
Qed.



(** X4. [mirror] is its own inverse on a buffer of at least five columns:
    a second call completes too and gives the buffer back. *)
Theorem mirror_twice (image : Image) :
  fits_int image → (1 ≤ height image)%nat → (5 ≤ width image)%nat →
  mirror image ≫= mirror = Ret image.
Proof.
  intros Hfits Hh Hw. rewrite mirror_wide_spec, bind_Ret by done.
  rewrite mirror_wide_spec.
  - f_equal. rewrite <- list_fmap_compose. rewrite <- (list_fmap_id image) at 2.
    apply list_fmap_ext. intros _ row _. apply reverse_involutive.
  - apply (fits_int_same_shape image); [apply shape_reverse | done].
  - by rewrite height_fmap.
  - by rewrite width_reverse.
Qed.

Lemma mirror_twice_witness : mirror (sample 2 5) ≫= mirror = Ret (sample 2 5).
Proof.
  apply (mirror_twice (sample 2 5)).
  - split; vm_compute; discriminate.
  - vm_compute. lia.
  - vm_compute. lia.
Defined.

(** X5. [blur] returns a buffer with fewer than three rows, or fewer than
    three columns, as it is: such a buffer has no interior pixel. Its rows
    need not have the same length. *)
Theorem blur_small_unchanged (image : Image) :
  fits_int image → (1 ≤ height image)%nat →
  (height image < 3)%nat ∨ (width image < 3)%nat →
  blur image = Ret image.
Proof.
  intros [Hfh Hfw] Hh Hsmall. unfold blur.
  rewrite row0_size_spec, bind_Ret by done.
  rewrite int_size_id by done. fold (height image). unfold for_range.
  destruct Hsmall as [Hsmall | Hsmall].
  - rewrite seqZ_nil by lia. done.
  - apply for_each_skip. intros i _. rewrite seqZ_nil by lia. done.
Qed.

Lemma blur_small_unchanged_witness : blur (sample 2 7) = Ret (sample 2 7).
Proof.
  apply (blur_small_unchanged (sample 2 7)).
  - split; vm_compute; discriminate.
  - vm_compute. lia.
  - left. vm_compute. lia.
Defined.

(** X6. [blur] returns a rectangular buffer of one colour as it is: the
    mean of nine equal values is that value. *)
Theorem blur_uniform_unchanged (image : Image) (p : RGB) :
  rectangular image → fits_int image → (1 ≤ height image)%nat →
  (∀ i j q, get_pixel image i j = Ret q → q = p) →
  blur image = Ret image.
Proof.
  intros Hrect Hfits Hh Hp.
  destruct (blur_spec image Hrect Hfits Hh) as (image' & -> & Hshape & Hpix).
  f_equal. apply grid_ext; [done |].
  intros i j q Hq. rewrite Hpix. case_decide as Hin; [| done].
  destruct Hin as [Hi Hj]. rewrite (Hp i j q Hq). f_equal.
  assert (∀ sel, uchar (channel_sum sel image (box i j) `quot` 9) = sel p) as Hmean.
  { intros sel. rewrite (channel_sum_uniform sel image p).
    - change (Z.of_nat (length (box i j))) with 9.
      rewrite Z.quot_mul by lia. apply uchar_chan.
    - intros cell Hcell.
      destruct (box_in_range image i j cell Hrect Hi Hj Hcell) as [q' Hq'].
      by rewrite Hq', (Hp _ _ _ Hq'). }
  unfold blur_value. rewrite !Hmean. by destruct p.
Qed.

Lemma blur_uniform_unchanged_witness :
  blur (replicate 4 (replicate 5 (px 7))) = Ret (replicate 4 (replicate 5 (px 7))).
Proof.
  apply (blur_uniform_unchanged (replicate 4 (replicate 5 (px 7))) (px 7)).
  - repeat constructor.
  - split; vm_compute; discriminate.
  - vm_compute. lia.
  - intros i j q Hq.
    apply (get_pixel_fmap id (replicate 4 (replicate 5 (px 7)))) in Hq
      as (row & q' & Hrow & Hq' & -> & _).
    apply lookup_replicate in Hrow as [-> _].
    by apply lookup_replicate in Hq' as [-> _].
Defined.

(** X7. The pixel-by-pixel transforms commute with [compress] and with
    [mirror]: applying a pixel map [f] (as [grayscale], [invert] and
    [contrast] do) before one of them gives the same buffer as applying it
    afterwards. *)
Theorem pixel_map_commutes (f : RGB → RGB) (image : Image) :
  rectangular image → fits_int image → (1 ≤ height image)%nat →
  (∃ out, compress image = Ret out ∧
     compress (for_pixels f image) = Ret (for_pixels f out)) ∧
  ((5 ≤ width image)%nat →
   ∃ out, mirror image = Ret out ∧
     mirror (for_pixels f image) = Ret (for_pixels f out)).
Proof.
  intros Hrect Hfits Hh.
  pose proof (shape_for_pixels f image) as Hshape.
  destruct (same_shape image (for_pixels f image) Hshape) as (Hrect' & Hh' & Hw').
  pose proof (fits_int_same_shape image _ Hshape Hfits) as Hfits'.
  split.
  - destruct (compress_spec image Hrect Hfits Hh) as (out & Hrun & Hout & Hpix).
    destruct (compress_spec (for_pixels f image)) as (out' & Hrun' & Hout' & Hpix');
      [by apply Hrect' | done | lia |].
    exists out. split; [done |]. rewrite Hrun'. f_equal.
    rewrite Hh', Hw' in Hout', Hpix'.
    apply grid_ext; [by rewrite shape_for_pixels, Hout, Hout' |].
    intros i j q Hq. rewrite get_pixel_for_pixels in Hq.
    destruct (get_pixel out i j) as [p| |] eqn:Hp; try done.
    assert (0 ≤ i < Z.of_nat (height image / 2) ∧ 0 ≤ j < Z.of_nat (width image / 2))
      as [Hi Hj].
    { assert (∃ p, get_pixel out i j = Ret p) as Hdef by eauto.
      apply get_pixel_defined in Hdef as (n & Hn & Hi & Hj).
      rewrite Hout in Hn. apply lookup_replicate in Hn as [-> Hlt]. lia. }
    rewrite Hpix', get_pixel_for_pixels, <- Hpix, Hp by done. done.
  - intros Hw. exists (reverse <$> image).
    rewrite !mirror_wide_spec by (done || lia). split; [done |]. f_equal.
    unfold for_pixels. rewrite <- !list_fmap_compose.
    apply list_fmap_ext. intros _ row _. simpl. symmetry. apply fmap_reverse.
Qed.

Lemma pixel_map_commutes_witness :
  (∃ out, compress (sample 4 6) = Ret out ∧
     compress (for_pixels invert_pixel (sample 4 6)) =
       Ret (for_pixels invert_pixel out)) ∧
  ((5 ≤ width (sample 4 6))%nat →
   ∃ out, mirror (sample 4 6) = Ret out ∧
     mirror (for_pixels invert_pixel (sample 4 6)) =
       Ret (for_pixels invert_pixel out)).
Proof.
  apply (pixel_map_commutes invert_pixel (sample 4 6)).
  - repeat constructor.
  - split; vm_compute; discriminate.
  - vm_compute. lia.
Defined.

Lemma channel_sum_bounds (sel : RGB → byte) (image : Image) (lo hi : Z)
    (cells : list (Z * Z)) :
  (∀ cell, cell ∈ cells → lo ≤ channel_at sel image cell ≤ hi) →
  lo * Z.of_nat (length cells) ≤ channel_sum sel image cells ≤
  hi * Z.of_nat (length cells).
Proof.
  induction cells as [|cell cells IH]; intros Hcells; [simpl; lia |].
  rewrite channel_sum_cons. cbn [length].
  pose proof (Hcells cell ltac:(apply elem_of_cons; auto)).
  assert (∀ cell', cell' ∈ cells → lo ≤ channel_at sel image cell' ≤ hi) as Hrest.
  { intros cell' Hcell'. apply Hcells, elem_of_cons. auto. }
  specialize (IH Hrest). lia.
Qed.

(** The mean over the box lies between the bounds of its cells. *)
Lemma box_mean_bounds (sel : RGB → byte) (image : Image) (lo hi : byte) (i j : Z) :
  (∀ cell, cell ∈ box i j → chan lo ≤ channel_at sel image cell ≤ chan hi) →
  chan lo ≤ chan (uchar (channel_sum sel image (box i j) `quot` 9)) ≤ chan hi.
Proof.
  intros Hcells.
  pose proof (channel_sum_bounds sel image _ _ _ Hcells) as Hsum.
  change (Z.of_nat (length (box i j))) with 9 in Hsum.
  pose proof (chan_range lo). pose proof (chan_range hi).
  rewrite Z.quot_div_nonneg by lia.
  assert (chan lo ≤ channel_sum sel image (box i j) `div` 9 ≤ chan hi) as Hmean.
  { split.
    - apply Z.div_le_lower_bound; lia.
    - apply Z.div_le_upper_bound; lia. }
  rewrite chan_uchar; lia.
Qed.

(** X8. [blur] does not widen the range of a channel: when every pixel of
    a rectangular buffer has each channel between the channels of [lo] and
    of [hi], so has every pixel of the blurred buffer. *)
Theorem blur_keeps_channel_range (image : Image) (lo hi : RGB) :
  rectangular image → fits_int image → (1 ≤ height image)%nat →
  (∀ i j p, get_pixel image i j = Ret p → within lo hi p) →
  ∃ out, blur image = Ret out ∧
    ∀ i j p, get_pixel out i j = Ret p → within lo hi p.
Proof.
  intros Hrect Hfits Hh Hrange.
  destruct (blur_spec image Hrect Hfits Hh) as (out & -> & _ & Hpix).
  exists out. split; [done |]. intros i j p. rewrite Hpix.
  case_decide as Hin; [| apply Hrange]. destruct Hin as [Hi Hj]. intros [= <-].
  assert (∀ cell, cell ∈ box i j →
            ∃ q, get_pixel image cell.1 cell.2 = Ret q ∧ within lo hi q) as Hbox.
  { intros cell Hcell.
    destruct (box_in_range image i j cell Hrect Hi Hj Hcell) as [q Hq]. eauto. }
  unfold within, blur_value. cbn [r g b].
  split; [| split]; apply box_mean_bounds; intros cell Hcell;
    destruct (Hbox cell Hcell) as (q & Hq & Hr & Hg & Hb);
    unfold channel_at; rewrite Hq; done.
Qed.

Lemma blur_keeps_channel_range_witness :
  ∃ out, blur (replicate 4 (replicate 5 (px 7))) = Ret out ∧
    ∀ i j p, get_pixel out i j = Ret p → within (px 7) (px 7) p.
Proof.
  apply (blur_keeps_channel_range (replicate 4 (replicate 5 (px 7))) (px 7) (px 7)).
  - repeat constructor.
  - split; vm_compute; discriminate.
  - vm_compute. lia.
  - intros i j q Hq.
    apply (get_pixel_fmap id (replicate 4 (replicate 5 (px 7)))) in Hq
      as (row & q' & Hrow & Hq' & -> & _).
    apply lookup_replicate in Hrow as [-> _].
    apply lookup_replicate in Hq' as [-> _].
    unfold within, id. lia.
Defined.

(** ** The codec *)

(** What [os << n] writes for a negative [n]. *)
Lemma print_int_neg (n : Z) :
  n < 0 →
  ∃ digits, print_int n = "-"%byte :: digits ∧ digits ≠ [] ∧
    Forall (λ c, isdigit c = true) digits ∧ decimal_value digits = - n.
Proof.
  intros Hn. destruct n as [|p|p]; [lia | lia |]. unfold print_int. simpl.
  exists (bytes_of_uint (Pos.to_uint p)). split; [done |]. split.
  - pose proof (Unsigned.to_uint_nonnil p) as Hnil.
    destruct (Pos.to_uint p); [done | ..]; done.
  - split; [apply bytes_of_uint_digits |].
    rewrite decimal_value_uint, DecimalPos.Unsigned.of_to. lia.
Qed.

(** Extraction of any [int] that [print_int] wrote. *)
Lemma extract_int_printed (space rest : list byte) (n val : Z) :
  Forall (λ c, isspace c = true) space →
  INT_MIN ≤ n ≤ INT_MAX → stops isdigit rest →
  extract_int (mkIstream (space ++ print_int n ++ rest) false false) val =
    (mkIstream rest (is_nil rest) false, n).
Proof.
  intros Hspace Hn Hrest. destruct (Z.le_gt_cases 0 n) as [Hpos | Hneg].
  { apply extract_int_print; [done | lia | done]. }
  destruct (print_int_neg n) as (digits & -> & Hnil & Hdigits & Hval); [lia |].
  unfold extract_int, good. cbn [eofbit failbit buf negb andb].
  rewrite drop_while_app; [| done | done].
  cbn [app]. rewrite take_while_app, drop_while_app by done.
  destruct digits as [|c digits]; [done |]. rewrite Hval.
  unfold INT_MIN, INT_MAX in *.
  destruct (Z.ltb_spec (- - n) (-2147483648)); [lia |].
  destruct (Z.ltb_spec 2147483647 (- - n)); [lia |].
  by rewrite Z.opp_involutive.
Qed.

(** The characters of a printed [int]: at least one, none of them a
    newline, and the first one neither '#' nor whitespace. *)
Lemma print_int_chars (n : Z) (l : list byte) :
  Forall (λ c, is_newline c = false) (print_int n) ∧
  skipped (print_int n ++ l) = false ∧
  stops isspace (print_int n ++ l) ∧
  print_int n ≠ [].
Proof.
  destruct (Z.le_gt_cases 0 n) as [Hpos | Hneg].
  - destruct (print_int_nonneg n Hpos) as (Hdigits & Hnil & _).
    split; [by apply print_int_no_newline |].
    destruct (print_int n) as [|c digits]; [done |].
    apply Forall_cons in Hdigits as [Hc _].
    split; [by apply skipped_digit |]. split; [| done].
    by apply isdigit_not_space.
  - destruct (print_int_neg n) as (digits & -> & _ & Hdigits & _); [lia |].
    split; [| done]. constructor; [done |].
    eapply Forall_impl; [exact Hdigits |]. intros c Hc.
    by apply isdigit_not_sign in Hc as (_ & _ & _ & ?).
Qed.

Lemma lines_text_cons (line : list byte) (lines : list (list byte)) :
  lines_text (line :: lines) = line ++ x0a :: lines_text lines.
Proof. unfold lines_text. rewrite bind_cons, <- app_assoc. done. Qed.

Lemma lines_text_length (lines : list (list byte)) :
  (length lines ≤ length (lines_text lines))%nat.
Proof.
  induction lines as [|line lines IH]; [done |].
  rewrite lines_text_cons, length_app. simpl. lia.
Qed.

(** The loop for the size passes over the lines it skips. *)
Lemma read_size_skips (lines : list (list byte)) (bound : nat)
    (rest old : list byte) (w h : Z) :
  Forall comment_line lines →
  read_size (length lines + bound)
    (mkIstream (lines_text lines ++ rest) false false) old w h =
  read_size bound (mkIstream rest false false) (default old (last lines)) w h.
Proof.
  intros Hlines. revert old.
  induction Hlines as [|line lines [Hskip Hline] _ IH]; intros old; [done |].
  rewrite lines_text_cons, <- app_assoc. cbn [length Nat.add read_size app].
  rewrite getline_line by done. cbn [failbit]. rewrite Hskip, IH.
  rewrite last_cons. by destruct (last lines).
Qed.

Lemma read_max_val_skips (lines : list (list byte)) (bound : nat)
    (rest old : list byte) (m : Z) :
  Forall comment_line lines →
  read_max_val (length lines + bound)
    (mkIstream (lines_text lines ++ rest) false false) old m =
  read_max_val bound (mkIstream rest false false) (default old (last lines)) m.
Proof.
  intros Hlines. revert old.
  induction Hlines as [|line lines [Hskip Hline] _ IH]; intros old; [done |].
  rewrite lines_text_cons, <- app_assoc. cbn [length Nat.add read_max_val app].
  rewrite getline_line by done. cbn [failbit]. rewrite Hskip, IH.
  rewrite last_cons. by destruct (last lines).
Qed.

(** The loop for the size on the line "width height". *)
Lemma read_size_line (bound : nat) (w h w0 h0 : Z) (old rest : list byte) :
  INT_MIN ≤ w ≤ INT_MAX → INT_MIN ≤ h ≤ INT_MAX →
  read_size (S bound)
    (mkIstream ((print_int w ++ " "%byte :: print_int h) ++ x0a :: rest) false false)
    old w0 h0 =
    Ret (mkIstream rest false false, print_int w ++ " "%byte :: print_int h, w, h).
Proof.
  intros Hw Hh.
  destruct (print_int_chars w (" "%byte :: print_int h)) as (Hwn & Hwskip & _ & _).
  destruct (print_int_chars h []) as (Hhn & _ & _ & _).
  cbn [read_size]. rewrite getline_line.
  2: { apply Forall_app. split; [done |]. by constructor. }
  cbn [failbit]. rewrite Hwskip.
  rewrite (extract_int_printed [] (" "%byte :: print_int h) w) by (done || constructor).
  rewrite <- (app_nil_r (print_int h)).
  rewrite (extract_int_printed [" "%byte] [] h) by (done || by repeat constructor).
  done.
Qed.

(** The loop for the maximum value on a line that holds a number. *)
Lemma read_max_val_line (bound : nat) (m m0 : Z) (old rest : list byte) :
  INT_MIN ≤ m ≤ INT_MAX →
  read_max_val (S bound) (mkIstream (print_int m ++ x0a :: rest) false false) old m0 =
    Ret (mkIstream rest false false, m).
Proof.
  intros Hm. destruct (print_int_chars m []) as (Hmn & Hmskip & _ & _).
  cbn [read_max_val]. rewrite getline_line by done.
  cbn [failbit]. rewrite app_nil_r in Hmskip. rewrite Hmskip.
  rewrite <- (app_nil_r (print_int m)).
  rewrite (extract_int_printed [] [] m) by (done || constructor).
  done.
Qed.

(** The header part of [readPPM] on a header with comments. *)
Lemma read_header_commented (before_size before_max : list (list byte))
    (w h m : Z) (data : list byte) :
  Forall comment_line before_size → Forall comment_line before_max →
  INT_MIN ≤ w ≤ INT_MAX → INT_MIN ≤ h ≤ INT_MAX → INT_MIN ≤ m ≤ INT_MAX →
  read_header (commented_header before_size before_max w h m ++ data) =
    if m =? 255 then Ret (mkIstream data false false, w, h)
    else Throw (UnsupportedMaxValue m).
Proof.
  intros Hbs Hbm Hw Hh Hm. unfold read_header, commented_header.
  set (size_line := print_int w ++ " "%byte :: print_int h).
  rewrite <- !app_assoc.
  rewrite (extract_word_token P6 [x0a]); [| done | by repeat constructor | ].
  2: { split; [done | by repeat constructor]. }
  rewrite bool_decide_eq_true_2 by done. cbn [negb buf].
  set (tail := lines_text before_max ++ print_int m ++ [x0a] ++ data).
  assert ([x0a] ++ lines_text before_size ++ size_line ++ [x0a] ++ tail =
          lines_text ([] :: before_size) ++ (size_line ++ x0a :: tail)) as ->.
  { by rewrite lines_text_cons. }
  assert (∃ bound, S (length (lines_text ([] :: before_size) ++ size_line ++ x0a :: tail))
                   = (length ([] :: before_size) + S bound)%nat) as [bound ->].
  { exists (length (lines_text ([] :: before_size) ++ size_line ++ x0a :: tail)
            - length ([] :: before_size))%nat.
    pose proof (lines_text_length ([] :: before_size)).
    rewrite length_app in *. lia. }
  rewrite read_size_skips by (constructor; [by split | done]).
  subst size_line. rewrite read_size_line, bind_Ret by done. cbn [buf]. subst tail.
  assert (∃ bound, S (length (lines_text before_max ++ print_int m ++ [x0a] ++ data))
                   = (length before_max + S bound)%nat) as [bound' ->].
  { exists (length (lines_text before_max ++ print_int m ++ [x0a] ++ data)
            - length before_max)%nat.
    pose proof (lines_text_length before_max).
    rewrite length_app in *. lia. }
  rewrite read_max_val_skips by done.
  cbn [app]. rewrite read_max_val_line, bind_Ret by done.
  by destruct (m =? 255).
Qed.

Lemma pixels_of_bytes_length (n : nat) (bytes : list byte) :
  length bytes = (3 * n)%nat → length (pixels_of_bytes bytes) = n.
Proof.
  revert bytes. induction n as [|n IH]; intros bytes Hlen.
  - by destruct bytes.
  - destruct bytes as [|c0 [|c1 [|c2 bytes]]]; simpl in Hlen; try lia.
    simpl. rewrite IH; [done | lia].
Qed.

(** One iteration of the loop over the rows keeps the shape of the
    buffer, when it returns. *)
Lemma read_row_shape (w i : Z) (rows : nat) (st st' : istream * Image) :
  0 ≤ w → shape st.2 = replicate rows (Z.to_nat w) →
  read_row w i st = Ret st' → shape st'.2 = replicate rows (Z.to_nat w).
Proof.
  intros Hw Hshape. destruct st as [file image]. unfold read_row, mul_int.
  destruct (in_int (w * 3)); [| done]. rewrite bind_Ret.
  unfold at_. destruct (Z.ltb_spec i 0); [done |].
  destruct (image !! Z.to_nat i) as [row|] eqn:Hrow; [| done].
  destruct (read file (w * 3)) as [file' got].
  destruct (Z.eqb_spec (Z.of_nat (length got)) (w * 3)) as [Hgot|]; [| done].
  cbn [negb]. intros [= <-]. cbn [snd] in *.
  assert (length row = Z.to_nat w) as Hlen.
  { pose proof (f_equal (λ s, s !! Z.to_nat i) Hshape) as Hi. simpl in Hi.
    rewrite shape_lookup, Hrow in Hi. simpl in Hi. symmetry in Hi.
    apply lookup_replicate in Hi as [Hi _]. done. }
  assert (length (overwrite_row row got) = Z.to_nat w) as Hlen'.
  { unfold overwrite_row. apply pixels_of_bytes_length.
    rewrite length_app, length_drop, bytes_of_row_length. lia. }
  unfold shape. rewrite list_fmap_insert, Hlen'. fold (shape image).
  rewrite Hshape. apply list_insert_id, lookup_replicate_2.
  apply lookup_lt_Some in Hrow. rewrite <- shape_length, Hshape in Hrow.
  by rewrite length_replicate in Hrow.
Qed.

(** The second part of [readPPM] returns a buffer of the size it was
    given, when it returns. *)
Lemma read_pixels_shape (file : istream) (w h : Z) (image : Image) :
  read_pixels file w h = Ret image →
  0 ≤ w ∧ 0 ≤ h ∧ shape image = replicate (Z.to_nat h) (Z.to_nat w).
Proof.
  unfold read_pixels, make_vector.
  destruct (Z.ltb_spec w 0); [done |]. destruct (Z.ltb_spec h 0); [done |].
  rewrite !bind_Ret. unfold for_range.
  destruct (for_each _ _ _) as [[file' image']| |] eqn:Hrows; [| done | done].
  rewrite bind_Ret. destruct (print_first_pixels _ _ _); [| done | done].
  rewrite bind_Ret. intros [= <-]. split; [done |]. split; [done |].
  apply (for_each_preserves
           (λ st : istream * Image, shape st.2 = replicate (Z.to_nat h) (Z.to_nat w)))
    in Hrows; [done | |].
  - intros i st st' Hst Hrow. by apply (read_row_shape w i _ st).
  - apply shape_replicate.
Qed.

(** Rows of no pixel: every iteration of the loop over the rows reads no
    byte and succeeds, whatever the state of the stream. *)
Lemma read_rows_empty (idx : list Z) (file : istream) (rows : nat) :
  (∀ i, i ∈ idx → 0 ≤ i < Z.of_nat rows) →
  ∃ file', for_each idx (read_row 0) (file, replicate rows []) =
             Ret (file', replicate rows []).
Proof.
  revert file. induction idx as [|i idx IH]; intros file Hidx; [by eexists |].
  cbn [for_each]. unfold read_row at 2. cbn [mul_int Z.mul in_int].
  assert (0 ≤ i < Z.of_nat rows) as Hi by (apply Hidx, elem_of_cons; auto).
  change (mul_int 0 3) with (Ret (A := Z) 0). rewrite bind_Ret.
  unfold at_. destruct (Z.ltb_spec i 0); [lia |].
  rewrite lookup_replicate_2 by lia.
  assert (∃ file', read file 0 = (file', [])) as [file' ->].
  { unfold read. destruct (negb (good file)); [by eexists |].
    change (Z.to_nat 0) with 0%nat. rewrite take_0. by eexists. }
  change (Z.of_nat (length (@nil byte)) =? 0) with true. cbn [negb]. rewrite bind_Ret.
  change (overwrite_row [] []) with (@nil RGB).
  rewrite list_insert_id by (apply lookup_replicate_2; lia).
  apply IH. intros i' Hi'. apply Hidx, elem_of_cons. auto.
Qed.


(** [readPPM] on a header with comments followed by the pixel section of
    a rectangular buffer and by anything. *)
Lemma readPPM_commented (fs : filesystem) (filename : string)
    (before_size before_max : list (list byte)) (image : Image) (rest : list byte) :
  Forall comment_line before_size → Forall comment_line before_max →
  rectangular image → (1 ≤ height image)%nat → (1 ≤ width image)%nat →
  Z.of_nat (height image) ≤ INT_MAX → 3 * Z.of_nat (width image) ≤ INT_MAX →
  stops isspace (bytes_of_image image) →
  files fs !! filename =
    Some (commented_header before_size before_max
            (Z.of_nat (width image)) (Z.of_nat (height image)) 255 ++
          bytes_of_image image ++ rest) →
  readPPM fs filename = Ret image.
Proof.
  intros Hbs Hbm Hrect Hh Hw Hfh Hw3 Hstops Hfile. unfold readPPM. rewrite Hfile.
  rewrite read_header_commented by (unfold INT_MIN, INT_MAX in *; done || lia).
  cbn [Z.eqb Pos.eqb]. rewrite bind_Ret. by apply read_pixels_full.
Qed.

(** A header that ends before the line of the size, or before the line of
    the maximum value. *)
Lemma read_header_truncated (before_size before_max : list (list byte)) (w h : Z) :
  Forall comment_line before_size → Forall comment_line before_max →
  INT_MIN ≤ w ≤ INT_MAX → INT_MIN ≤ h ≤ INT_MAX →
  read_header (P6 ++ [x0a] ++ lines_text before_size) = Throw HeaderError ∧
  read_header (P6 ++ [x0a] ++ lines_text before_size ++
               (print_int w ++ " "%byte :: print_int h) ++ [x0a] ++
               lines_text before_max) = Throw MaxValueError.
Proof.
  intros Hbs Hbm Hw Hh.
  assert (Forall comment_line ([] :: before_size)) as Hbs'.
  { constructor; [by split | done]. }
  split.
  - unfold read_header.
    rewrite <- (app_nil_r (lines_text before_size)), <- ?app_assoc.
    rewrite (extract_word_token P6 [x0a]); [| done | by repeat constructor |].
    2: { split; [done | by repeat constructor]. }
    rewrite bool_decide_eq_true_2 by done. cbn [negb buf].
    change ([x0a] ++ lines_text before_size ++ [])
      with (lines_text ([] :: before_size) ++ []).
    assert (∃ bound, S (length (lines_text ([] :: before_size) ++ []))
                     = (length ([] :: before_size) + S bound)%nat) as [bound ->].
    { exists (length (lines_text ([] :: before_size) ++ [])
              - length ([] :: before_size))%nat.
      pose proof (lines_text_length ([] :: before_size)).
      rewrite length_app in *. lia. }
    by rewrite read_size_skips.
  - unfold read_header.
    set (size_line := print_int w ++ " "%byte :: print_int h).
    rewrite <- (app_nil_r (lines_text before_max)), <- ?app_assoc.
    rewrite (extract_word_token P6 [x0a]); [| done | by repeat constructor |].
    2: { split; [done | by repeat constructor]. }
    rewrite bool_decide_eq_true_2 by done. cbn [negb buf].
    set (tail := lines_text before_max ++ []).
    assert ([x0a] ++ lines_text before_size ++ size_line ++ [x0a] ++ tail =
            lines_text ([] :: before_size) ++ (size_line ++ x0a :: tail)) as ->.
    { by rewrite lines_text_cons. }
    assert (∃ bound, S (length (lines_text ([] :: before_size) ++ size_line ++ x0a :: tail))
                     = (length ([] :: before_size) + S bound)%nat) as [bound ->].
    { exists (length (lines_text ([] :: before_size) ++ size_line ++ x0a :: tail)
              - length ([] :: before_size))%nat.
      pose proof (lines_text_length ([] :: before_size)).
      rewrite length_app in *. lia. }
    rewrite read_size_skips by done.
    subst size_line. rewrite read_size_line, bind_Ret by done. cbn [buf]. subst tail.
    assert (∃ bound, S (length (lines_text before_max ++ []))
                     = (length before_max + S bound)%nat) as [bound' ->].
    { exists (length (lines_text before_max ++ []) - length before_max)%nat.
      pose proof (lines_text_length before_max).
      rewrite length_app in *. lia. }
    by rewrite read_max_val_skips.
Qed.

(** X9. Whenever [readPPM] returns a buffer, the buffer is rectangular
    and has exactly the height and the width read from the header of the
    file, neither of them negative. *)
Theorem readPPM_result_has_header_size (fs : filesystem) (filename : string)
    (image : Image) :
  readPPM fs filename = Ret image →
  ∃ content file w h,
    files fs !! filename = Some content ∧
    read_header content = Ret (file, w, h) ∧
    0 ≤ w ∧ 0 ≤ h ∧
    rectangular image ∧
    shape image = replicate (Z.to_nat h) (Z.to_nat w).
Proof.
  unfold readPPM. destruct (files fs !! filename) as [content|]; [| done].
  destruct (read_header content) as [[[file w] h]| |] eqn:Hheader; [| done | done].
  rewrite bind_Ret. intros (Hw & Hh & Hshape)%read_pixels_shape.
  exists content, file, w, h. repeat (split; [done |]).
  split; [| done]. by apply (rectangular_replicate (Z.to_nat h) (Z.to_nat w)).
Qed.

Lemma readPPM_result_has_header_size_witness :
  ∃ content file w h,
    files (mkFs {["in.ppm" := header 1 2 ++ replicate 6 x01]} (λ _, true)) !! "in.ppm" =
      Some content ∧
    read_header content = Ret (file, w, h) ∧
    0 ≤ w ∧ 0 ≤ h ∧
    rectangular [[mkRGB x01 x01 x01]; [mkRGB x01 x01 x01]] ∧
    shape [[mkRGB x01 x01 x01]; [mkRGB x01 x01 x01]] =
      replicate (Z.to_nat h) (Z.to_nat w).
Proof.
  apply (readPPM_result_has_header_size
           (mkFs {["in.ppm" := header 1 2 ++ replicate 6 x01]} (λ _, true)) "in.ppm").
  reflexivity.
Defined.

(** X10. The header loops of [readPPM] skip empty lines and lines that
    start with '#', before the line of the size and before the line of the
    maximum value, and bytes after the pixel data are ignored: a file with
    such a header, followed by the pixel section of a rectangular buffer
    whose first byte is not whitespace and then by anything, decodes to
    that buffer. *)
Theorem readPPM_skips_comments (fs : filesystem) (filename : string)
    (before_size before_max : list (list byte)) (image : Image) (rest : list byte) :
  Forall comment_line before_size → Forall comment_line before_max →
  rectangular image → (1 ≤ height image)%nat → (1 ≤ width image)%nat →
  Z.of_nat (height image) ≤ INT_MAX → 3 * Z.of_nat (width image) ≤ INT_MAX →
  stops isspace (bytes_of_image image) →
  files fs !! filename =
    Some (commented_header before_size before_max
            (Z.of_nat (width image)) (Z.of_nat (height image)) 255 ++
          bytes_of_image image ++ rest) →
  readPPM fs filename = Ret image.
Proof. apply readPPM_commented. Qed.

(** A 1x1 file with three comment lines and two bytes after its pixel. *)
Lemma readPPM_skips_comments_witness :
  readPPM
    (mkFs {["in.ppm" :=
              commented_header [["#"%byte; "a"%byte]; []] [["#"%byte]] 1 1 255 ++
              [x01; x02; x03] ++ [x04; x05]]} (λ _, true))
    "in.ppm" = Ret [[mkRGB x01 x02 x03]].
Proof.
  apply (readPPM_skips_comments _ _ [["#"%byte; "a"%byte]; []] [["#"%byte]]
           [[mkRGB x01 x02 x03]] [x04; x05]).
  - repeat constructor.
  - repeat constructor.
  - repeat constructor.
  - simpl. lia.
  - simpl. lia.
  - vm_compute. discriminate.
  - vm_compute. discriminate.
  - reflexivity.
  - reflexivity.
Defined.

(** X11. A file whose header gives a maximum colour value other than 255
    is rejected with the "unsupported max color value" error that carries
    this value, whatever the size and whatever follows the header; the
    pixel data is not looked at. *)
Theorem readPPM_rejects_other_max_value (fs : filesystem) (filename : string)
    (before_size before_max : list (list byte)) (w h m : Z) (data : list byte) :
  Forall comment_line before_size → Forall comment_line before_max →
  INT_MIN ≤ w ≤ INT_MAX → INT_MIN ≤ h ≤ INT_MAX → INT_MIN ≤ m ≤ INT_MAX →
  m ≠ 255 →
  files fs !! filename = Some (commented_header before_size before_max w h m ++ data) →
  readPPM fs filename = Throw (UnsupportedMaxValue m).
Proof.
  intros Hbs Hbm Hw Hh Hm Hne Hfile. unfold readPPM. rewrite Hfile.
  rewrite read_header_commented by done.
  destruct (Z.eqb_spec m 255); done.
Qed.

(** A file with 16-bit samples. *)
Lemma readPPM_rejects_other_max_value_witness :
  readPPM
    (mkFs {["in.ppm" := commented_header [] [] 1 1 65535 ++ replicate 6 x01]} (λ _, true))
    "in.ppm" = Throw (UnsupportedMaxValue 65535).
Proof.
  apply (readPPM_rejects_other_max_value _ _ [] [] 1 1 65535 (replicate 6 x01)).
  - constructor.
  - constructor.
  - vm_compute. split; discriminate.
  - vm_compute. split; discriminate.
  - vm_compute. split; discriminate.
  - discriminate.
  - reflexivity.
Defined.

(** X12. A negative width or height in the header is not rejected as a
    format error: the size is parsed, and the construction of the vector
    of that size throws [std::length_error]. *)
Theorem readPPM_negative_size (fs : filesystem) (filename : string)
    (before_size before_max : list (list byte)) (w h : Z) (data : list byte) :
  Forall comment_line before_size → Forall comment_line before_max →
  INT_MIN ≤ w ≤ INT_MAX → INT_MIN ≤ h ≤ INT_MAX →
  w < 0 ∨ h < 0 →
  files fs !! filename =
    Some (commented_header before_size before_max w h 255 ++ data) →
  readPPM fs filename = Throw LengthError ∧ kind_of LengthError = None.
Proof.
  intros Hbs Hbm Hw Hh Hneg Hfile. split; [| done]. unfold readPPM. rewrite Hfile.
  rewrite read_header_commented by (done || by vm_compute).
  cbn [Z.eqb Pos.eqb]. rewrite bind_Ret. unfold read_pixels, make_vector.
  destruct (Z.ltb_spec w 0); [done |]. rewrite bind_Ret.
  destruct (Z.ltb_spec h 0); [done | lia].
Qed.

Lemma readPPM_negative_size_witness :
  readPPM
    (mkFs {["in.ppm" := commented_header [] [] 2 (-1) 255 ++ replicate 6 x01]} (λ _, true))
    "in.ppm" = Throw LengthError ∧ kind_of LengthError = None.
Proof.
  apply (readPPM_negative_size _ _ [] [] 2 (-1) (replicate 6 x01)).
  - constructor.
  - constructor.
  - vm_compute. split; discriminate.
  - vm_compute. split; discriminate.
  - right. lia.
  - reflexivity.
Defined.

(** X13. A header with width 0 or height 0 is accepted: [readPPM] reads
    no pixel byte and returns the buffer of that size, whatever follows the
    header. This is a buffer that [writePPM] rejects as empty. *)
Theorem readPPM_accepts_empty_size (fs : filesystem) (filename : string)
    (before_size before_max : list (list byte)) (w h : Z) (data : list byte) :
  Forall comment_line before_size → Forall comment_line before_max →
  0 ≤ w ≤ INT_MAX → 0 ≤ h ≤ INT_MAX →
  w = 0 ∨ h = 0 →
  files fs !! filename =
    Some (commented_header before_size before_max w h 255 ++ data) →
  readPPM fs filename = Ret (replicate (Z.to_nat h) (replicate (Z.to_nat w) RGB0)) ∧
  ∀ fs' output, writable fs' output = true →
    (writePPM fs' output (replicate (Z.to_nat h) (replicate (Z.to_nat w) RGB0))).2 =
      Throw EmptyImage.
Proof.
  intros Hbs Hbm Hw Hh Hzero Hfile. split.
  - unfold readPPM. rewrite Hfile.
    rewrite read_header_commented by (unfold INT_MIN, INT_MAX in *; done || lia).
    cbn [Z.eqb Pos.eqb]. rewrite bind_Ret. unfold read_pixels, make_vector.
    destruct (Z.ltb_spec w 0); [lia |]. destruct (Z.ltb_spec h 0); [lia |].
    rewrite !bind_Ret. unfold for_range, print_first_pixels, for_range.
    destruct (decide (h = 0)) as [-> | Hh0].
    + done.
    + assert (w = 0) as -> by lia. change (Z.to_nat 0) with 0%nat. cbn [replicate].
      destruct (read_rows_empty (seqZ 0 (h - 0)) (skip_space (mkIstream data false false))
                  (Z.to_nat h)) as [file' ->].
      { intros i Hi%elem_of_range. lia. }
      rewrite bind_Ret, for_each_unit; [done |].
      intros i _. done.
  - intros fs' output Hopen. unfold writePPM. rewrite Hopen. cbn [negb].
    unfold int_size at 1 2. rewrite length_replicate, Z2Nat.id by lia.
    rewrite to_int_id by (unfold INT_MIN, INT_MAX in *; lia).
    destruct (decide (h = 0)) as [-> | Hh0]; [done |].
    assert (w = 0) as -> by lia.
    destruct (Z.ltb_spec 0 h); [| lia].
    unfold at_. cbn [Z.ltb Z.compare Z.to_nat].
    rewrite lookup_replicate_2 by lia. done.
Qed.

Lemma readPPM_accepts_empty_size_witness :
  readPPM (mkFs {["in.ppm" := commented_header [] [] 0 2 255 ++ [x01]]} (λ _, true))
    "in.ppm" = Ret (replicate (Z.to_nat 2) (replicate (Z.to_nat 0) RGB0)) ∧
  ∀ fs' output, writable fs' output = true →
    (writePPM fs' output (replicate (Z.to_nat 2) (replicate (Z.to_nat 0) RGB0))).2 =
      Throw EmptyImage.
Proof.
  apply (readPPM_accepts_empty_size _ _ [] [] 0 2 [x01]).
  - constructor.
  - constructor.
  - vm_compute. split; discriminate.
  - vm_compute. split; discriminate.
  - left. reflexivity.
  - reflexivity.
Defined.

(** X14. For a rectangular buffer of at least 1x1 (small enough for the
    [int] arithmetic of the size check), at a path that can be opened,
    [writePPM] returns normally and leaves at that path exactly the line
    "P6", the line "width height", the line "255" and the rows of the
    buffer, three bytes a pixel: 9 bytes, the digits of the two numbers
    and [3 * width * height] bytes in all. *)
Theorem writePPM_writes_header_and_rows (fs : filesystem) (filename : string)
    (image : Image) :
  writable fs filename = true → writable_image image →
  (writePPM fs filename image).2 = Ret () ∧
  files (writePPM fs filename image).1 !! filename =
    Some (header (Z.of_nat (width image)) (Z.of_nat (height image)) ++
          bytes_of_image image) ∧
  length (header (Z.of_nat (width image)) (Z.of_nat (height image)) ++
          bytes_of_image image) =
    (9 + length (print_int (Z.of_nat (width image))) +
     length (print_int (Z.of_nat (height image))) +
     3 * width image * height image)%nat.
Proof.
  intros Hopen Himage. rewrite writePPM_ok by done. cbn [fst snd store files].
  split; [done |]. split; [apply lookup_insert_eq |].
  destruct Himage as (Hrect & _).
  rewrite length_app, (bytes_of_image_length image (width image)) by done.
  unfold header, P6. rewrite !length_app. unfold height. simpl. lia.
Qed.

Lemma writePPM_writes_header_and_rows_witness :
  (writePPM (mkFs ∅ (λ _, true)) "out.ppm" (sample 2 3)).2 = Ret () ∧
  files (writePPM (mkFs ∅ (λ _, true)) "out.ppm" (sample 2 3)).1 !! "out.ppm" =
    Some (header (Z.of_nat (width (sample 2 3))) (Z.of_nat (height (sample 2 3))) ++
          bytes_of_image (sample 2 3)) ∧
  length (header (Z.of_nat (width (sample 2 3))) (Z.of_nat (height (sample 2 3))) ++
          bytes_of_image (sample 2 3)) =
    (9 + length (print_int (Z.of_nat (width (sample 2 3)))) +
     length (print_int (Z.of_nat (height (sample 2 3)))) +
     3 * width (sample 2 3) * height (sample 2 3))%nat.
Proof.
  apply (writePPM_writes_header_and_rows (mkFs ∅ (λ _, true)) "out.ppm" (sample 2 3)).
  - reflexivity.
  - split; [repeat constructor |]. split; [simpl; lia |]. split; [simpl; lia |].
    vm_compute. discriminate.
Defined.



(** X16. A file that ends before the line of the size (after the magic
    number and any number of comment or empty lines) is rejected with the
    header error; one that ends before the line of the maximum value (after
    the line of the size and any number of comment or empty lines) is
    rejected with the error of the maximum value. Both are format errors. *)
Theorem readPPM_truncated_header (fs : filesystem) (filename : string)
    (before_size before_max : list (list byte)) (w h : Z) :
  Forall comment_line before_size → Forall comment_line before_max →
  INT_MIN ≤ w ≤ INT_MAX → INT_MIN ≤ h ≤ INT_MAX →
  readPPM (store fs filename (P6 ++ [x0a] ++ lines_text before_size)) filename =
    Throw HeaderError ∧
  readPPM (store fs filename
             (P6 ++ [x0a] ++ lines_text before_size ++
              (print_int w ++ " "%byte :: print_int h) ++ [x0a] ++
              lines_text before_max)) filename =
    Throw MaxValueError ∧
  kind_of HeaderError = Some FormatError ∧ kind_of MaxValueError = Some FormatError.
Proof.
  intros Hbs Hbm Hw Hh.
  destruct (read_header_truncated before_size before_max w h) as [Hsize Hmax];
    try done.
  unfold readPPM, store. cbn [files]. rewrite !lookup_insert_eq, Hsize, Hmax. done.
Qed.

Lemma readPPM_truncated_header_witness :
  readPPM (store (mkFs ∅ (λ _, true)) "in.ppm"
             (P6 ++ [x0a] ++ lines_text [["#"%byte]])) "in.ppm" =
    Throw HeaderError ∧
  readPPM (store (mkFs ∅ (λ _, true)) "in.ppm"
             (P6 ++ [x0a] ++ lines_text [["#"%byte]] ++
              (print_int 2 ++ " "%byte :: print_int 3) ++ [x0a] ++
              lines_text [[]; ["#"%byte; "x"%byte]])) "in.ppm" =
    Throw MaxValueError ∧
  kind_of HeaderError = Some FormatError ∧ kind_of MaxValueError = Some FormatError.
Proof.
  apply (readPPM_truncated_header (mkFs ∅ (λ _, true)) "in.ppm"
           [["#"%byte]] [[]; ["#"%byte; "x"%byte]] 2 3).
  - repeat constructor.
  - repeat constructor.
  - vm_compute. split; discriminate.
  - vm_compute. split; discriminate.
Defined.

(** ** The reader of print_ppm.cpp on the files of ppmio.cpp *)

(** X17. A file that [writePPM] of ppmio.cpp has written is read back in
    full by [loadPPM] of print_ppm.cpp, for every buffer that [writePPM]
    accepts, whatever the values of its bytes: [loadPPM] drops exactly one
    byte after the maximum value. It reports success, the width, the
    height, the tag "P6" and the grid of the pixels of the buffer. *)
Theorem loadPPM_reads_written_file (fs : filesystem) (filename : string)
    (image : Image) (a : PrintPPM.args) :
  writable fs filename = true → writable_image image → PrintPPM.image a = [] →
  PrintPPM.loadPPM (writePPM fs filename image).1 filename a =
    Ret (true, PrintPPM.mkArgs (map_grid PrintPPM.widen image)
                 (Z.of_nat (width image)) (Z.of_nat (height image)) P6).
Proof.
  intros Hopen Himage Hempty. rewrite writePPM_ok by done. cbn [fst].
  destruct (writable_image_fits image Himage) as (Hfh & Hfw & _).
  destruct Himage as (Hrect & Hh & Hw & _).
  rewrite (loadPPM_header _ _ _ P6 [x0a] [" "%byte] [x0a] (bytes_of_image image)
             (Z.of_nat (width image)) (Z.of_nat (height image)) 255 x0a).
  - unfold make_vector, PrintPPM.resize.
    destruct (Z.ltb_spec (Z.of_nat (width image)) 0); [lia |].
    destruct (Z.ltb_spec (Z.of_nat (height image)) 0); [lia |].
    rewrite !bind_Ret, Hempty, !Nat2Z.id. cbn [take app length].
    rewrite take_nil, Nat.sub_0_r. cbn [app].
    rewrite bool_decide_eq_false_2 by done.
    rewrite <- (app_nil_r (bytes_of_image image)). unfold height.
    rewrite load_binary_pixels; [done | done |]. apply shape_replicate.
  - unfold store. cbn [files]. by rewrite lookup_insert_eq.
  - by right.
  - split; [done | by repeat constructor].
  - split; [done | by repeat constructor].
  - split; [done | by repeat constructor].
  - lia.
  - lia.
  - by vm_compute.
  - done.
Qed.

(** The 1x1 buffer whose first byte is a space, which [readPPM] cannot
    read back. *)
Lemma loadPPM_reads_written_file_witness :
  PrintPPM.loadPPM
    (writePPM (mkFs ∅ (λ _, true)) "out.ppm" [[mkRGB " " x00 x00]]).1 "out.ppm"
    (PrintPPM.mkArgs [] 0 0 []) =
    Ret (true, PrintPPM.mkArgs (map_grid PrintPPM.widen [[mkRGB " " x00 x00]])
                 (Z.of_nat (width [[mkRGB " " x00 x00]]))
                 (Z.of_nat (height [[mkRGB " " x00 x00]])) P6).
Proof.
  apply (loadPPM_reads_written_file (mkFs ∅ (λ _, true)) "out.ppm"
           [[mkRGB " " x00 x00]] (PrintPPM.mkArgs [] 0 0 [])).
  - reflexivity.
  - split; [repeat constructor |]. split; [simpl; lia |]. split; [simpl; lia |].
    vm_compute. discriminate.
  - reflexivity.
Defined.

Section LoadPixelsShort.
Import PrintPPM.

(** The way one pixel is read, the stream before the k-th pixel and the
    value of that pixel; the read of pixel [n] has the fault [u]. *)
Context (read_pixel : istream → RGB → outcome (istream * RGB)).
Context (next : nat → istream) (px : nat → RGB) (h w n : nat) (u : fault).
Hypothesis Hread : ∀ k old, (k < n)%nat →
  read_pixel (next k) old = Ret (next (S k), px k).
Hypothesis Hfail : ∀ old, read_pixel (next n) old = Undefined u.

Lemma load_row_short (i : nat) (m : nat) :
  (i < h)%nat →
  ∀ (j : nat) (s : list (list RGB)),
    (j + m = w)%nat → shape s = replicate h w → (i * w + j ≤ n)%nat →
    ((n < S i * w)%nat ∧
     for_each (seqZ (Z.of_nat j) (Z.of_nat m)) (λ j '(file, image),
         p ← get_pixel image (Z.of_nat i) j;
         '(file, p) ← read_pixel file p;
         image ← set_pixel image (Z.of_nat i) j p;
         Ret (file, image)) (next (i * w + j), s) = Undefined u) ∨
    ((S i * w ≤ n)%nat ∧
     ∃ s', for_each (seqZ (Z.of_nat j) (Z.of_nat m)) (λ j '(file, image),
         p ← get_pixel image (Z.of_nat i) j;
         '(file, p) ← read_pixel file p;
         image ← set_pixel image (Z.of_nat i) j p;
         Ret (file, image)) (next (i * w + j), s) = Ret (next (S i * w), s') ∧
       shape s' = replicate h w).
Proof.
  intros Hi. induction m as [|m IH]; intros j s Hjm Hshape Hk.
  - right. split; [lia |]. exists s. split; [| done]. cbn [for_each seqZ].
    do 3 f_equal. lia.
  - rewrite seqZ_cons by lia. cbn [for_each].
    destruct (get_pixel_shape_replicate s h w (Z.of_nat i) (Z.of_nat j)) as [q Hq];
      [done | lia | lia |].
    rewrite Hq, bind_Ret.
    destruct (decide (i * w + j = n)%nat) as [Heq | Hne].
    + left. split; [lia |]. by rewrite Heq, Hfail.
    + rewrite Hread, bind_Ret by lia.
      destruct (set_pixel_spec s (Z.of_nat i) (Z.of_nat j) (px (i * w + j)) q Hq)
        as (s2 & Hset & Hs2 & _).
      rewrite Hset, !bind_Ret.
      replace (Z.succ (Z.of_nat j)) with (Z.of_nat (S j)) by lia.
      replace (Z.pred (Z.of_nat (S m))) with (Z.of_nat m) by lia.
      replace (S (i * w + j)) with (i * w + S j)%nat by lia.
      apply IH; [lia | congruence | lia].
Qed.

Lemma load_rows_short (m : nat) :
  ∀ (i : nat) (s : list (list RGB)),
    (i + m = h)%nat → shape s = replicate h w → (i * w ≤ n)%nat → (n < h * w)%nat →
    for_each (seqZ (Z.of_nat i) (Z.of_nat m)) (λ i,
      for_range 0 (Z.of_nat w) (λ j '(file, image),
        p ← get_pixel image i j;
        '(file, p) ← read_pixel file p;
        image ← set_pixel image i j p;
        Ret (file, image))) (next (i * w), s) = Undefined u.
Proof.
  unfold for_range. rewrite Z.sub_0_r.
  induction m as [|m IH]; intros i s Him Hshape Hk Hn.
  { assert (i = h) as -> by lia. lia. }
  rewrite seqZ_cons by lia. cbn [for_each].
  destruct (load_row_short i w ltac:(lia) 0%nat s) as [[_ Hrow] | (Hle & s' & Hrow & Hs')];
    [lia | done | lia | |].
  - rewrite Nat.add_0_r in Hrow. change (Z.of_nat 0) with 0 in Hrow.
    by rewrite Hrow.
  - rewrite Nat.add_0_r in Hrow. change (Z.of_nat 0) with 0 in Hrow.
    rewrite Hrow, bind_Ret.
    replace (Z.succ (Z.of_nat i)) with (Z.of_nat (S i)) by lia.
    replace (Z.pred (Z.of_nat (S m))) with (Z.of_nat m) by lia.
    apply IH; [lia | done | lia | done].
Qed.

Lemma load_pixels_short (image : list (list RGB)) :
  shape image = replicate h w → (n < h * w)%nat →
  load_pixels read_pixel (next 0) image (Z.of_nat h) (Z.of_nat w) = Undefined u.
Proof.
  intros Hshape Hn. unfold load_pixels. unfold for_range at 1. rewrite Z.sub_0_r.
  apply (load_rows_short h 0%nat image); [lia | done | lia | done].
Qed.
End LoadPixelsShort.

(** The P6 branch on fewer bytes than the grid needs. *)
Lemma load_binary_pixels_short (body : list byte) (h w : nat)
    (image0 : list (list PrintPPM.RGB)) :
  shape image0 = replicate h w → (length body < 3 * (h * w))%nat →
  PrintPPM.load_pixels PrintPPM.read_binary_pixel
    (mkIstream body false false) image0 (Z.of_nat h) (Z.of_nat w) =
    Undefined Indeterminate.
Proof.
  intros Hshape Hshort.
  pose proof (load_pixels_short PrintPPM.read_binary_pixel
                (λ k, mkIstream (drop (3 * k) body) false false)
                (λ k, match take 3 (drop (3 * k) body) with
                      | [c0; c1; c2] => PrintPPM.mkRGB (chan c0) (chan c1) (chan c2)
                      | _ => PrintPPM.RGB0
                      end)
                h w (length body / 3) Indeterminate) as Hload.
  cbv beta in Hload. rewrite Nat.mul_0_r, drop_0 in Hload. apply Hload; [| | done |].
  - intros k old Hk. unfold PrintPPM.read_binary_pixel, read, good.
    cbn [eofbit failbit buf negb andb]. change (Z.to_nat 3) with 3%nat.
    pose proof (Nat.Div0.mul_div_le (length body) 3).
    assert (length (take 3 (drop (3 * k) body)) = 3%nat) as Hlen.
    { rewrite length_take, length_drop. lia. }
    rewrite Hlen. cbn [Z.ltb Z.of_nat Z.compare Pos.of_succ_nat Pos.succ Pos.compare
                         Pos.compare_cont].
    rewrite drop_drop. replace (3 * k + 3)%nat with (3 * S k)%nat by lia.
    destruct (take 3 (drop (3 * k) body)) as [|c0 [|c1 [|c2 [|c3 l]]]]; done.
  - intros old. unfold PrintPPM.read_binary_pixel, read, good.
    cbn [eofbit failbit buf negb andb]. change (Z.to_nat 3) with 3%nat.
    pose proof (Nat.div_mod_eq (length body) 3).
    pose proof (Nat.mod_upper_bound (length body) 3).
    assert (length (take 3 (drop (3 * (length body / 3)) body)) < 3)%nat as Hlen.
    { rewrite length_take, length_drop. lia. }
    destruct (take 3 (drop (3 * (length body / 3)) body)) as [|c0 [|c1 [|c2 l]]];
      [done | done | done | simpl in Hlen; lia].
  - pose proof (Nat.Div0.div_lt_upper_bound (length body) 3 (h * w)). lia.
Qed.

(** X18. [loadPPM] on a P6 file with a well-formed header whose pixel
    section is too short: no failure is reported; the bytes of the array
    that the short read leaves unwritten are used as a pixel, which is
    undefined behaviour. *)
Theorem loadPPM_truncated_binary (fs : filesystem) (filename : string)
    (a : PrintPPM.args) (sp1 sp2 sp3 : list byte) (maxval : Z) (sep : byte)
    (h w : nat) (body : list byte) :
  PrintPPM.image a = [] →
  PrintPPM.well_formed_header sp1 sp2 sp3 (Z.of_nat w) (Z.of_nat h) maxval sep →
  (length body < 3 * (h * w))%nat →
  files fs !! filename =
    Some (PrintPPM.ppm_header P6 sp1 sp2 sp3 (Z.of_nat w) (Z.of_nat h) maxval sep ++
          body) →
  PrintPPM.loadPPM fs filename a = Undefined Indeterminate.
Proof.
  intros Hempty (Hsp1 & Hsp2 & Hsp3 & Hsep & Hw & Hh & Hmax) Hshort Hfile.
  rewrite (loadPPM_header _ _ _ _ _ _ _ _ _ _ _ _ Hfile);
    [| by right | done .. | by apply isspace_not_digit].
  unfold make_vector, PrintPPM.resize.
  destruct (Z.ltb_spec (Z.of_nat w) 0); [lia |].
  destruct (Z.ltb_spec (Z.of_nat h) 0); [lia |].
  rewrite !bind_Ret, Hempty, !Nat2Z.id. cbn [take app length].
  rewrite take_nil, Nat.sub_0_r. cbn [app].
  rewrite bool_decide_eq_false_2 by done.
  rewrite load_binary_pixels_short; [done | apply shape_replicate | done].
Qed.

(** A 2x1 file with the bytes of one pixel and a half. *)
Lemma loadPPM_truncated_binary_witness :
  PrintPPM.loadPPM
    (mkFs {["a.ppm" := PrintPPM.ppm_header P6 [x0a] [" "%byte] [x0a]
                         (Z.of_nat 2) (Z.of_nat 1) 255 x0a ++
                       [x01; x02; x03; x04]]} (λ _, true))
    "a.ppm" (PrintPPM.mkArgs [] 0 0 []) = Undefined Indeterminate.
Proof.
  apply (loadPPM_truncated_binary _ _ _ [x0a] [" "%byte] [x0a] 255 x0a 1 2
           [x01; x02; x03; x04]).
  - reflexivity.
  - assert (PrintPPM.blank [x0a] ∧ PrintPPM.blank [" "%byte]) as [Hnl Hsp].
    { split; (split; [discriminate | repeat constructor]). }
    split; [exact Hnl |]. split; [exact Hsp |]. split; [exact Hnl |].
    split; [reflexivity |]. unfold INT_MAX. simpl. lia.
  - simpl. lia.
  - reflexivity.
Defined.

(** *** The dump *)

Lemma bytes_of_uint_inj (u v : Decimal.uint) :
  bytes_of_uint u = bytes_of_uint v → u = v.
Proof.
  revert v. induction u as [|u IH|u IH|u IH|u IH|u IH|u IH|u IH|u IH|u IH|u IH];
    intros v; destruct v; simpl; intros Heq; try done; try discriminate Heq;
    injection Heq as Heq; f_equal; by apply IH.
Qed.

Lemma print_int_inj (n1 n2 : Z) : print_int n1 = print_int n2 → n1 = n2.
Proof.
  unfold print_int. intros Hprint.
  rewrite <- (DecimalZ.of_to n1), <- (DecimalZ.of_to n2).
  destruct (Z.to_int n1) as [u1|u1], (Z.to_int n2) as [u2|u2].
  - by rewrite (bytes_of_uint_inj u1 u2).
  - pose proof (bytes_of_uint_digits u1) as Hdigits. rewrite Hprint in Hdigits.
    by apply Forall_cons in Hdigits as [? _].
  - pose proof (bytes_of_uint_digits u2) as Hdigits. rewrite <- Hprint in Hdigits.
    by apply Forall_cons in Hdigits as [? _].
  - injection Hprint as Hprint. by rewrite (bytes_of_uint_inj u1 u2).
Qed.

(** A printed [int] holds digits and at most a sign. *)
Lemma print_int_no_delimiter (n : Z) (c : byte) :
  isdigit c = false → c ≠ "-"%byte → c ∉ print_int n.
Proof.
  intros Hc Hsign Hin. unfold print_int in Hin.
  assert (∀ u, c ∉ bytes_of_uint u) as Hdigits.
  { intros u Hu. pose proof (bytes_of_uint_digits u) as Hall.
    rewrite Forall_forall in Hall. specialize (Hall c Hu). congruence. }
  destruct (Z.to_int n) as [u|u].
  - by apply (Hdigits u).
  - apply elem_of_cons in Hin as [-> | Hin]; [done | by apply (Hdigits u)].
Qed.

(** Two texts that agree, each made of a part without [c], then [c]:
    the parts agree, and so does what follows. *)
Lemma delimited_inj {A} (c : A) (l1 l2 r1 r2 : list A) :
  c ∉ l1 → c ∉ l2 → l1 ++ c :: r1 = l2 ++ c :: r2 → l1 = l2 ∧ r1 = r2.
Proof.
  revert l2. induction l1 as [|x l1 IH]; intros l2 Hl1 Hl2 Heq.
  - destruct l2 as [|y l2]; [by injection Heq |].
    injection Heq as <- _. exfalso. apply Hl2, elem_of_cons. auto.
  - destruct l2 as [|y l2].
    + injection Heq as -> _. exfalso. apply Hl1, elem_of_cons. auto.
    + injection Heq as <- Heq.
      destruct (IH l2) as [-> ->]; [| | done | done].
      * intros Hin. apply Hl1, elem_of_cons. auto.
      * intros Hin. apply Hl2, elem_of_cons. auto.
Qed.

Lemma print_pixel_inj (p1 p2 : PrintPPM.RGB) (rest1 rest2 : list byte) :
  PrintPPM.print_pixel p1 ++ rest1 = PrintPPM.print_pixel p2 ++ rest2 →
  p1 = p2 ∧ rest1 = rest2.
Proof.
  unfold PrintPPM.print_pixel, PrintPPM.text. cbn [String.list_byte_of_string].
  change (String.list_byte_of_string "(") with ["("%byte].
  change (String.list_byte_of_string ", ") with [","%byte; " "%byte].
  change (String.list_byte_of_string ") ") with [")"%byte; " "%byte].
  rewrite <- !app_assoc. cbn [app]. intros [= Heq].
  apply delimited_inj in Heq as [Hr [= Heq]];
    [| by apply print_int_no_delimiter | by apply print_int_no_delimiter].
  apply delimited_inj in Heq as [Hg [= Heq]];
    [| by apply print_int_no_delimiter | by apply print_int_no_delimiter].
  apply delimited_inj in Heq as [Hb [= Heq]];
    [| by apply print_int_no_delimiter | by apply print_int_no_delimiter].
  apply print_int_inj in Hr, Hg, Hb. destruct p1, p2. simpl in *. by subst.
Qed.

Lemma print_row_inj (row1 row2 : list PrintPPM.RGB) (rest1 rest2 : list byte) :
  PrintPPM.print_row row1 ++ rest1 = PrintPPM.print_row row2 ++ rest2 →
  row1 = row2 ∧ rest1 = rest2.
Proof.
  unfold PrintPPM.print_row. rewrite <- !app_assoc. cbn [app].
  revert row2. induction row1 as [|p1 row1 IH]; intros row2 Heq.
  - destruct row2 as [|p2 row2]; [by injection Heq |].
    rewrite bind_cons in Heq. discriminate Heq.
  - destruct row2 as [|p2 row2].
    + rewrite bind_cons in Heq. discriminate Heq.
    + rewrite !bind_cons, <- !app_assoc in Heq.
      apply print_pixel_inj in Heq as [-> Heq].
      by destruct (IH row2 Heq) as [-> ->].
Qed.

(** X19. The dump that [printPPMPixels] prints determines the grid: two
    grids with the same dump have the same rows and the same pixels. The
    brackets and the commas keep the numbers and the rows apart. *)
Theorem printPPMPixels_inj (image1 image2 : list (list PrintPPM.RGB)) :
  PrintPPM.printPPMPixels image1 = PrintPPM.printPPMPixels image2 →
  image1 = image2.
Proof.
  unfold PrintPPM.printPPMPixels. intros Heq.
  apply app_inv_head in Heq. cbn [app] in Heq. injection Heq as Heq.
  revert image2 Heq. induction image1 as [|row1 image1 IH]; intros image2 Heq.
  - destruct image2 as [|[|p2 row2] image2]; [done | |];
      rewrite bind_cons in Heq; discriminate Heq.
  - destruct image2 as [|row2 image2].
    + destruct row1; rewrite bind_cons in Heq; discriminate Heq.
    + rewrite !bind_cons, <- !app_assoc in Heq.
      apply print_row_inj in Heq as [-> Heq]. by rewrite (IH image2 Heq).
Qed.

Lemma printPPMPixels_inj_witness :
  [[PrintPPM.mkRGB 1 22 3; PrintPPM.mkRGB 12 2 3]] =
  [[PrintPPM.mkRGB 1 22 3; PrintPPM.mkRGB 12 2 3]].
Proof.
  apply (printPPMPixels_inj [[PrintPPM.mkRGB 1 22 3; PrintPPM.mkRGB 12 2 3]]
           [[PrintPPM.mkRGB 1 22 3; PrintPPM.mkRGB 12 2 3]]).
  reflexivity.
Defined.

(** ** The driver *)

Lemma int_size_le {A} (v : list A) : int_size v ≤ Z.of_nat (length v).
Proof.
  unfold int_size, to_int.
  pose proof (Z.mod_le (Z.of_nat (length v) + 2147483648) 4294967296). lia.
Qed.

(** The reads made to print the pixels after a transform stay inside the
    buffer, whatever its shape. *)
Lemma print_pixels_ok (image : Image) : print_pixels image = Ret ().
Proof.
  unfold print_pixels, for_range. apply for_each_unit. intros i Hi%elem_of_range.
  pose proof (int_size_le image).
  destruct (at_in_range image i) as [row Hrow]; [lia |]. rewrite Hrow.
  apply for_each_unit. intros j Hj%elem_of_range.
  pose proof (int_size_le row).
  unfold get_pixel. rewrite Hrow.
  destruct (at_in_range row j) as [p ->]; [lia | done].
Qed.

(** A buffer with no row, or with rows of no pixel: the output file is
    created, or truncated, and left empty. *)
Lemma writePPM_empty (fs : filesystem) (filename : string) (image : Image)
    (rows cols : nat) :
  writable fs filename = true →
  shape image = replicate rows cols → rows = 0%nat ∨ cols = 0%nat →
  Z.of_nat rows ≤ INT_MAX →
  writePPM fs filename image = (store fs filename [], Throw EmptyImage).
Proof.
  intros Hopen Hshape Hzero Hrows. unfold writePPM. rewrite Hopen. cbn [negb].
  assert (length image = rows) as Hlen.
  { by rewrite <- shape_length, Hshape, length_replicate. }
  rewrite int_size_id by lia. rewrite Hlen.
  destruct (Z.ltb_spec 0 (Z.of_nat rows)) as [Hpos | Hnone].
  - destruct Hzero as [-> | ->]; [lia |].
    destruct image as [|row image]; [simpl in Hlen; lia |].
    assert (length row = 0%nat) as Hrow.
    { destruct rows; [lia |]. by injection Hshape. }
    unfold at_. cbn [Z.ltb Z.compare].
    change (default 0 (int_size <$> (row :: image) !! Z.to_nat 0)) with (int_size row).
    unfold int_size. rewrite Hrow. done.
  - replace (Z.of_nat rows) with 0 by lia. done.
Qed.

Section Driver.
Context {float : Type} (scaled : float → Z → Z) (factor : float).

Lemma transform_pixel_map (opt : string) (image : Image) :
  opt ∈ ["-g"; "-i"; "-x"]%string →
  transform scaled factor opt image =
    Some (Ret (for_pixels (pixel_map scaled factor opt) image)).
Proof.
  rewrite !elem_of_cons, elem_of_nil. intros [-> | [-> | [-> | []]]]; reflexivity.
Qed.

Lemma transform_unknown (opt : string) (image : Image) :
  opt ∉ known_options → transform scaled factor opt image = None.
Proof.
  unfold known_options. rewrite !not_elem_of_cons. intros Hopt.
  unfold transform. repeat case_decide; tauto.
Qed.

(** The loop over the options on options that work pixel by pixel. *)
Lemma run_options_pixel_maps (options : list string) (image : Image) :
  Forall (λ opt, opt ∈ ["-g"; "-i"; "-x"]%string) options →
  run_options scaled factor options image =
    Ret (Next (for_pixels (pixel_pipeline scaled factor options) image)).
Proof.
  intros Hoptions. revert image.
  induction Hoptions as [|opt options Hopt _ IH]; intros image.
  - cbn [run_options]. by rewrite for_pixels_id.
  - cbn [run_options]. rewrite transform_pixel_map, bind_Ret by done.
    rewrite print_pixels_ok, bind_Ret, IH, for_pixels_compose. done.
Qed.

(** The loop over the options never falls through to [writePPM] when one
    of the options is not known. *)
Lemma run_options_unknown (options : list string) (opt : string) :
  opt ∈ options → opt ∉ known_options →
  ∀ image out, run_options scaled factor options image = Ret out → out = Return 1.
Proof.
  intros Hin Hopt. induction options as [|opt' options IH]; intros image out.
  { by apply elem_of_nil in Hin. }
  cbn [run_options].
  destruct (transform scaled factor opt' image) as [transformed|] eqn:Htransform.
  2: { by intros [= <-]. }
  apply elem_of_cons in Hin as [<- | Hin].
  { by rewrite transform_unknown in Htransform. }
  destruct transformed as [image'| |]; [| done | done].
  rewrite bind_Ret, print_pixels_ok, bind_Ret. by apply IH.
Qed.
End Driver.

(** X20. [main] with options that all work pixel by pixel ([-g], [-i],
    [-x], in any number and order): when the input decodes to a buffer
    that [writePPM] accepts and the output path can be opened, the exit
    status is 0 and the output file is the encoding of the buffer whose
    pixel (i, j) is the input's pixel (i, j) sent through the pixel maps of
    the options, in the order of the command line; the size is kept. *)
Theorem main_pixel_options {float : Type} (scaled : float → Z → Z) (factor : float)
    (fs : filesystem) (inputFile outputFile : string) (options : list string)
    (image : Image) :
  readPPM fs inputFile = Ret image → writable_image image →
  writable fs outputFile = true →
  Forall (λ opt, opt ∈ ["-g"; "-i"; "-x"]%string) options →
  main scaled factor fs (inputFile :: outputFile :: options) =
    (store fs outputFile
       (header (Z.of_nat (width image)) (Z.of_nat (height image)) ++
        bytes_of_image (for_pixels (pixel_pipeline scaled factor options) image)),
     Ret 0).
Proof.
  intros Hread Himage Hopen Hoptions. unfold main.
  rewrite Hread, bind_Ret, run_options_pixel_maps by done.
  set (out := for_pixels (pixel_pipeline scaled factor options) image).
  destruct (same_shape image out (shape_for_pixels _ image)) as (Hrect & Hh & Hw).
  rewrite writePPM_ok, Hh, Hw; [done | done |].
  destruct Himage as (? & ? & ? & ?).
  unfold writable_image. rewrite Hh, Hw. auto.
Qed.

(** The 1x2 file of two pixels, inverted and then made grey. *)
Lemma main_pixel_options_witness :
  main (λ (f v : Z), ((v - 128) * f + 1280) `quot` 10) 12
    (mkFs {["in.ppm" := header 2 1 ++ [x01; x02; x03; x04; x05; x06]]} (λ _, true))
    ["in.ppm"; "out.ppm"; "-i"; "-g"]%string =
    (store
       (mkFs {["in.ppm" := header 2 1 ++ [x01; x02; x03; x04; x05; x06]]} (λ _, true))
       "out.ppm"
       (header (Z.of_nat (width [[mkRGB x01 x02 x03; mkRGB x04 x05 x06]]))
               (Z.of_nat (height [[mkRGB x01 x02 x03; mkRGB x04 x05 x06]])) ++
        bytes_of_image
          (for_pixels
             (pixel_pipeline (λ (f v : Z), ((v - 128) * f + 1280) `quot` 10) 12
                ["-i"; "-g"]%string)
             [[mkRGB x01 x02 x03; mkRGB x04 x05 x06]])),
     Ret 0).
Proof.
  apply (main_pixel_options (λ (f v : Z), ((v - 128) * f + 1280) `quot` 10) 12
           (mkFs {["in.ppm" := header 2 1 ++ [x01; x02; x03; x04; x05; x06]]} (λ _, true))
           "in.ppm" "out.ppm" ["-i"; "-g"]%string
           [[mkRGB x01 x02 x03; mkRGB x04 x05 x06]]).
  - reflexivity.
  - split; [repeat constructor |]. split; [simpl; lia |]. split; [simpl; lia |].
    vm_compute. discriminate.
  - reflexivity.
  - repeat constructor.
Defined.

(** X21. An option that [main] does not know, anywhere on the command
    line, keeps it from writing: no file is created or changed (the
    options before it are applied to the buffer in memory only), and the
    exit status is 1 unless one of the earlier steps has undefined
    behaviour. *)
Theorem main_unknown_option {float : Type} (scaled : float → Z → Z) (factor : float)
    (fs : filesystem) (inputFile outputFile : string) (options : list string)
    (opt : string) :
  opt ∈ options → opt ∉ known_options →
  (main scaled factor fs (inputFile :: outputFile :: options)).1 = fs ∧
  ((main scaled factor fs (inputFile :: outputFile :: options)).2 = Ret 1 ∨
   ∃ u, (main scaled factor fs (inputFile :: outputFile :: options)).2 = Undefined u).
Proof.
  intros Hin Hopt. unfold main.
  destruct (readPPM fs inputFile) as [image| |]; cbn [mbind outcome_mbind outcome_bind];
    [| by auto | by eauto].
  pose proof (run_options_unknown scaled factor options opt Hin Hopt image) as Hrun.
  destruct (run_options scaled factor options image) as [out| |]; [| by auto | by eauto].
  rewrite (Hrun out eq_refl). auto.
Qed.

Lemma main_unknown_option_witness :
  (main (λ (f v : Z), v) 0
     (mkFs {["in.ppm" := header 1 1 ++ [x01; x02; x03]]} (λ _, true))
     ["in.ppm"; "out.ppm"; "-g"; "-z"]%string).1 =
    mkFs {["in.ppm" := header 1 1 ++ [x01; x02; x03]]} (λ _, true) ∧
  ((main (λ (f v : Z), v) 0
      (mkFs {["in.ppm" := header 1 1 ++ [x01; x02; x03]]} (λ _, true))
      ["in.ppm"; "out.ppm"; "-g"; "-z"]%string).2 = Ret 1 ∨
   ∃ u, (main (λ (f v : Z), v) 0
           (mkFs {["in.ppm" := header 1 1 ++ [x01; x02; x03]]} (λ _, true))
           ["in.ppm"; "out.ppm"; "-g"; "-z"]%string).2 = Undefined u).
Proof.
  apply (main_unknown_option (λ (f v : Z), v) 0
           (mkFs {["in.ppm" := header 1 1 ++ [x01; x02; x03]]} (λ _, true))
           "in.ppm" "out.ppm" ["-g"; "-z"]%string "-z"%string).
  - apply elem_of_cons. right. apply elem_of_cons. by left.
  - unfold known_options. rewrite !not_elem_of_cons, elem_of_nil.
    repeat split; discriminate || tauto.
Defined.



(** X23. [-c] on an input of a single row, or of a single column: the
    buffer that [compress] returns has no pixel, [writePPM] rejects it
    after it has opened the output, so [main] exits with status 1 and
    leaves an empty file at the output path. *)
Theorem main_compress_to_nothing {float : Type} (scaled : float → Z → Z) (factor : float)
    (fs : filesystem) (inputFile outputFile : string) (image : Image) :
  readPPM fs inputFile = Ret image →
  rectangular image → fits_int image → (1 ≤ height image)%nat →
  (height image < 2)%nat ∨ (width image < 2)%nat →
  writable fs outputFile = true →
  main scaled factor fs [inputFile; outputFile; "-c"%string] =
    (store fs outputFile [], Ret 1).
Proof.
  intros Hread Hrect Hfits Hh Hsmall Hopen. unfold main.
  rewrite Hread, bind_Ret. cbn [run_options].
  change (transform scaled factor "-c" image) with (Some (compress image)).
  destruct (compress_spec image Hrect Hfits Hh) as (out & -> & Hshape & _).
  rewrite bind_Ret, print_pixels_ok, bind_Ret.
  rewrite (writePPM_empty fs outputFile out _ _ Hopen Hshape); [done | |].
  - destruct Hsmall as [Hsmall | Hsmall]; [left | right];
      apply Nat.div_small; lia.
  - destruct Hfits as [Hfh _].
    pose proof (Nat.Div0.mul_div_le (height image) 2). lia.
Qed.

Lemma main_compress_to_nothing_witness :
  main (λ (f v : Z), v) 0
    (mkFs {["in.ppm" := header 2 1 ++ [x01; x02; x03; x04; x05; x06]]} (λ _, true))
    ["in.ppm"; "out.ppm"; "-c"]%string =
    (store
       (mkFs {["in.ppm" := header 2 1 ++ [x01; x02; x03; x04; x05; x06]]} (λ _, true))
       "out.ppm" [],
     Ret 1).
Proof.
  apply (main_compress_to_nothing (λ (f v : Z), v) 0
           (mkFs {["in.ppm" := header 2 1 ++ [x01; x02; x03; x04; x05; x06]]} (λ _, true))
           "in.ppm" "out.ppm" [[mkRGB x01 x02 x03; mkRGB x04 x05 x06]]).
  - reflexivity.
  - repeat constructor.
  - split; vm_compute; discriminate.
  - simpl. lia.
  - left. simpl. lia.
  - reflexivity.
Defined.




(** *** What a successful run has written *)

(** [is >> val] leaves an [int] in [val]. *)
Lemma extract_int_range (s : istream) (val : Z) :
  INT_MIN ≤ val ≤ INT_MAX → INT_MIN ≤ (extract_int s val).2 ≤ INT_MAX.
Proof.
  intros Hval. unfold extract_int. destruct (negb (good s)); [done |].
  destruct (drop_while isspace (buf s)) as [|c rest]; [done |]. cbv zeta.
  match goal with |- context [take_while isdigit ?body] => generalize body end.
  intros body. destruct (take_while isdigit body) as [|d digits]; [done |].
  match goal with |- context [if ?negative then - _ else _] => generalize negative end.
  intros negative.
  destruct (Z.ltb_spec (if negative then - decimal_value (d :: digits)
                        else decimal_value (d :: digits)) INT_MIN); [done |].
  destruct (Z.ltb_spec INT_MAX (if negative then - decimal_value (d :: digits)
                                else decimal_value (d :: digits))); [done |].
  cbn [snd]. lia.
Qed.

Lemma read_size_range (bound : nat) (file : istream) (line : list byte) (w h : Z)
    (file' : istream) (line' : list byte) (w' h' : Z) :
  INT_MIN ≤ w ≤ INT_MAX → INT_MIN ≤ h ≤ INT_MAX →
  read_size bound file line w h = Ret (file', line', w', h') →
  INT_MIN ≤ w' ≤ INT_MAX ∧ INT_MIN ≤ h' ≤ INT_MAX.
Proof.
  revert file line w h. induction bound as [|bound IH]; intros file line w h Hw Hh;
    [done |].
  cbn [read_size]. destruct (getline file line) as [file1 line1].
  destruct (failbit file1); [done |].
  destruct (skipped line1); [by apply IH |].
  pose proof (extract_int_range (mkIstream line1 false false) w Hw) as Hw1.
  destruct (extract_int (mkIstream line1 false false) w) as [iss1 w1].
  pose proof (extract_int_range iss1 h Hh) as Hh1.
  destruct (extract_int iss1 h) as [iss2 h1]. cbn [snd] in *.
  destruct (negb (failbit iss2)); [| by apply IH].
  by intros [= _ _ <- <-].
Qed.

Lemma read_header_range (content : list byte) (file : istream) (w h : Z) :
  read_header content = Ret (file, w, h) →
  INT_MIN ≤ w ≤ INT_MAX ∧ INT_MIN ≤ h ≤ INT_MAX.
Proof.
  unfold read_header. destruct (extract_word _ _) as [file0 magic].
  destruct (negb _); [done |].
  destruct (read_size _ _ _ _ _) as [[[[file1 line] w1] h1]| |] eqn:Hsize;
    [| done | done].
  rewrite bind_Ret.
  destruct (read_max_val _ _ _ _) as [[file2 m]| |]; [| done | done].
  rewrite bind_Ret. destruct (negb _); [done |]. intros [= _ <- <-].
  apply read_size_range in Hsize; [done | by vm_compute | by vm_compute].
Qed.

(** The buffer that [readPPM] returns is rectangular and its dimensions
    are [int]s. *)
Lemma readPPM_fits (fs : filesystem) (filename : string) (image : Image) :
  readPPM fs filename = Ret image → rectangular image ∧ fits_int image.
Proof.
  unfold readPPM. destruct (files fs !! filename) as [content|]; [| done].
  destruct (read_header content) as [[[file w] h]| |] eqn:Hheader; [| done | done].
  rewrite bind_Ret. intros (Hw & Hh & Hshape)%read_pixels_shape.
  apply read_header_range in Hheader as [Hrw Hrh].
  split; [by apply (rectangular_replicate (Z.to_nat h) (Z.to_nat w)) |].
  unfold fits_int. rewrite height_shape, width_shape, Hshape, length_replicate.
  split; [lia |]. destruct (Z.to_nat h); simpl; unfold INT_MAX in *; lia.
Qed.

Section DriverFits.
Context {float : Type} (scaled : float → Z → Z) (factor : float).

(** Each transform that completes keeps the buffer rectangular, with
    dimensions that are [int]s. *)
Lemma transform_keeps_fit (opt : string) (image out : Image) :
  rectangular image → fits_int image →
  transform scaled factor opt image = Some (Ret out) →
  rectangular out ∧ fits_int out.
Proof.
  intros Hrect Hfits.
  assert (∀ out, shape out = shape image → rectangular out ∧ fits_int out) as Hsame.
  { intros o Hs. destruct (same_shape image o Hs) as (Hr & _).
    split; [auto | by apply (fits_int_same_shape image)]. }
  unfold transform. repeat case_decide; intros [= Hrun].
  - apply Hsame. rewrite <- Hrun. apply shape_for_pixels.
  - apply Hsame. rewrite <- Hrun. apply shape_for_pixels.
  - apply Hsame. rewrite <- Hrun. apply shape_for_pixels.
  - apply Hsame. by apply blur_shape.
  - apply Hsame. by apply mirror_shape.
  - destruct (decide (height image = 0%nat)) as [Hzero | Hpos].
    { apply compress_RowZero in Hzero. congruence. }
    destruct (compress_spec image Hrect Hfits) as (out' & Hrun' & Hshape & _); [lia |].
    assert (out' = out) as -> by congruence.
    split; [by apply (rectangular_replicate _ _ _ Hshape) |].
    destruct Hfits as [Hfh Hfw]. unfold fits_int.
    rewrite height_shape, width_shape, Hshape, length_replicate.
    pose proof (Nat.Div0.mul_div_le (height image) 2).
    pose proof (Nat.Div0.mul_div_le (width image) 2).
    unfold INT_MAX in *.
    split; [lia |]. destruct (height image / 2)%nat; cbn [replicate head default]; unfold id; lia.
Qed.

Lemma run_options_keeps_fit (options : list string) :
  ∀ image out, rectangular image → fits_int image →
    run_options scaled factor options image = Ret (Next out) →
    rectangular out ∧ fits_int out.
Proof.
  induction options as [|opt options IH]; intros image out Hrect Hfits.
  { by intros [= <-]. }
  cbn [run_options].
  destruct (transform scaled factor opt image) as [[image'| |]|] eqn:Htransform;
    [| done | done | done].
  rewrite bind_Ret, print_pixels_ok, bind_Ret.
  destruct (transform_keeps_fit opt image image' Hrect Hfits Htransform). by apply IH.
Qed.

(** A [return] inside the loop over the options is a [return 1]. *)
Lemma run_options_return (options : list string) :
  ∀ image code, run_options scaled factor options image = Ret (Return code) → code = 1.
Proof.
  induction options as [|opt options IH]; intros image code; [done |].
  cbn [run_options].
  destruct (transform scaled factor opt image) as [[image'| |]|];
    [| done | done | by intros [= <-]].
  rewrite bind_Ret, print_pixels_ok, bind_Ret. apply IH.
Qed.
End DriverFits.

(** A normal return of [writePPM], for a rectangular buffer whose
    dimensions are [int]s: the buffer is not empty, and the file holds the
    header and the rows. *)
Lemma writePPM_returns (fs fs' : filesystem) (filename : string) (image : Image) :
  rectangular image → fits_int image →
  writePPM fs filename image = (fs', Ret ()) →
  (1 ≤ height image)%nat ∧ (1 ≤ width image)%nat ∧
  fs' = store fs filename
          (header (Z.of_nat (width image)) (Z.of_nat (height image)) ++
           bytes_of_image image).
Proof.
  intros Hrect [Hfh Hfw]. unfold writePPM.
  destruct (writable fs filename); cbn [negb]; [| done].
  rewrite int_size_id by done. fold (height image).
  assert ((if 0 <? Z.of_nat (height image)
           then default 0 (int_size <$> at_ image 0) else 0) =
          Z.of_nat (width image)) as ->.
  { destruct image as [|row image]; [done |].
    simpl in *. by rewrite int_size_id. }
  destruct (Z.eqb_spec (Z.of_nat (width image)) 0); [done |].
  destruct (Z.eqb_spec (Z.of_nat (height image)) 0); [done |].
  cbn [orb].
  destruct (decide (3 * Z.of_nat (width image) ≤ INT_MAX)) as [Hw3 | Hw3].
  - rewrite write_stream_ok by done. intros [= <- _].
    split; [lia |]. split; [lia |].
    unfold store. cbn [files writable]. by rewrite insert_insert_eq.
  - assert (write_stream image (Z.of_nat (height image)) (Z.of_nat (width image)) =
              Undefined IntOverflow) as ->; [| done].
    unfold write_stream. rewrite print_first_pixels_ok, bind_Ret by done.
    apply for_range_first_Undefined; [lia |].
    unfold write_row, mul_int, in_int.
    destruct (Z.leb_spec (Z.of_nat (width image) * 3) INT_MAX); [lia |].
    by rewrite andb_false_r.
Qed.

(** X25. Exit status 0 is a guarantee about the output file: whenever
    [main] returns 0, it was given an input path, an output path and
    options that it all knows, the input decoded to a buffer, every
    transform completed, and the output file is exactly the header that
    [writePPM] writes for the size of the resulting buffer (rectangular, at
    least 1x1) followed by its rows. *)
Theorem main_success_output {float : Type} (scaled : float → Z → Z) (factor : float)
    (fs : filesystem) (args : list string) :
  (main scaled factor fs args).2 = Ret 0 →
  ∃ inputFile outputFile options image out,
    args = inputFile :: outputFile :: options ∧
    Forall (λ opt, opt ∈ known_options) options ∧
    readPPM fs inputFile = Ret image ∧
    run_options scaled factor options image = Ret (Next out) ∧
    rectangular out ∧ (1 ≤ height out)%nat ∧ (1 ≤ width out)%nat ∧
    (main scaled factor fs args).1 =
      store fs outputFile
        (header (Z.of_nat (width out)) (Z.of_nat (height out)) ++ bytes_of_image out).
Proof.
  unfold main. destruct args as [|inputFile [|outputFile options]]; [done | done |].
  destruct (readPPM fs inputFile) as [image| |] eqn:Hread; [| done | done].
  rewrite bind_Ret.
  destruct (run_options scaled factor options image) as [[out|code]| |] eqn:Hrun;
    [| | done | done].
  2: { apply run_options_return in Hrun as ->. done. }
  destruct (writePPM fs outputFile out) as [fs' [[]| |]] eqn:Hwrite; [| done | done].
  intros _. exists inputFile, outputFile, options, image, out.
  destruct (readPPM_fits fs inputFile image Hread) as [Hrect Hfits].
  destruct (run_options_keeps_fit scaled factor options image out Hrect Hfits Hrun)
    as [Hrect' Hfits'].
  destruct (writePPM_returns fs fs' outputFile out Hrect' Hfits' Hwrite)
    as (Hh & Hw & ->).
  split; [done |]. split; [| done].
  apply Forall_forall. intros opt Hin.
  destruct (decide (opt ∈ known_options)) as [| Hunknown]; [done |].
  by pose proof (run_options_unknown scaled factor options opt Hin Hunknown image _ Hrun).
Qed.

Lemma main_success_output_witness :
  ∃ inputFile outputFile options image out,
    ["in.ppm"; "out.ppm"; "-m"; "-i"]%string = inputFile :: outputFile :: options ∧
    Forall (λ opt, opt ∈ known_options) options ∧
    readPPM (mkFs {["in.ppm" := header 5 1 ++ replicate 15 x01]} (λ _, true)) inputFile =
      Ret image ∧
    run_options (λ (f v : Z), v) 0 options image = Ret (Next out) ∧
    rectangular out ∧ (1 ≤ height out)%nat ∧ (1 ≤ width out)%nat ∧
    (main (λ (f v : Z), v) 0
       (mkFs {["in.ppm" := header 5 1 ++ replicate 15 x01]} (λ _, true))
       ["in.ppm"; "out.ppm"; "-m"; "-i"]%string).1 =
      store (mkFs {["in.ppm" := header 5 1 ++ replicate 15 x01]} (λ _, true)) outputFile
        (header (Z.of_nat (width out)) (Z.of_nat (height out)) ++ bytes_of_image out).
Proof.
  apply (main_success_output (λ (f v : Z), v) 0
           (mkFs {["in.ppm" := header 5 1 ++ replicate 15 x01]} (λ _, true))
           ["in.ppm"; "out.ppm"; "-m"; "-i"]%string).
  reflexivity.
Defined.
